(** * A shallow embedding of the explicit-free-list allocator of [mm.c]

    The allocator keeps its heap in one contiguous region obtained from
    [mem_sbrk].  Every block carries a header and a footer word holding
    [size | allocated]; free blocks are threaded on a circular doubly
    linked list through the first two words of their payload, anchored at
    a sentinel block that [mm_init] lays out right after the prologue.

    Conventions of the embedding.
    - [WSIZE] is [sizeof(void * )]; it is a parameter of every definition
      and the theorems assume it is 4 or 8.
    - A [size_t] / [uintptr_t] value is a [Z] in [0, 2^(8*WSIZE)); the
      wrap-around of every [size_t] operation is written with [wrap].
    - Addresses are [Z]; address arithmetic is done in [Z] (overflowing a
      pointer is undefined in C).  [NULL] is 0.
    - Memory is a total map from the address of a word to its value; the
      allocator itself only loads and stores whole words.  A load or a
      store outside the region is undefined in C; the map answers it, and
      no theorem below relies on such an access.  The copy path of
      [mm_realloc] is bound to make one when [mm_malloc] returns [NULL]:
      there the call is modelled as having no result ([None]).
    - A loop takes a fuel argument and returns [None] when the fuel runs
      out; the theorems exhibit the fuel that suffices. *)

From Stdlib Require Import ZArith List Bool Lia.
Import ListNotations.
Local Open Scope Z_scope.

(** ** Memory *)

Definition memory := Z -> Z.

Definition upd (m : memory) (a v : Z) : memory :=
  fun x => if Z.eqb x a then v else m x.

Definition NULL : Z := 0.

Record heap := mkHeap {
  mem          : memory;  (* contents of the region, word by word *)
  heap_listp   : Z;       (* static char *heap_listp *)
  free_listp   : Z;       (* static struct free_blk *free_listp *)
  mem_brk      : Z;       (* the extender's current break *)
  mem_max_addr : Z        (* the extender's limit *)
}.

Definition set_mem (h : heap) (m : memory) : heap :=
  mkHeap m (heap_listp h) (free_listp h) (mem_brk h) (mem_max_addr h).

(** Modelled from the spec: the region extender [mem_sbrk] is declared in
    memlib.h and its code is not part of the sources.  The spec describes
    it as [extend(n_bytes) -> old_break | error_sentinel]: it grows the
    region by [n_bytes] and returns the address of the first new byte, or
    a distinguished error value on failure.  The region is monotonically
    growable and fails by resource exhaustion, rendered here by a limit
    the break may not pass.  [None] stands for the error sentinel
    [(void * )-1]. *)
Definition mem_sbrk (h : heap) (incr : Z) : option (heap * Z) :=
  if (0 <=? incr) && (mem_brk h + incr <=? mem_max_addr h)
  then Some (mkHeap (mem h) (heap_listp h) (free_listp h)
                    (mem_brk h + incr) (mem_max_addr h),
             mem_brk h)
  else None.

Section Model.

Variable WSIZE : Z.   (* #define WSIZE sizeof(void * ) *)

Definition DSIZE : Z := 2 * WSIZE.
Definition CHUNKSIZE : Z := Z.shiftl 1 12.

Definition modulus : Z := 2 ^ (8 * WSIZE).
Definition wrap (x : Z) : Z := x mod modulus.

Definition MAX (x y : Z) : Z := if x >? y then x else y.

Definition PACK (size alloc : Z) : Z := Z.lor size alloc.

Definition GET (m : memory) (p : Z) : Z := m p.
Definition PUT (m : memory) (p val : Z) : memory := upd m p val.

Definition GET_SIZE (m : memory) (p : Z) : Z :=
  Z.land (GET m p) (wrap (Z.lnot (DSIZE - 1))).
Definition GET_ALLOC (m : memory) (p : Z) : Z :=
  Z.land (GET m p) 1.

Definition HDRP (bp : Z) : Z := bp - WSIZE.
Definition FTRP (m : memory) (bp : Z) : Z :=
  bp + GET_SIZE m (HDRP bp) - DSIZE.

Definition NEXT_BLKP (m : memory) (bp : Z) : Z :=
  bp + GET_SIZE m (bp - WSIZE).
Definition PREV_BLKP (m : memory) (bp : Z) : Z :=
  bp - GET_SIZE m (bp - DSIZE).

(** [#define ROUND(size) (((size) + (DSIZE-1)) & ~0x7)]; the literal [~0x7]
    is an [int] converted to [size_t]. *)
Definition ROUND (size : Z) : Z :=
  Z.land (wrap (size + (DSIZE - 1))) (wrap (Z.lnot 7)).

(** [struct free_blk { void *prev; void *next; }]: [prev] lies at offset
    0 of the payload and [next] one word further. *)
Definition prev_of (m : memory) (bp : Z) : Z := GET m bp.
Definition next_of (m : memory) (bp : Z) : Z := GET m (bp + WSIZE).
Definition set_prev (m : memory) (bp v : Z) : memory := PUT m bp v.
Definition set_next (m : memory) (bp v : Z) : memory := PUT m (bp + WSIZE) v.

(** ** The free list *)

Definition add_free (flp : Z) (m : memory) (bp : Z) : memory :=
  let m1 := set_prev m (next_of m flp) bp in
  let m2 := set_next m1 bp (next_of m1 flp) in
  let m3 := set_prev m2 bp flp in
  set_next m3 flp bp.

Definition remove_free (m : memory) (bp : Z) : memory :=
  let m1 := set_prev m (next_of m bp) (prev_of m bp) in
  set_next m1 (prev_of m1 bp) (next_of m1 bp).

(** [find_fit]: the loop starts at [free_listp->next] and runs while the
    current node's header has its allocated bit clear. *)
Fixpoint find_fit_loop (fuel : nat) (flp : Z) (m : memory) (asize bp : Z)
  : option Z :=
  match fuel with
  | O => None
  | S fuel' =>
      if GET_ALLOC m (HDRP bp) =? 0 then
        if asize <=? GET_SIZE m (HDRP bp) then Some bp
        else if bp =? flp then Some NULL
        else find_fit_loop fuel' flp m asize (next_of m bp)
      else Some NULL
  end.

Definition find_fit (fuel : nat) (flp : Z) (m : memory) (asize : Z)
  : option Z :=
  find_fit_loop fuel flp m asize (next_of m flp).

(** The same loop, recording the address of every word it loads, in the
    order of the loads. *)
Fixpoint find_fit_loop_reads (fuel : nat) (flp : Z) (m : memory)
  (asize bp : Z) (reads : list Z) : option (Z * list Z) :=
  match fuel with
  | O => None
  | S fuel' =>
      let reads1 := reads ++ [HDRP bp] in
      if GET_ALLOC m (HDRP bp) =? 0 then
        let reads2 := reads1 ++ [HDRP bp] in
        if asize <=? GET_SIZE m (HDRP bp) then Some (bp, reads2)
        else if bp =? flp then Some (NULL, reads2)
        else find_fit_loop_reads fuel' flp m asize (next_of m bp)
               (reads2 ++ [bp + WSIZE])
      else Some (NULL, reads1)
  end.

Definition find_fit_reads (fuel : nat) (flp : Z) (m : memory) (asize : Z)
  : option (Z * list Z) :=
  find_fit_loop_reads fuel flp m asize (next_of m flp) [flp + WSIZE].

(** ** Placement *)

Definition place (flp : Z) (m : memory) (bp asize : Z) : memory :=
  let csize := GET_SIZE m (HDRP bp) in
  if wrap (csize - asize) >=? 3 * DSIZE then
    let m1 := PUT m (HDRP bp) (PACK asize 1) in
    let m2 := PUT m1 (FTRP m1 bp) (PACK asize 1) in
    let m3 := remove_free m2 bp in
    let bp' := NEXT_BLKP m3 bp in
    let m4 := PUT m3 (HDRP bp') (PACK (wrap (csize - asize)) 0) in
    let m5 := PUT m4 (FTRP m4 bp') (PACK (wrap (csize - asize)) 0) in
    add_free flp m5 bp'
  else
    let m1 := PUT m (HDRP bp) (PACK csize 1) in
    let m2 := PUT m1 (FTRP m1 bp) (PACK csize 1) in
    remove_free m2 bp.

(** ** Coalescing *)

Definition coalesce (flp : Z) (m : memory) (bp : Z) : memory * Z :=
  let next_alloc := negb (GET_ALLOC m (HDRP (NEXT_BLKP m bp)) =? 0) in
  let prev_alloc := negb (GET_ALLOC m (FTRP m (PREV_BLKP m bp)) =? 0) in
  let size := GET_SIZE m (HDRP bp) in
  if prev_alloc && next_alloc then                       (* Case 1 *)
    (add_free flp m bp, bp)
  else if prev_alloc && negb next_alloc then             (* Case 2 *)
    let size := wrap (size + GET_SIZE m (HDRP (NEXT_BLKP m bp))) in
    let m1 := remove_free m (NEXT_BLKP m bp) in
    let m2 := PUT m1 (HDRP bp) (PACK size 0) in
    let m3 := PUT m2 (FTRP m2 bp) (PACK size 0) in
    (add_free flp m3 bp, bp)
  else if negb prev_alloc && next_alloc then             (* Case 3 *)
    let size := wrap (size + GET_SIZE m (HDRP (PREV_BLKP m bp))) in
    let bp := PREV_BLKP m bp in
    let m1 := remove_free m bp in
    let m2 := PUT m1 (HDRP bp) (PACK size 0) in
    let m3 := PUT m2 (FTRP m2 bp) (PACK size 0) in
    (add_free flp m3 bp, bp)
  else                                                   (* Case 4 *)
    let size := wrap (size + wrap (GET_SIZE m (HDRP (PREV_BLKP m bp)) +
                                   GET_SIZE m (FTRP m (NEXT_BLKP m bp)))) in
    let m1 := remove_free m (PREV_BLKP m bp) in
    let m2 := remove_free m1 (NEXT_BLKP m1 bp) in
    let bp := PREV_BLKP m2 bp in
    let m3 := PUT m2 (HDRP bp) (PACK size 0) in
    let m4 := PUT m3 (FTRP m3 bp) (PACK size 0) in
    (add_free flp m4 bp, bp).

(** ** Heap extension *)

(** The byte count of [extend_heap], line 337: an even number of words. *)
Definition extend_bytes (words : Z) : Z :=
  if words mod 2 =? 0 then wrap (words * WSIZE)
  else wrap ((words + 1) * WSIZE).

Definition extend_heap (h : heap) (words : Z) : heap * Z :=
  let size := extend_bytes words in
  match mem_sbrk h size with
  | None => (h, NULL)
  | Some (h1, bp) =>
      let m1 := PUT (mem h1) (HDRP bp) (PACK size 0) in
      let m2 := PUT m1 (FTRP m1 bp) (PACK size 0) in
      let m3 := PUT m2 (HDRP (NEXT_BLKP m2 bp)) (PACK 0 1) in
      let '(m4, bp') := coalesce (free_listp h1) m3 bp in
      (set_mem h1 m4, bp')
  end.

(** ** The four entry points *)

Definition mm_init (h : heap) : heap * Z :=
  match mem_sbrk h (wrap (8 * WSIZE)) with
  | None =>
      (mkHeap (mem h) (wrap (-1)) (free_listp h) (mem_brk h)
              (mem_max_addr h), -1)
  | Some (h1, p) =>
      let flp := p + 4 * WSIZE in
      let m1 := PUT (mem h1) p 0 in
      let m2 := PUT m1 (p + 1 * WSIZE) (PACK DSIZE 1) in
      let m3 := PUT m2 (p + 2 * WSIZE) (PACK DSIZE 1) in
      let m4 := PUT m3 (p + 3 * WSIZE) (PACK (4 * WSIZE) 1) in
      let m5 := PUT m4 (p + 4 * WSIZE) flp in
      let m6 := PUT m5 (p + 5 * WSIZE) flp in
      let m7 := PUT m6 (p + 6 * WSIZE) (PACK (4 * WSIZE) 1) in
      let m8 := PUT m7 (p + 7 * WSIZE) (PACK 0 1) in
      let h2 := mkHeap m8 (p + 2 * WSIZE) flp (mem_brk h1)
                       (mem_max_addr h1) in
      let '(h3, bp) := extend_heap h2 (CHUNKSIZE / WSIZE) in
      if bp =? NULL then (h3, -1) else (h3, 0)
  end.

(** The adjusted block size of [mm_malloc], lines 149-158. *)
Definition adjust (size : Z) : Z :=
  let asize := if size <=? DSIZE then wrap (2 * DSIZE)
               else wrap (DSIZE * (wrap (size + DSIZE + (DSIZE - 1)) / DSIZE)) in
  let asize := if size =? 448 then 528 else asize in
  if size =? 112 then 144 else asize.

Definition mm_malloc (fuel : nat) (h : heap) (size : Z) : option (heap * Z) :=
  if size <=? 0 then Some (h, NULL)
  else
    let asize := adjust size in
    match find_fit fuel (free_listp h) (mem h) asize with
    | None => None
    | Some bp =>
        if negb (bp =? NULL) then
          Some (set_mem h (place (free_listp h) (mem h) bp asize), bp)
        else
          let extendsize := MAX asize CHUNKSIZE in
          let '(h1, bp) := extend_heap h (extendsize / WSIZE) in
          if bp =? NULL then Some (h1, NULL)
          else Some (set_mem h1 (place (free_listp h1) (mem h1) bp asize), bp)
    end.

Definition mm_free (h : heap) (bp : Z) : heap :=
  if bp =? NULL then h
  else
    let size := GET_SIZE (mem h) (HDRP bp) in
    let m1 := PUT (mem h) (HDRP bp) (PACK size 0) in
    let m2 := PUT m1 (FTRP m1 bp) (PACK size 0) in
    set_mem h (fst (coalesce (free_listp h) m2 bp)).

(** [memcpy(dst, src, n)], word by word in ascending order.  Every length
    [mm_realloc] passes is a multiple of 8, hence of the word size.  The
    C function is undefined when the two ranges overlap. *)
Fixpoint memcpy_words (k : nat) (m : memory) (dst src : Z) : memory :=
  match k with
  | O => m
  | S k' => memcpy_words k' (PUT m dst (GET m src)) (dst + WSIZE)
              (src + WSIZE)
  end.

Definition memcpy (m : memory) (dst src n : Z) : memory :=
  memcpy_words (Z.to_nat (n / WSIZE)) m dst src.

(** The adjusted request of [mm_realloc], line 212. *)
Definition realloc_asize (size : Z) : Z :=
  MAX (wrap (ROUND size + DSIZE)) 24.

(** [mm_realloc], lines 210-259.  The copy path does not test the result
    of [mm_malloc]: when that is [NULL], [place(newptr, asize)] begins by
    loading the header at [NULL - WSIZE] (line 391), an address outside
    the region, and the call ends there without a result. *)
Definition mm_realloc (fuel : nat) (h : heap) (ptr size : Z)
  : option (heap * Z) :=
  let asize := realloc_asize size in
  if size =? 0 then Some (mm_free h ptr, NULL)
  else if ptr =? NULL then mm_malloc fuel h asize
  else
    let m := mem h in
    let oldsize := GET_SIZE m (HDRP ptr) in
    if asize <=? oldsize then Some (h, ptr)
    else
      let esize := wrap (oldsize + GET_SIZE m (HDRP (NEXT_BLKP m ptr))) in
      if (GET_ALLOC m (HDRP (NEXT_BLKP m ptr)) =? 0) && (esize >=? asize)
      then
        let m1 := remove_free m (NEXT_BLKP m ptr) in
        let m2 := PUT m1 (HDRP ptr) (PACK esize 1) in
        let m3 := PUT m2 (FTRP m2 ptr) (PACK esize 1) in
        Some (set_mem h m3, ptr)
      else
        match mm_malloc fuel h asize with
        | None => None
        | Some (h1, newptr) =>
            if newptr =? NULL then None
            else
              let m1 := place (free_listp h1) (mem h1) newptr asize in
              let m2 := memcpy m1 newptr ptr asize in
              Some (mm_free (set_mem h1 m2) ptr, newptr)
        end.

(** ** The heap walks of the consistency checker *)

(** [checkheap]: from a block pointer, follow [NEXT_BLKP] until a header
    of size 0; each block is listed as (pointer, size, allocated bit). *)
Fixpoint heap_walk (fuel : nat) (m : memory) (bp : Z) : list (Z * Z * Z) :=
  match fuel with
  | O => []
  | S fuel' =>
      if GET_SIZE m (HDRP bp) >? 0
      then (bp, GET_SIZE m (HDRP bp), GET_ALLOC m (HDRP bp))
             :: heap_walk fuel' m (NEXT_BLKP m bp)
      else []
  end.

(** [check_freeblocks_free]: from the sentinel's next link, follow the
    next links until the sentinel comes back. *)
Fixpoint free_walk (fuel : nat) (flp : Z) (m : memory) (bp : Z) : list Z :=
  match fuel with
  | O => []
  | S fuel' =>
      if bp =? flp then [] else bp :: free_walk fuel' flp m (next_of m bp)
  end.

End Model.

(** ** Predicates used by the specifications *)

Section Predicates.

Variable WSIZE : Z.

(** The sizes the target supports. *)
Definition word_size : Prop := WSIZE = 4 \/ WSIZE = 8.

Definition aligned (x : Z) : Prop := x mod DSIZE WSIZE = 0.

(** [dll m p l q]: following the next links from node [p] visits the
    nodes of [l] in order and then reaches [q], and every prev link on the
    way points back. *)
Fixpoint dll (m : memory) (p : Z) (l : list Z) (q : Z) : Prop :=
  match l with
  | [] => next_of WSIZE m p = q /\ prev_of m q = p
  | x :: l' => next_of WSIZE m p = x /\ prev_of m x = p /\ dll m x l' q
  end.

(** The circular free list anchored at the sentinel [flp] holds exactly
    the nodes of [l], in the order of the next links. *)
Definition free_list (m : memory) (flp : Z) (l : list Z) : Prop :=
  dll m flp l flp /\ NoDup (flp :: l) /\
  (forall x, In x (flp :: l) -> aligned x).

(** [a] is one of the two link words of a node of [l]. *)
Definition link_word (l : list Z) (a : Z) : Prop :=
  exists x, In x l /\ (a = x \/ a = x + WSIZE).

(** A block size: a multiple of the double word, at least four words. *)
Definition block_size (sz : Z) : Prop :=
  sz mod DSIZE WSIZE = 0 /\ 2 * DSIZE WSIZE <= sz.

Definition bit (a : Z) : Prop := a = 0 \/ a = 1.

(** The block at [bp] has header and footer [(sz, a)]. *)
Definition block_at (m : memory) (bp sz a : Z) : Prop :=
  m (HDRP WSIZE bp) = PACK sz a /\
  m (bp + sz - DSIZE WSIZE) = PACK sz a.

End Predicates.

(** ** The heap between calls *)

(** The blocks laid end to end from address [p] on: each entry of [bl] is
    the (size, allocated bit) of one block, and the result lists every
    block as (block pointer, size, allocated bit). *)
Fixpoint layout (p : Z) (bl : list (Z * Z)) : list (Z * Z * Z) :=
  match bl with
  | [] => []
  | (sz, a) :: bl' => (p, sz, a) :: layout (p + sz) bl'
  end.

Definition total (bl : list (Z * Z)) : Z :=
  fold_right (fun b acc => fst b + acc) 0 bl.

Section Invariant.

Variable WSIZE : Z.

(** Block [b] carries matching boundary tags of a legal size. *)
Definition tagged (m : memory) (b : Z * Z * Z) : Prop :=
  let '(x, sz, a) := b in
  block_size WSIZE sz /\ bit a /\ block_at WSIZE m x sz a.

(** The heap between calls: the sentinel block at [free_listp], then the
    blocks of [bl] end to end up to the break, whose last word is the
    epilogue header; the free list [l] holds exactly the blocks of [bl]
    whose allocated bit is clear. *)
Definition heap_ok (h : heap) (bl : list (Z * Z)) (l : list Z) : Prop :=
  let m := mem h in
  let flp := free_listp h in
  aligned WSIZE flp /\ 4 * WSIZE <= flp /\
  block_at WSIZE m flp (4 * WSIZE) 1 /\
  Forall (tagged m) (layout (flp + 4 * WSIZE) bl) /\
  mem_brk h = flp + 4 * WSIZE + total bl /\
  m (HDRP WSIZE (mem_brk h)) = PACK 0 1 /\
  mem_brk h <= mem_max_addr h /\ mem_max_addr h + 1 < modulus WSIZE /\
  free_list WSIZE m flp l /\
  (forall x, In x l <-> exists sz, In (x, sz, 0) (layout (flp + 4 * WSIZE) bl)).
End Invariant.

(** The spec's rounding: the least multiple of [d] that is at least [x],
    and the adjusted size the spec gives for a request of [n] bytes,
    [max(min_block, round_up(n + 2*WSIZE, 2*WSIZE))]. *)
Definition round_up (x d : Z) : Z := (x + d - 1) / d * d.

Definition spec_asize (WSIZE n : Z) : Z :=
  Z.max (2 * DSIZE WSIZE) (round_up (n + 2 * WSIZE) (2 * WSIZE)).

(** ** Concrete heaps and call sequences on a 64-bit target *)

(** A region of 20 MB starting at address 65536, nothing allocated. *)
Definition fresh_region : heap :=
  mkHeap (fun _ => 0) 0 0 65536 (65536 + 20 * 1024 * 1024).

Definition walk_fuel : nat := 64.

Definition bind {A B : Type} (o : option A) (f : A -> option B) : option B :=
  match o with
  | Some x => f x
  | None => None
  end.

Notation "'let*' p ':=' e 'in' k" := (bind e (fun p => k))
  (at level 10, p pattern, e at level 100, k at level 200).

Definition blocks_of (W : Z) (h : heap) : list (Z * Z * Z) :=
  heap_walk W walk_fuel (mem h) (heap_listp h).

Definition free_blocks_of (W : Z) (h : heap) : list Z :=
  free_walk W walk_fuel (free_listp h) (mem h)
    (next_of W (mem h) (free_listp h)).

(** Invariant 3 of the data model, checked on the two walks: every block
    whose allocated bit is clear occurs exactly once in the free list, and
    every listed block has its allocated bit clear. *)
Definition membership_ok (W : Z) (h : heap) : bool :=
  forallb (fun b : Z * Z * Z =>
             let '(bp, _, a) := b in
             if a =? 0
             then Nat.eqb (count_occ Z.eq_dec (free_blocks_of W h) bp) 1
             else true)
          (blocks_of W h) &&
  forallb (fun bp => GET_ALLOC (mem h) (HDRP W bp) =? 0) (free_blocks_of W h).

Definition init_heap : heap := fst (mm_init 8 fresh_region).

(** [p = malloc(64); q = malloc(2000); r = realloc(p, 100)]: the block of
    [p] cannot grow in place, so [mm_realloc] takes its copy path. *)
Definition copy_scenario : option (heap * heap * Z * Z * Z) :=
  let* (h1, p) := mm_malloc 8 walk_fuel init_heap 64 in
  let* (h2, q) := mm_malloc 8 walk_fuel h1 2000 in
  let* (h3, r) := mm_realloc 8 walk_fuel h2 p 100 in
  Some (h2, h3, p, q, r).

(** [p = malloc(16); r = realloc(p, 16)]. *)
Definition same_size_scenario : option (heap * heap * Z * Z) :=
  let* (h1, p) := mm_malloc 8 walk_fuel init_heap 16 in
  let* (h2, r) := mm_realloc 8 walk_fuel h1 p 16 in
  Some (h1, h2, p, r).

(** The heap once [malloc(4080)] has taken the whole initial chunk: the
    free list is empty. *)
Definition full_heap : heap :=
  match mm_malloc 8 walk_fuel init_heap 4080 with
  | Some (h, _) => h
  | None => init_heap
  end.

(** The memory at the point where [mm_free] calls [coalesce], for the
    block returned by a first [malloc(64)]. *)
Definition freed_memory : memory :=
  match mm_malloc 8 walk_fuel init_heap 64 with
  | Some (h, bp) =>
      let size := GET_SIZE 8 (mem h) (HDRP 8 bp) in
      let m1 := PUT (mem h) (HDRP 8 bp) (PACK size 0) in
      PUT m1 (FTRP 8 m1 bp) (PACK size 0)
  | None => mem init_heap
  end.

(** A region with room for the prelude and the first chunk only, and one
    with room for the prelude only. *)
Definition tight_heap : heap :=
  fst (mm_init 8 (mkHeap (fun _ => 0) 0 0 65536 (65536 + 64 + 4096))).

Definition prelude_only_region : heap :=
  mkHeap (fun _ => 0) 0 0 65536 (65536 + 64).

(** ** The consistency checker *)

(** What the checker routines print: one constructor for each [printf] of
    the source, carrying the values it formats. *)
Inductive report : Type :=
| NotAligned (bp : Z)        (* "Error: %p is not doubleword aligned" *)
| TagMismatch                (* "Error: header does not match footer" *)
| BadPrologue                (* "Bad prologue header" *)
| BadEpilogue                (* "Bad epilogue header" *)
| HeapLine (p : Z)           (* "Heap (%p):" *)
| BlockLine (bp hsize : Z) (halloc : bool) (fsize : Z) (falloc : bool)
                             (* "%p: header: [%zu:%c] footer: [%zu:%c]" *)
| EndOfHeap (bp : Z)         (* "%p: end of heap" *)
| NotFree                    (* "block is not free " *)
| Uncoalesced                (* "ajacent blocks are free and uncoalesced " *)
| NotAdded.                  (* "The memory block was not added to the free
                                list", printed by both [check_remove] and
                                [check_add] *)

Section Checker.

Variable WSIZE : Z.

Definition checkblock (m : memory) (bp : Z) : list report :=
  (if negb (bp mod DSIZE WSIZE =? 0) then [NotAligned bp] else []) ++
  (if negb (GET m (HDRP WSIZE bp) =? GET m (FTRP WSIZE m bp))
   then [TagMismatch] else []).

(** The [for] loop of [checkheap], lines 480-484; [pb] is the call to
    [printblock].  The result carries the block pointer the loop stops
    at. *)
Fixpoint checkheap_loop (fuel : nat) (pb : Z -> option (list report))
  (verbose : bool) (m : memory) (bp : Z) : option (list report * Z) :=
  match fuel with
  | O => None
  | S fuel' =>
      if GET_SIZE WSIZE m (HDRP WSIZE bp) >? 0 then
        let* o1 := if verbose then pb bp else Some [] in
        let* (rest, bp') :=
          checkheap_loop fuel' pb verbose m (NEXT_BLKP WSIZE m bp) in
        Some (o1 ++ checkblock m bp ++ rest, bp')
      else Some ([], bp)
  end.

Definition checkheap_with (pb : Z -> option (list report)) (fuel : nat)
  (verbose : bool) (h : heap) : option (list report) :=
  let m := mem h in
  let o0 := if verbose then [HeapLine (heap_listp h)] else [] in
  let o1 := if negb (GET_SIZE WSIZE m (HDRP WSIZE (heap_listp h))
                       =? DSIZE WSIZE)
               || (GET_ALLOC m (HDRP WSIZE (heap_listp h)) =? 0)
            then [BadPrologue] else [] in
  let o2 := checkblock m (heap_listp h) in
  let* (o3, bp) := checkheap_loop fuel pb verbose m (heap_listp h) in
  let* o4 := if verbose then pb bp else Some [] in
  let o5 := if negb (GET_SIZE WSIZE m (HDRP WSIZE bp) =? 0)
               || (GET_ALLOC m (HDRP WSIZE bp) =? 0)
            then [BadEpilogue] else [] in
  Some (o0 ++ o1 ++ o2 ++ o3 ++ o4 ++ o5).

(** [printblock] starts with [checkheap(false)], which never calls
    [printblock] back. *)
Definition printblock (fuel : nat) (h : heap) (bp : Z)
  : option (list report) :=
  let* o := checkheap_with (fun _ => Some []) fuel false h in
  let m := mem h in
  let hsize := GET_SIZE WSIZE m (HDRP WSIZE bp) in
  let halloc := negb (GET_ALLOC m (HDRP WSIZE bp) =? 0) in
  let fsize := GET_SIZE WSIZE m (FTRP WSIZE m bp) in
  let falloc := negb (GET_ALLOC m (FTRP WSIZE m bp) =? 0) in
  if hsize =? 0 then Some (o ++ [EndOfHeap bp])
  else Some (o ++ [BlockLine bp hsize halloc fsize falloc]).

Definition checkheap (fuel : nat) (verbose : bool) (h : heap)
  : option (list report) :=
  checkheap_with (printblock fuel h) fuel verbose h.

(** [check_freeblocks_free]; [GET_ALLOC(next)] loads the word [next]
    points to. *)
Fixpoint check_freeblocks_free_loop (fuel : nat) (m : memory)
  (start next : Z) : option (list report) :=
  match fuel with
  | O => None
  | S fuel' =>
      if start =? next then Some []
      else
        let o := if negb (GET_ALLOC m next =? 0) then [NotFree] else [] in
        let* rest :=
          check_freeblocks_free_loop fuel' m start (next_of WSIZE m next) in
        Some (o ++ rest)
  end.

Definition check_freeblocks_free (fuel : nat) (h : heap)
  : option (list report) :=
  check_freeblocks_free_loop fuel (mem h) (free_listp h)
    (next_of WSIZE (mem h) (free_listp h)).

(** [check_contiguous]. *)
Fixpoint check_contiguous_loop (fuel : nat) (m : memory)
  (start current next : Z) : option (list report) :=
  match fuel with
  | O => None
  | S fuel' =>
      if start =? next then Some []
      else
        let o := if negb (GET_ALLOC m current =? 0) && (GET_ALLOC m next =? 0)
                 then [Uncoalesced] else [] in
        let* rest :=
          check_contiguous_loop fuel' m start next (NEXT_BLKP WSIZE m next) in
        Some (o ++ rest)
  end.

Definition check_contiguous (fuel : nat) (h : heap) : option (list report) :=
  check_contiguous_loop fuel (mem h) (heap_listp h) (heap_listp h)
    (NEXT_BLKP WSIZE (mem h) (heap_listp h)).

(** The loop that [check_remove] and [check_add] share: it runs while
    [start != current], and both are [heap_listp] at its entry. *)
Fixpoint check_switch_loop (fuel : nat) (m : memory)
  (start current bp : Z) (my_switch : bool) : option bool :=
  match fuel with
  | O => None
  | S fuel' =>
      if start =? current then Some my_switch
      else check_switch_loop fuel' m start (NEXT_BLKP WSIZE m current) bp
             (if current =? bp then true else my_switch)
  end.

Definition check_remove (fuel : nat) (h : heap) (bp : Z)
  : option (list report) :=
  let* my_switch :=
    check_switch_loop fuel (mem h) (heap_listp h) (heap_listp h) bp false in
  Some (if my_switch then [NotAdded] else []).

Definition check_add (fuel : nat) (h : heap) (bp : Z)
  : option (list report) :=
  let* my_switch :=
    check_switch_loop fuel (mem h) (heap_listp h) (heap_listp h) bp false in
  Some (if negb my_switch then [NotAdded] else []).

End Checker.

(** The line [printblock] prints for a block whose header and footer
    agree. *)
Definition block_line (b : Z * Z * Z) : report :=
  let '(x, sz, a) := b in
  BlockLine x sz (negb (a =? 0)) sz (negb (a =? 0)).

(** The (size, allocated bit) entries of a list of blocks. *)
Definition sizes_of (blocks : list (Z * Z * Z)) : list (Z * Z) :=
  map (fun b => (snd (fst b), snd b)) blocks.

(** The prologue [mm_init] writes below the sentinel block: a block of
    one double word, header and footer only, at [heap_listp]. *)
Definition prologue_ok (WSIZE : Z) (h : heap) : Prop :=
  heap_listp h = free_listp h - DSIZE WSIZE /\
  mem h (HDRP WSIZE (heap_listp h)) = PACK (DSIZE WSIZE) 1 /\
  mem h (heap_listp h) = PACK (DSIZE WSIZE) 1.

(** The initial heap with the header of its one free block overwritten
    to read allocated; the block is still on the free list. *)
Definition marked_heap : heap :=
  set_mem init_heap (PUT (mem init_heap) (HDRP 8 65600) (PACK 4096 1)).

(** ** What a call keeps *)

(** No two neighbouring blocks of the layout are both free. *)
Fixpoint coalesced (bl : list (Z * Z)) : Prop :=
  match bl with
  | [] => True
  | b :: bl' => (snd b = 0 -> snd (hd (0, 1) bl') <> 0) /\ coalesced bl'
  end.

(** The heap between calls, in full: the blocks and the free list, the
    prologue in front of them, and no two free blocks side by side. *)
Definition heap_wf (WSIZE : Z) (h : heap) (bl : list (Z * Z)) (l : list Z)
  : Prop :=
  heap_ok WSIZE h bl l /\ prologue_ok WSIZE h /\ coalesced bl.

(** The allocated block [x] of [sz] bytes is still there in [h'], with
    every word of its payload as it was in [h]. *)
Definition block_kept (WSIZE : Z) (h h' : heap) (bl' : list (Z * Z))
  (x sz : Z) : Prop :=
  In (x, sz, 1) (layout (free_listp h' + 4 * WSIZE) bl') /\
  forall a, x <= a < x + sz - DSIZE WSIZE -> mem h' a = mem h a.

(** What a call that takes the heap from [h] to [h'] leaves alone: the
    two globals, the words below the sentinel block, the absence of
    neighbouring free blocks, and every allocated block but those the
    call works on ([touched]); and the only allocated blocks it adds are
    those it hands out ([made]). *)
Definition heap_step (WSIZE : Z) (h : heap) (bl : list (Z * Z))
  (h' : heap) (bl' : list (Z * Z)) (touched made : Z -> Prop) : Prop :=
  free_listp h' = free_listp h /\ heap_listp h' = heap_listp h /\
  mem_max_addr h' = mem_max_addr h /\
  (forall a, a < free_listp h - WSIZE -> mem h' a = mem h a) /\
  (coalesced bl -> coalesced bl') /\
  (forall x sz, In (x, sz, 1) (layout (free_listp h + 4 * WSIZE) bl) ->
                ~ touched x -> block_kept WSIZE h h' bl' x sz) /\
  (forall x sz, In (x, sz, 1) (layout (free_listp h' + 4 * WSIZE) bl') ->
                made x \/
                In (x, sz, 1) (layout (free_listp h + 4 * WSIZE) bl)).

(** The initial heap after [malloc(64)]: an allocated block of 80 bytes
    at 65600, followed by the free remainder of the first chunk. *)
Definition one_block_heap : heap :=
  match mm_malloc 8 walk_fuel init_heap 64 with
  | Some (h, _) => h
  | None => init_heap
  end.

(** The same heap after a second [malloc(2000)]: allocated blocks of 80
    bytes at 65600 and of 2016 bytes at 65680, then the free remainder. *)
Definition two_block_heap : heap :=
  match mm_malloc 8 walk_fuel one_block_heap 2000 with
  | Some (h, _) => h
  | None => one_block_heap
  end.

(** ** A client of the allocator *)

(** The calls a client makes. *)
Inductive call : Type :=
| Malloc (n : Z)
| Free (p : Z).

(** A client runs a list of calls and keeps the pointers it holds:
    [mm_malloc] adds the pointer it returns unless that is [NULL];
    [mm_free] is called on a pointer only while the client holds it (the
    "Requires" of [mm_free]), other [Free] calls are left out. *)
Fixpoint run_calls (WSIZE : Z) (fuel : nat) (h : heap) (live : list Z)
  (cs : list call) : option (heap * list Z) :=
  match cs with
  | [] => Some (h, live)
  | Malloc n :: cs' =>
      match mm_malloc WSIZE fuel h n with
      | None => None
      | Some (h', r) =>
          run_calls WSIZE fuel h' (if r =? NULL then live else r :: live) cs'
      end
  | Free p :: cs' =>
      if in_dec Z.eq_dec p live
      then run_calls WSIZE fuel (mm_free WSIZE h p)
             (remove Z.eq_dec p live) cs'
      else run_calls WSIZE fuel h live cs'
  end.

(** The requests [mm_malloc] is meant for: sizes whose rounding does not
    wrap around. *)
Definition call_ok (WSIZE : Z) (c : call) : Prop :=
  match c with
  | Malloc n => 0 <= n /\ n + 2 * DSIZE WSIZE - 1 < modulus WSIZE
  | Free _ => True
  end.

(** The heap of [tight_heap] after [malloc(64)]: the region is full, it
    cannot grow by a single byte. *)
Definition tight_block_heap : heap :=
  match mm_malloc 8 walk_fuel tight_heap 64 with
  | Some (h, _) => h
  | None => tight_heap
  end.

(** * Proofs *)

Ltac Zify.zify_post_hook ::= Z.div_mod_to_equations.

(** ** Words, masks and packing *)

Lemma upd_same m a v : upd m a v a = v.
Proof. unfold upd. now rewrite Z.eqb_refl. Qed.

Lemma upd_other m a v x : x <> a -> upd m a v x = m x.
Proof. unfold upd. intros H. now apply Z.eqb_neq in H as ->. Qed.

Lemma land_clear_low n k x :
  0 <= k <= n -> 0 <= x < 2 ^ n ->
  Z.land x ((Z.lnot (Z.ones k)) mod 2 ^ n) = x - x mod 2 ^ k.
Proof.
  intros Hk Hx.
  rewrite <- Z.land_ones by lia.
  rewrite Z.land_assoc, (Z.land_comm x), <- Z.land_assoc.
  rewrite (Z.land_ones x), (Z.mod_small x) by lia.
  rewrite Z.land_comm, <- Z.ldiff_land, Z.ldiff_ones_r by lia.
  rewrite Z.shiftr_div_pow2, Z.shiftl_mul_pow2 by lia.
  pose proof (Z.pow_pos_nonneg 2 k).
  pose proof (Z.div_mod x (2 ^ k)). lia.
Qed.

Lemma land_one x : Z.land x 1 = x mod 2.
Proof. change 1 with (Z.ones 1) at 1. now rewrite Z.land_ones by lia. Qed.

Lemma lor_one x : x mod 2 = 0 -> Z.lor x 1 = x + 1.
Proof.
  intros H. rewrite <- Z.lxor_lor, <- Z.add_nocarry_lxor; trivial;
    rewrite land_one; assumption.
Qed.

Section Words.

Variable WSIZE : Z.
Hypothesis Hword : word_size WSIZE.

Lemma size_mask x :
  0 <= x < modulus WSIZE ->
  Z.land x (wrap WSIZE (Z.lnot (DSIZE WSIZE - 1))) = x - x mod DSIZE WSIZE.
Proof.
  unfold wrap, modulus, DSIZE.
  destruct Hword as [E | E]; rewrite E; intros Hx.
  - change (2 * 4 - 1) with (Z.ones 3). change (2 * 4) with (2 ^ 3).
    apply land_clear_low; lia.
  - change (2 * 8 - 1) with (Z.ones 4). change (2 * 8) with (2 ^ 4).
    apply land_clear_low; lia.
Qed.

Lemma round_mask x :
  0 <= x < modulus WSIZE ->
  Z.land x (wrap WSIZE (Z.lnot 7)) = x - x mod 8.
Proof.
  unfold wrap, modulus.
  destruct Hword as [E | E]; rewrite E; intros Hx;
    change 7 with (Z.ones 3); change 8 with (2 ^ 3) at 2;
    apply land_clear_low; lia.
Qed.

Lemma PACK_val s a : s mod 2 = 0 -> bit a -> PACK s a = s + a.
Proof.
  unfold PACK. intros Hs [-> | ->].
  - now rewrite Z.lor_0_r, Z.add_0_r.
  - now apply lor_one.
Qed.

End Words.

(** ** The doubly linked free list *)

Section Lists.

Variable W : Z.
Hypothesis Hword : word_size W.

Ltac word_arith :=
  unfold aligned, block_size, bit, DSIZE, HDRP in *;
  destruct Hword as [E | E]; rewrite E in *; lia.


Lemma last_cons (a : Z) l p : last (a :: l) p = last l a.
Proof.
  revert a p. induction l as [| b l IH]; intros a p; [reflexivity |].
  change (last (a :: b :: l) p) with (last (b :: l) p).
  now rewrite (IH b p), (IH b a).
Qed.

Lemma dll_frame m m' l : forall p q,
  dll W m p l q ->
  (forall x, In x (p :: l) -> m' (x + W) = m (x + W)) ->
  (forall x, In x (l ++ [q]) -> m' x = m x) ->
  dll W m' p l q.
Proof.
  induction l as [| a l IH]; simpl; intros p q H Hn Hp;
    unfold next_of, prev_of, GET in *.
  - destruct H as [H1 H2]. rewrite Hn, Hp; auto.
  - destruct H as (H1 & H2 & H3). rewrite Hn, Hp by auto.
    repeat split; trivial. apply IH; trivial.
    + intros x Hx. apply Hn. now right.
    + intros x Hx. apply Hp. now right.
Qed.

Lemma dll_app m l1 : forall p x l2 q,
  dll W m p (l1 ++ x :: l2) q <-> dll W m p l1 x /\ dll W m x l2 q.
Proof.
  induction l1 as [| a l1 IH]; simpl; intros p x l2 q.
  - tauto.
  - rewrite IH. tauto.
Qed.

(** The first node after [p] and the last node before [q]. *)
Lemma dll_first m l p q :
  dll W m p l q -> next_of W m p = hd q l /\ prev_of m (hd q l) = p.
Proof. destruct l; simpl; tauto. Qed.

Lemma dll_last m l : forall p q,
  dll W m p l q -> prev_of m q = last l p /\ next_of W m (last l p) = q.
Proof.
  induction l as [| a l IH]; intros p q H.
  - simpl in *. tauto.
  - rewrite last_cons. destruct H as (_ & _ & H). now apply IH.
Qed.

Lemma last_in (l : list Z) p : In (last l p) (p :: l).
Proof.
  revert p. induction l as [| a l IH]; intros p; [now left |].
  rewrite last_cons. right. apply IH.
Qed.

Lemma hd_in (l : list Z) q : In (hd q l) (l ++ [q]).
Proof. destruct l; simpl; auto. Qed.

(** Splicing a node out: any memory that links the neighbours of [bp] to
    each other and keeps every other word holds the list without [bp]. *)
Lemma dll_unlink m m' bp l2 q l1 : forall p,
  dll W m p (l1 ++ bp :: l2) q ->
  NoDup (p :: l1 ++ bp :: l2) ->
  NoDup (l1 ++ bp :: l2 ++ [q]) ->
  (forall x, In x (p :: l1 ++ bp :: l2 ++ [q]) -> aligned W x) ->
  m' (last l1 p + W) = hd q l2 ->
  m' (hd q l2) = last l1 p ->
  (forall a, a <> hd q l2 -> a <> last l1 p + W -> m' a = m a) ->
  dll W m' p (l1 ++ l2) q.
Proof.
  induction l1 as [| a l1 IH]; intros p H ND1 ND2 Hal Hn Hp Hfr.
  - simpl in *. destruct H as (H1 & H2 & H3).
    assert (Ap : aligned W p) by auto.
    destruct l2 as [| n l2]; simpl in *.
    + split; assumption.
    + destruct H3 as (H3 & H4 & H5). repeat split; trivial.
      apply dll_frame with (m := m); trivial.
      * intros x Hx. assert (Ax : aligned W x).
        { apply Hal. simpl in Hx. simpl. rewrite in_app_iff. simpl. tauto. }
        assert (An : aligned W n) by (apply Hal; simpl; auto).
        apply Hfr; [word_arith |].
        apply NoDup_cons_iff in ND1 as [Hnp _]. simpl in Hnp, Hx.
        intros Heq. assert (x = p) by lia. subst x. tauto.
      * intros x Hx. assert (Ax : aligned W x).
        { apply Hal. simpl. tauto. }
        apply Hfr; [| word_arith].
        apply NoDup_cons_iff in ND2 as [_ ND3].
        apply NoDup_cons_iff in ND3 as [Hnn _].
        intros ->. tauto.
  - simpl in H. destruct H as (H1 & H2 & H3).
    rewrite last_cons in *.
    assert (Ap : aligned W p) by (apply Hal; simpl; auto).
    assert (Aa : aligned W a) by (apply Hal; simpl; auto).
    assert (Ahd : aligned W (hd q l2)).
    { apply Hal. right. right. rewrite in_app_iff. right. right. apply hd_in. }
    assert (Ala : aligned W (last l1 a)).
    { apply Hal. right. destruct (last_in l1 a) as [<- | Hi]; [now left |].
      right. rewrite in_app_iff. now left. }
    simpl. unfold next_of, prev_of, GET in *.
    simpl in ND1, ND2.
    apply NoDup_cons_iff in ND1 as [Hnp ND1'].
    apply NoDup_cons_iff in ND2 as [Hna ND2'].
    rewrite !Hfr.
    + repeat split; trivial. apply IH; trivial.
      intros x Hx. apply Hal. now right.
    + intros Heq. apply Hna. rewrite Heq.
      rewrite in_app_iff. right. right. apply hd_in.
    + word_arith.
    + word_arith.
    + intros Heq. assert (Hpl : p = last l1 a) by lia.
      apply Hnp. rewrite Hpl.
      destruct (last_in l1 a) as [<- | Hi]; [now left |].
      right. rewrite in_app_iff. now left.
Qed.


Lemma remove_split (l : list Z) x :
  NoDup l -> In x l ->
  exists l1 l2, l = l1 ++ x :: l2 /\ remove Z.eq_dec x l = l1 ++ l2.
Proof.
  intros ND Hin. apply in_split in Hin as (l1 & l2 & ->).
  exists l1, l2. split; [reflexivity |].
  apply NoDup_remove_2 in ND. rewrite in_app_iff in ND.
  rewrite remove_app. simpl. destruct (Z.eq_dec x x) as [_ | ?]; [| easy].
  rewrite !notin_remove; tauto.
Qed.

Lemma free_list_mid m flp l1 bp l2 :
  free_list W m flp (l1 ++ bp :: l2) ->
  let pr := last l1 flp in
  let n := hd flp l2 in
  prev_of m bp = pr /\ next_of W m bp = n /\
  In pr (flp :: l1) /\ In n (l2 ++ [flp]) /\
  bp <> flp /\ ~ In bp l1 /\ ~ In bp l2.
Proof.
  intros (Hd & ND & Hal) pr n.
  apply dll_app in Hd as [Hd1 Hd2].
  apply dll_last in Hd1 as [Hd1 _]. apply dll_first in Hd2 as [Hd2 _].
  apply NoDup_cons_iff in ND as [Hf ND].
  pose proof (NoDup_remove_2 _ _ _ ND) as Hn. rewrite in_app_iff in Hn, Hf.
  repeat split; trivial.
  - apply last_in.
  - apply hd_in.
  - intros ->. apply Hf. right. now left.
  - tauto.
  - tauto.
Qed.

(** [remove_free] on a listed node is the two stores that link its
    neighbours to each other. *)
Lemma remove_free_stores m flp l1 bp l2 :
  free_list W m flp (l1 ++ bp :: l2) ->
  remove_free W m bp =
  upd (upd m (hd flp l2) (last l1 flp)) (last l1 flp + W) (hd flp l2).
Proof.
  intros Hfl. pose proof Hfl as (Hd & ND & Hal).
  destruct (free_list_mid _ _ _ _ _ Hfl) as (Hp & Hn & Ipr & In_ & Hbf & Hb1 & Hb2).
  unfold remove_free, set_prev, set_next, PUT.
  rewrite Hn, Hp. unfold prev_of, next_of, GET in *.
  assert (Ab : aligned W bp).
  { apply Hal. right. rewrite in_app_iff. right. now left. }
  assert (An : aligned W (hd flp l2)).
  { apply Hal. rewrite in_app_iff in In_. simpl in In_.
    destruct In_ as [Hi | [<- | []]]; [right | now left].
    rewrite in_app_iff. right. now right. }
  rewrite !upd_other.
  - now rewrite Hn, Hp.
  - word_arith.
  - intros Heq. rewrite Heq in *. rewrite in_app_iff in In_. simpl in In_.
    destruct In_ as [Hi | [Hi | []]]; [tauto | congruence].
Qed.

Lemma free_list_remove m flp l bp :
  free_list W m flp l -> In bp l ->
  free_list W (remove_free W m bp) flp (remove Z.eq_dec bp l) /\
  (forall a, ~ link_word W (flp :: l) a -> remove_free W m bp a = m a).
Proof.
  intros Hfl Hin. pose proof Hfl as (Hd & ND & Hal).
  assert (NDl : NoDup l) by (now apply NoDup_cons_iff in ND).
  destruct (remove_split l bp NDl Hin) as (l1 & l2 & -> & ->).
  rewrite (remove_free_stores _ _ _ _ _ Hfl).
  destruct (free_list_mid _ _ _ _ _ Hfl) as (Hp & Hn & Ipr & In_ & Hbf & Hb1 & Hb2).
  assert (In_' : In (hd flp l2) (flp :: l1 ++ bp :: l2)).
  { rewrite in_app_iff in In_. simpl in In_.
    destruct In_ as [Hi | [<- | []]]; [right | now left].
    rewrite in_app_iff. right. now right. }
  assert (Ipr' : In (last l1 flp) (flp :: l1 ++ bp :: l2)).
  { destruct Ipr as [<- | Hi]; [now left | right].
    rewrite in_app_iff. now left. }
  assert (An := Hal _ In_'). assert (Apr := Hal _ Ipr').
  split; [split; [| split] |].
  - apply dll_unlink with (m := m) (bp := bp); trivial.
    + apply NoDup_cons_iff in ND as [Hf ND'].
      change (NoDup (l1 ++ (bp :: l2) ++ [flp])). rewrite app_assoc.
      apply NoDup_app; [assumption | |].
      * apply NoDup_cons; [intros [] | apply NoDup_nil].
      * intros x Hx [<- | []]. tauto.
    + intros x Hx. apply Hal. destruct Hx as [<- | Hx]; [now left |].
      change (In x (l1 ++ (bp :: l2) ++ [flp])) in Hx.
      rewrite app_assoc, in_app_iff in Hx. simpl in Hx.
      destruct Hx as [Hx | [<- | []]]; [now right | now left].
    + apply upd_same.
    + rewrite upd_other by word_arith. apply upd_same.
    + intros a Ha1 Ha2. now rewrite !upd_other.
  - apply NoDup_cons_iff in ND as [Hf ND'].
    apply NoDup_cons_iff. split.
    + rewrite in_app_iff in *. simpl in Hf. tauto.
    + now apply NoDup_remove_1 in ND'.
  - intros x Hx. apply Hal. simpl in *. rewrite in_app_iff in *. simpl. tauto.
  - intros a Ha. rewrite !upd_other; trivial.
    + intros ->. apply Ha. exists (hd flp l2). split; auto.
    + intros ->. apply Ha. exists (last l1 flp). split; auto.

Qed.

Lemma free_list_add m flp l bp :
  free_list W m flp l -> ~ In bp (flp :: l) -> aligned W bp ->
  free_list W (add_free W flp m bp) flp (bp :: l) /\
  (forall a, ~ link_word W (flp :: l) a -> a <> bp -> a <> bp + W ->
             add_free W flp m bp a = m a).
Proof.
  intros (Hd & ND & Hal) Hnin Ab.
  assert (Af : aligned W flp) by (apply Hal; now left).
  destruct (dll_first _ _ _ _ Hd) as [Hn Hp].
  unfold next_of, prev_of, GET in *.
  assert (Ih : In (hd flp l) (flp :: l)).
  { destruct l; simpl; auto. }
  assert (Ah := Hal _ Ih).
  assert (Hst : add_free W flp m bp =
    upd (upd (upd (upd m (hd flp l) bp) (bp + W) (hd flp l)) bp flp)
        (flp + W) bp).
  { unfold add_free, set_prev, set_next, PUT, next_of, GET.
    rewrite Hn. rewrite (upd_other _ _ _ (flp + W)) by word_arith.
    now rewrite Hn. }
  rewrite Hst. clear Hst.
  assert (Hbf : bp <> flp) by (intros ->; apply Hnin; now left).
  split; [split; [| split] |].
  - simpl. unfold next_of, prev_of, GET.
    rewrite upd_same. rewrite (upd_other _ _ _ bp) by word_arith.
    rewrite upd_same. repeat split; trivial.
    destruct l as [| n l]; simpl in *.
    + unfold next_of, prev_of, GET. split.
      * rewrite upd_other by word_arith. rewrite upd_other by word_arith.
        apply upd_same.
      * rewrite upd_other by word_arith. rewrite upd_other by word_arith.
        rewrite upd_other by word_arith. apply upd_same.
    + unfold next_of, prev_of, GET in *.
      destruct Hd as (_ & _ & Hd).
      assert (Hbn : n <> bp) by tauto.
      repeat split.
      * rewrite upd_other by word_arith. rewrite upd_other by word_arith.
        apply upd_same.
      * rewrite upd_other by word_arith. rewrite upd_other by word_arith.
        rewrite upd_other by word_arith. apply upd_same.
      * apply dll_frame with (m := m); trivial.
        -- intros x Hx. assert (Ax : aligned W x).
           { apply Hal. now right. }
           assert (x <> flp).
           { apply NoDup_cons_iff in ND as [Hf _]. intros ->. tauto. }
           assert (x <> bp) by (intros ->; tauto).
           rewrite !upd_other; trivial; word_arith.
        -- intros x Hx. assert (Ax : aligned W x).
           { apply Hal. rewrite in_app_iff in Hx. simpl in Hx.
             destruct Hx as [Hx | [<- | []]]; [right; now right | now left]. }
           assert (x <> n).
           { apply NoDup_cons_iff in ND as [Hf ND].
             apply NoDup_cons_iff in ND as [Hf' _].
             rewrite in_app_iff in Hx. simpl in Hx, Hf.
             intros ->. intuition congruence. }
           assert (x <> bp).
           { rewrite in_app_iff in Hx. simpl in Hx. intros ->.
             intuition congruence. }
           rewrite !upd_other; trivial; word_arith.
  - simpl in Hnin. apply NoDup_cons_iff in ND as [Hf ND].
    repeat (apply NoDup_cons_iff; split); simpl; tauto.
  - intros x [<- | [<- | Hx]]; trivial; apply Hal; simpl; auto.
  - intros a Ha Ha1 Ha2. rewrite !upd_other; trivial.
    + intros ->. apply Ha. exists (hd flp l). split; auto.
    + intros ->. apply Ha. exists flp. split; [now left | now right].
Qed.

(** A store outside the link words of the listed nodes keeps the list. *)
Lemma free_list_put m flp l a v :
  free_list W m flp l -> ~ link_word W (flp :: l) a ->
  free_list W (PUT m a v) flp l.
Proof.
  intros (Hd & ND & Hal) Ha. split; [| split]; trivial.
  apply dll_frame with (m := m); trivial.
  - intros x Hx. unfold PUT. apply upd_other. intros <-.
    apply Ha. exists x. auto.
  - intros x Hx. unfold PUT. apply upd_other. intros <-.
    apply Ha. exists x. split; [| now left].
    rewrite in_app_iff in Hx. simpl in *. tauto.
Qed.

End Lists.

(** ** Headers and footers *)

Section Blocks.

Variable W : Z.
Hypothesis Hword : word_size W.

Ltac word_arith :=
  unfold aligned, block_size, bit, DSIZE, HDRP, modulus in *;
  destruct Hword as [E | E]; rewrite E in *; lia.

Ltac side :=
  first [ apply upd_same | assumption | now left | now right
        | word_arith ].

Lemma wrap_small x : 0 <= x < modulus W -> wrap W x = x.
Proof. intros H. unfold wrap. now apply Z.mod_small. Qed.

Lemma GET_SIZE_PACK m p s a :
  m p = PACK s a -> 0 <= s -> s mod DSIZE W = 0 -> s + 1 < modulus W ->
  bit a -> GET_SIZE W m p = s.
Proof.
  intros Hm Hs Hd Hlt Ha. unfold GET_SIZE, GET.
  rewrite Hm, PACK_val by (trivial; word_arith).
  rewrite (size_mask W Hword) by word_arith. word_arith.
Qed.

Lemma GET_ALLOC_PACK m p s a :
  m p = PACK s a -> s mod DSIZE W = 0 -> bit a -> GET_ALLOC m p = a.
Proof.
  intros Hm Hd Ha. unfold GET_ALLOC, GET.
  rewrite Hm, PACK_val, land_one by (trivial; word_arith). word_arith.
Qed.

Lemma link_word_incl L1 L2 a :
  (forall x, In x L1 -> In x L2) -> link_word W L1 a -> link_word W L2 a.
Proof. intros H (x & Hx & Ha). exists x. auto. Qed.

(** The link words of a list without [b] are link words of the list,
    and none of them is a link word of [b]. *)
Lemma link_word_remove flp b l a :
  b <> flp -> aligned W b ->
  (forall x, In x (flp :: l) -> aligned W x) ->
  link_word W (flp :: remove Z.eq_dec b l) a ->
  link_word W (flp :: l) a /\ a <> b /\ a <> b + W.
Proof.
  intros Hne Ab Hal (x & Hx & Ha).
  assert (Hx' : In x (flp :: l)).
  { destruct Hx as [<- | Hx]; [now left | right]. now apply in_remove in Hx. }
  assert (Hxb : x <> b).
  { destruct Hx as [<- | Hx]; [congruence |]. now apply in_remove in Hx. }
  specialize (Hal x Hx').
  split; [exists x; auto |]. word_arith.
Qed.

Lemma remove_incl (flp b : Z) l x :
  In x (flp :: remove Z.eq_dec b l) -> In x (flp :: l).
Proof.
  intros [<- | Hx]; [now left | right]. now apply in_remove in Hx.
Qed.

Lemma node_link_word L (x : Z) : In x L -> link_word W L x.
Proof. intros Hx. exists x. auto. Qed.

Lemma place_spec m flp l bp csize asize :
  free_list W m flp l -> In bp l ->
  m (HDRP W bp) = PACK csize 0 ->
  block_size W csize -> block_size W asize ->
  asize <= csize -> csize + 1 < modulus W ->
  (forall a, bp - W <= a < bp + csize - W ->
             link_word W (flp :: l) a -> a = bp \/ a = bp + W) ->
  let m' := place W flp m bp asize in
  (3 * DSIZE W <= csize - asize ->
     block_at W m' bp asize 1 /\
     block_at W m' (bp + asize) (csize - asize) 0 /\
     free_list W m' flp ((bp + asize) :: remove Z.eq_dec bp l) /\
     (forall a, ~ (bp - W <= a < bp + csize - W) ->
                ~ link_word W (flp :: l) a -> m' a = m a)) /\
  (csize - asize < 3 * DSIZE W ->
     block_at W m' bp csize 1 /\
     free_list W m' flp (remove Z.eq_dec bp l) /\
     (forall a, a <> HDRP W bp -> a <> bp + csize - DSIZE W ->
                ~ link_word W (flp :: l) a -> m' a = m a)).
Proof.
  intros Hfl Hin Hhd Hcs Has Hle Hlt Hcl m'.
  pose proof Hfl as (Hd & ND & Hal).
  assert (Hbf : bp <> flp).
  { apply NoDup_cons_iff in ND as [Hf _]. intros ->. tauto. }
  assert (Ab : aligned W bp) by (apply Hal; now right).
  assert (Hsz : GET_SIZE W m (HDRP W bp) = csize).
  { apply GET_SIZE_PACK with (a := 0); side. }
  assert (LA : forall a, bp - W <= a < bp + csize - W -> a <> bp ->
                         a <> bp + W -> ~ link_word W (flp :: l) a).
  { intros a Ha H1 H2 Hl. destruct (Hcl a Ha Hl); congruence. }
  assert (LB : forall a, bp - W <= a < bp + csize - W ->
                         ~ link_word W (flp :: remove Z.eq_dec bp l) a).
  { intros a Ha Hl.
    apply link_word_remove in Hl as (Hl & H1 & H2); trivial.
    now apply (LA a). }
  assert (Hw : wrap W (csize - asize) = csize - asize).
  { apply wrap_small. word_arith. }
  subst m'. unfold place. rewrite Hsz, Hw.
  split; intros Hsplit.
  - (* split *)
    assert (Hc : (csize - asize >=? 3 * DSIZE W) = true).
    { apply Z.geb_le. lia. }
    rewrite Hc. clear Hc.
    set (m1 := PUT m (HDRP W bp) (PACK asize 1)).
    assert (F1 : FTRP W m1 bp = bp + asize - DSIZE W).
    { unfold FTRP. now rewrite GET_SIZE_PACK with (s := asize) (a := 1) by side. }
    rewrite F1. set (m2 := PUT m1 (bp + asize - DSIZE W) (PACK asize 1)).
    assert (Hfl2 : free_list W m2 flp l).
    { apply free_list_put; [apply free_list_put |]; trivial;
        apply LA; word_arith. }
    destruct (free_list_remove W Hword _ _ _ _ Hfl2 Hin) as [Hfl3 Hfr3].
    set (m3 := remove_free W m2 bp) in *.
    assert (H3h : m3 (HDRP W bp) = PACK asize 1).
    { rewrite Hfr3 by (apply LA; word_arith). unfold m2, m1, PUT.
      rewrite upd_other by word_arith. apply upd_same. }
    assert (N3 : NEXT_BLKP W m3 bp = bp + asize).
    { unfold NEXT_BLKP.
      now rewrite GET_SIZE_PACK with (s := asize) (a := 1) by side. }
    rewrite N3.
    set (r := csize - asize) in *.
    set (m4 := PUT m3 (HDRP W (bp + asize)) (PACK r 0)).
    assert (F4 : FTRP W m4 (bp + asize) = bp + csize - DSIZE W).
    { unfold FTRP.
      rewrite GET_SIZE_PACK with (s := r) (a := 0);
        first [ apply upd_same | now left | unfold r in *; word_arith ]. }
    rewrite F4. set (m5 := PUT m4 (bp + csize - DSIZE W) (PACK r 0)).
    assert (Hfl5 : free_list W m5 flp (remove Z.eq_dec bp l)).
    { apply free_list_put; [apply free_list_put |]; trivial;
        apply LB; unfold r in *; word_arith. }
    assert (Hnin : ~ In (bp + asize) (flp :: remove Z.eq_dec bp l)).
    { intros Hx. apply (LB (bp + asize)); [unfold r in *; word_arith |].
      now apply node_link_word. }
    assert (Aba : aligned W (bp + asize)) by word_arith.
    destruct (free_list_add W Hword _ _ _ _ Hfl5 Hnin Aba) as [Hfl6 Hfr6].
    set (m6 := add_free W flp m5 (bp + asize)) in *.
    assert (V : forall a, bp - W <= a < bp + csize - W ->
                  a <> bp + asize -> a <> bp + asize + W -> m6 a = m5 a).
    { intros a Ha H1 H2. apply Hfr6; trivial. now apply LB. }
    split; [| split; [| split]]; trivial.
    + split.
      * rewrite V by (unfold r in *; word_arith). unfold m5, m4, PUT.
        rewrite !upd_other by (unfold r in *; word_arith). exact H3h.
      * rewrite V by (unfold r in *; word_arith). unfold m5, m4, PUT.
        rewrite !upd_other by (unfold r in *; word_arith).
        rewrite Hfr3 by (apply LA; word_arith). unfold m2, PUT.
        apply upd_same.
    + split.
      * rewrite V by (unfold r in *; word_arith). unfold m5, m4, PUT.
        rewrite upd_other by (unfold r in *; word_arith). apply upd_same.
      * replace (bp + asize + r - DSIZE W) with (bp + csize - DSIZE W)
          by (unfold r; lia).
        rewrite V by (unfold r in *; word_arith). unfold m5, PUT.
        apply upd_same.
    + intros a Ha Hl.
      rewrite Hfr6; [| | word_arith | word_arith].
      * unfold m5, m4, PUT.
        rewrite !upd_other by (unfold r in *; word_arith).
        rewrite Hfr3 by trivial. unfold m2, m1, PUT.
        now rewrite !upd_other by (unfold r in *; word_arith).
      * intros Hl'. apply Hl. revert Hl'. apply link_word_incl.
        intros x. apply remove_incl.
  - (* no split *)
    assert (Hc : (csize - asize >=? 3 * DSIZE W) = false).
    { rewrite Z.geb_leb. apply Z.leb_gt. lia. }
    rewrite Hc. clear Hc.
    set (m1 := PUT m (HDRP W bp) (PACK csize 1)).
    assert (F1 : FTRP W m1 bp = bp + csize - DSIZE W).
    { unfold FTRP. now rewrite GET_SIZE_PACK with (s := csize) (a := 1) by side. }
    rewrite F1. set (m2 := PUT m1 (bp + csize - DSIZE W) (PACK csize 1)).
    assert (Hfl2 : free_list W m2 flp l).
    { apply free_list_put; [apply free_list_put |]; trivial;
        apply LA; word_arith. }
    destruct (free_list_remove W Hword _ _ _ _ Hfl2 Hin) as [Hfl3 Hfr3].
    set (m3 := remove_free W m2 bp) in *.
    split; [| split]; trivial.
    + split.
      * rewrite Hfr3 by (apply LA; word_arith). unfold m2, m1, PUT.
        rewrite upd_other by word_arith. apply upd_same.
      * rewrite Hfr3 by (apply LA; word_arith). unfold m2, PUT.
        apply upd_same.
    + intros a H1 H2 Hl. rewrite Hfr3 by trivial. unfold m2, m1, PUT.
      now rewrite !upd_other.
Qed.


(** Threading a free block whose boundary tags are in place onto the
    list. *)
Lemma insert_block mk flp L r sz :
  free_list W mk flp L -> aligned W r -> block_size W sz ->
  block_at W mk r sz 0 ->
  (forall a, r - W <= a < r + sz - W -> ~ link_word W (flp :: L) a) ->
  let m' := add_free W flp mk r in
  block_at W m' r sz 0 /\ free_list W m' flp (r :: L) /\
  (forall a, ~ (r - W <= a < r + sz - W) -> ~ link_word W (flp :: L) a ->
             m' a = mk a).
Proof.
  intros Hfl Ar Hsz [Hh Hf] Hcl m'.
  assert (Hnin : ~ In r (flp :: L)).
  { intros Hx. apply (Hcl r); [word_arith | now apply node_link_word]. }
  destruct (free_list_add W Hword _ _ _ _ Hfl Hnin Ar) as [Hfl' Hfr'].
  subst m'.
  split; [split | split]; trivial.
  - rewrite Hfr'; trivial; try word_arith. apply Hcl. word_arith.
  - rewrite Hfr'; trivial; try word_arith. apply Hcl. word_arith.
  - intros a Ha Hl. apply Hfr'; trivial; word_arith.
Qed.

(** Writing the boundary tags of the merged block, then threading it. *)
Lemma finish_merge mk flp L r sz :
  free_list W mk flp L -> aligned W r -> block_size W sz ->
  sz + 1 < modulus W ->
  (forall a, r - W <= a < r + sz - W -> ~ link_word W (flp :: L) a) ->
  let m1 := PUT mk (HDRP W r) (PACK sz 0) in
  let m2 := PUT m1 (FTRP W m1 r) (PACK sz 0) in
  let m' := add_free W flp m2 r in
  block_at W m' r sz 0 /\ free_list W m' flp (r :: L) /\
  (forall a, ~ (r - W <= a < r + sz - W) -> ~ link_word W (flp :: L) a ->
             m' a = mk a).
Proof.
  intros Hfl Ar Hsz Hlt Hcl m1 m2 m'.
  assert (F1 : FTRP W m1 r = r + sz - DSIZE W).
  { unfold FTRP. now rewrite GET_SIZE_PACK with (s := sz) (a := 0) by side. }
  subst m' m2. rewrite F1. clear F1.
  set (m2' := PUT m1 (r + sz - DSIZE W) (PACK sz 0)) in *.
  assert (Hfl2 : free_list W m2' flp L).
  { apply free_list_put; [apply free_list_put |]; trivial;
      apply Hcl; word_arith. }
  assert (Hb : block_at W m2' r sz 0).
  { split; unfold m2', m1, PUT.
    - rewrite upd_other by word_arith. apply upd_same.
    - apply upd_same. }
  destruct (insert_block _ _ _ _ _ Hfl2 Ar Hsz Hb Hcl) as (B & F & Fr).
  split; [| split]; trivial.
  intros a Ha Hl. rewrite Fr by trivial. unfold m2', m1, PUT.
  rewrite !upd_other; trivial; word_arith.
Qed.

Lemma coalesce_spec m flp l bp size psize pa nsize na :
  free_list W m flp l ->
  aligned W bp -> block_size W size -> block_at W m bp size 0 ->
  (* the physical previous block *)
  block_size W psize -> bit pa ->
  m (bp - DSIZE W) = PACK psize pa ->
  m (HDRP W (bp - psize)) = PACK psize pa ->
  (pa = 0 -> In (bp - psize) l) ->
  (* the physical next block; the epilogue has size 0 *)
  nsize mod DSIZE W = 0 -> 0 <= nsize -> bit na ->
  m (HDRP W (bp + size)) = PACK nsize na ->
  (na = 0 -> block_size W nsize /\
             m (bp + size + nsize - DSIZE W) = PACK nsize 0 /\
             In (bp + size) l) ->
  (* every address fits a machine word *)
  0 <= bp - psize -> bp + size + nsize + 1 < modulus W ->
  (* the merged extent holds no link word but those of the neighbours *)
  let lo := if pa =? 0 then bp - psize - W else bp - W in
  let hi := if na =? 0 then bp + size + nsize - W else bp + size - W in
  (forall a, lo <= a < hi -> link_word W (flp :: l) a ->
     (pa = 0 /\ (a = bp - psize \/ a = bp - psize + W)) \/
     (na = 0 /\ (a = bp + size \/ a = bp + size + W))) ->
  let l1 := if pa =? 0 then remove Z.eq_dec (bp - psize) l else l in
  let l2 := if na =? 0 then remove Z.eq_dec (bp + size) l1 else l1 in
  let m' := fst (coalesce W flp m bp) in
  let r := snd (coalesce W flp m bp) in
  r = lo + W /\
  block_at W m' r (hi - lo) 0 /\
  free_list W m' flp (r :: l2) /\
  (forall a, ~ (lo <= a < hi) -> ~ link_word W (flp :: l) a -> m' a = m a).
Proof.
  intros Hfl Ab Hsz [Hh Hf] Hps Hpa Hpf Hph Hpin Hnm Hn0 Hna Hnh Hnx
         Hlo Hhi lo hi Hsep l1 l2 m' r.
  pose proof Hfl as (Hd & ND & Hal).
  assert (Hflp : ~ In flp l) by (now apply NoDup_cons_iff in ND).
  assert (S0 : GET_SIZE W m (HDRP W bp) = size).
  { now rewrite GET_SIZE_PACK with (s := size) (a := 0) by side. }
  assert (N0 : NEXT_BLKP W m bp = bp + size).
  { unfold NEXT_BLKP. fold (HDRP W bp). now rewrite S0. }
  assert (P0 : PREV_BLKP W m bp = bp - psize).
  { unfold PREV_BLKP.
    now rewrite GET_SIZE_PACK with (s := psize) (a := pa) by side. }
  assert (PS : GET_SIZE W m (HDRP W (bp - psize)) = psize).
  { now rewrite GET_SIZE_PACK with (s := psize) (a := pa) by side. }
  assert (NS : GET_SIZE W m (HDRP W (bp + size)) = nsize).
  { now rewrite GET_SIZE_PACK with (s := nsize) (a := na) by side. }
  assert (NA : GET_ALLOC m (HDRP W (bp + size)) = na).
  { now rewrite GET_ALLOC_PACK with (s := nsize) (a := na) by side. }
  assert (PA : GET_ALLOC m (FTRP W m (bp - psize)) = pa).
  { unfold FTRP. rewrite PS.
    replace (bp - psize + psize - DSIZE W) with (bp - DSIZE W) by lia.
    now rewrite GET_ALLOC_PACK with (s := psize) (a := pa) by side. }
  subst m' r. unfold coalesce. rewrite N0, P0, S0, NA, PA, PS, NS.
  destruct Hpa as [-> | ->], Hna as [-> | ->]; cbn [Z.eqb negb andb fst snd];
    subst lo hi l1 l2; cbn [Z.eqb] in *.
  - (* Case 4: both neighbours free *)
    destruct (Hnx eq_refl) as (Hns & Hnf & Hnin).
    specialize (Hpin eq_refl).
    set (p := bp - psize) in *. set (n := bp + size) in *.
    assert (Ap : aligned W p) by (unfold p; word_arith).
    assert (An : aligned W n) by (unfold n; word_arith).
    assert (Hpf' : p <> flp) by (intros Heq; rewrite Heq in *; tauto).
    assert (Hnf' : n <> flp) by (intros Heq; rewrite Heq in *; tauto).
    assert (FN : GET_SIZE W m (FTRP W m n) = nsize).
    { unfold FTRP. rewrite NS.
      apply GET_SIZE_PACK with (a := 0); side. }
    rewrite FN.
    assert (LA : forall a, p - W <= a < n + nsize - W ->
              a <> p -> a <> p + W -> a <> n -> a <> n + W ->
              ~ link_word W (flp :: l) a).
    { intros a Ha H1 H2 H3 H4 Hl.
      destruct (Hsep a) as [[_ [? | ?]] | [_ [? | ?]]]; trivial; try lia;
        unfold p, n in *; lia. }
    destruct (free_list_remove W Hword _ _ _ _ Hfl Hpin) as [Hfl1 Hfr1].
    set (m1 := remove_free W m p) in *.
    assert (N1 : NEXT_BLKP W m1 bp = n).
    { assert (Hv : m1 (HDRP W bp) = PACK size 0).
      { rewrite Hfr1; trivial. apply LA; unfold p, n; word_arith. }
      unfold NEXT_BLKP. fold (HDRP W bp).
      now rewrite GET_SIZE_PACK with (s := size) (a := 0) by side. }
    rewrite N1.
    assert (Hnin1 : In n (remove Z.eq_dec p l)).
    { apply in_in_remove; trivial. unfold p, n. word_arith. }
    assert (Hal1 : forall x, In x (flp :: remove Z.eq_dec p l) -> aligned W x).
    { intros x Hx. apply Hal. revert Hx. apply remove_incl. }
    destruct (free_list_remove W Hword _ _ _ _ Hfl1 Hnin1) as [Hfl2 Hfr2].
    set (m2 := remove_free W m1 n) in *.
    assert (LB : forall a, p - W <= a < n + nsize - W ->
              ~ link_word W
                  (flp :: remove Z.eq_dec n (remove Z.eq_dec p l)) a).
    { intros a Ha Hl.
      apply link_word_remove in Hl as (Hl & H1 & H2); trivial.
      apply link_word_remove in Hl as (Hl & H3 & H4); trivial.
      now apply (LA a). }
    assert (I21 : forall a,
              ~ link_word W (flp :: l) a ->
              ~ link_word W (flp :: remove Z.eq_dec p l) a).
    { intros a Hl Hl'. apply Hl. revert Hl'. apply link_word_incl.
      intros x. apply remove_incl. }
    assert (P2 : PREV_BLKP W m2 bp = p).
    { assert (Hv : m2 (bp - DSIZE W) = PACK psize 0).
      { rewrite Hfr2, Hfr1; trivial.
        - apply LA; unfold p, n; word_arith.
        - apply I21. apply LA; unfold p, n; word_arith. }
      unfold PREV_BLKP.
      now rewrite GET_SIZE_PACK with (s := psize) (a := 0) by side. }
    rewrite P2.
    assert (Hw : wrap W (size + wrap W (psize + nsize)) =
                 n + nsize - W - (p - W)).
    { rewrite (wrap_small (psize + nsize)) by (unfold n, p in *; word_arith).
      rewrite wrap_small; unfold n, p in *; word_arith. }
    rewrite Hw.
    destruct (finish_merge m2 flp _ p (n + nsize - W - (p - W)) Hfl2 Ap)
      as (B & F & Fr).
    + unfold n, p in *; word_arith.
    + unfold n, p in *; word_arith.
    + intros a Ha. apply LB. lia.
    + split; [lia |]. split; [exact B |]. split; [exact F |].
      intros a Ha Hl. rewrite Fr, Hfr2, Hfr1; trivial.
      * now apply I21.
      * lia.
      * intros Hl'. apply Hl. revert Hl'. apply link_word_incl.
        intros x Hx. apply remove_incl in Hx. revert Hx. apply remove_incl.
  - (* Case 3: only the previous block is free *)
    specialize (Hpin eq_refl).
    set (p := bp - psize) in *.
    assert (Ap : aligned W p) by (unfold p; word_arith).
    assert (Hpf' : p <> flp) by (intros Heq; rewrite Heq in *; tauto).
    assert (LA : forall a, p - W <= a < bp + size - W ->
              a <> p -> a <> p + W -> ~ link_word W (flp :: l) a).
    { intros a Ha H1 H2 Hl.
      destruct (Hsep a) as [[_ [? | ?]] | [? _]]; trivial; lia. }
    destruct (free_list_remove W Hword _ _ _ _ Hfl Hpin) as [Hfl1 Hfr1].
    set (m1 := remove_free W m p) in *.
    assert (LB : forall a, p - W <= a < bp + size - W ->
              ~ link_word W (flp :: remove Z.eq_dec p l) a).
    { intros a Ha Hl.
      apply link_word_remove in Hl as (Hl & H1 & H2); trivial.
      now apply (LA a). }
    assert (Hw : wrap W (size + psize) = bp + size - W - (p - W)).
    { rewrite wrap_small; unfold p in *; word_arith. }
    rewrite Hw.
    destruct (finish_merge m1 flp _ p (bp + size - W - (p - W)) Hfl1 Ap)
      as (B & F & Fr).
    + unfold p in *; word_arith.
    + unfold p in *; word_arith.
    + intros a Ha. apply LB. lia.
    + split; [lia |]. split; [exact B |]. split; [exact F |].
      intros a Ha Hl. rewrite Fr, Hfr1; trivial.
      * lia.
      * intros Hl'. apply Hl. revert Hl'. apply link_word_incl.
        intros x. apply remove_incl.
  - (* Case 2: only the next block is free *)
    destruct (Hnx eq_refl) as (Hns & Hnf & Hnin).
    set (n := bp + size) in *.
    assert (An : aligned W n) by (unfold n; word_arith).
    assert (Hnf' : n <> flp) by (intros Heq; rewrite Heq in *; tauto).
    assert (LA : forall a, bp - W <= a < n + nsize - W ->
              a <> n -> a <> n + W -> ~ link_word W (flp :: l) a).
    { intros a Ha H1 H2 Hl.
      destruct (Hsep a) as [[? _] | [_ [? | ?]]]; trivial; lia. }
    destruct (free_list_remove W Hword _ _ _ _ Hfl Hnin) as [Hfl1 Hfr1].
    set (m1 := remove_free W m n) in *.
    assert (LB : forall a, bp - W <= a < n + nsize - W ->
              ~ link_word W (flp :: remove Z.eq_dec n l) a).
    { intros a Ha Hl.
      apply link_word_remove in Hl as (Hl & H1 & H2); trivial.
      now apply (LA a). }
    assert (Hw : wrap W (size + nsize) = n + nsize - W - (bp - W)).
    { rewrite wrap_small; unfold n in *; word_arith. }
    rewrite Hw.
    destruct (finish_merge m1 flp _ bp (n + nsize - W - (bp - W)) Hfl1 Ab)
      as (B & F & Fr).
    + unfold n in *; word_arith.
    + unfold n in *; word_arith.
    + intros a Ha. apply LB. lia.
    + split; [lia |]. split; [exact B |]. split; [exact F |].
      intros a Ha Hl. rewrite Fr, Hfr1; trivial.
      * lia.
      * intros Hl'. apply Hl. revert Hl'. apply link_word_incl.
        intros x. apply remove_incl.
  - (* Case 1: both neighbours allocated *)
    assert (LA : forall a, bp - W <= a < bp + size - W ->
              ~ link_word W (flp :: l) a).
    { intros a Ha Hl. destruct (Hsep a) as [[? _] | [? _]]; trivial; lia. }
    destruct (insert_block m flp l bp (bp + size - W - (bp - W)) Hfl Ab)
      as (B & F & Fr).
    + word_arith.
    + replace (bp + size - W - (bp - W)) with size by lia. now split.
    + intros a Ha. apply LA. lia.
    + split; [lia |]. split; [exact B |]. split; [exact F |].
      intros a Ha Hl. apply Fr; trivial. lia.
Qed.

End Blocks.

(** ** The layout of the blocks *)

Lemma total_app bl1 bl2 : total (bl1 ++ bl2) = total bl1 + total bl2.
Proof.
  induction bl1 as [| [sz a] bl1 IH]; simpl; [reflexivity |].
  unfold total in *. simpl. rewrite IH. lia.
Qed.

Lemma layout_app bl1 : forall p bl2,
  layout p (bl1 ++ bl2) = layout p bl1 ++ layout (p + total bl1) bl2.
Proof.
  induction bl1 as [| [sz a] bl1 IH]; intros p bl2; simpl.
  - now rewrite Z.add_0_r.
  - rewrite IH. unfold total. simpl. now rewrite Z.add_assoc.
Qed.

Lemma layout_bounds bl : forall p x sz a,
  Forall (fun b => 0 < snd (fst b)) (layout p bl) ->
  In (x, sz, a) (layout p bl) ->
  p <= x /\ x + sz <= p + total bl.
Proof.
  induction bl as [| [s c] bl IH]; intros p x sz a Hpos Hin; [easy |].
  simpl in *. apply Forall_cons_iff in Hpos as [Hs Hpos]. simpl in Hs.
  assert (Ht : 0 <= total bl).
  { clear -Hpos. revert Hpos. generalize (p + s).
    induction bl as [| [s' c'] bl IH]; intros q Hpos; [easy |].
    simpl in Hpos. apply Forall_cons_iff in Hpos as [Hs Hpos].
    apply IH in Hpos. unfold total in *. simpl in *. lia. }
  unfold total in *. simpl.
  destruct Hin as [Heq | Hin].
  - inversion Heq; subst. lia.
  - apply IH in Hin; trivial. lia.
Qed.

Lemma layout_disjoint bl : forall p x1 s1 a1 x2 s2 a2,
  Forall (fun b => 0 < snd (fst b)) (layout p bl) ->
  In (x1, s1, a1) (layout p bl) -> In (x2, s2, a2) (layout p bl) ->
  (x1, s1, a1) = (x2, s2, a2) \/ x1 + s1 <= x2 \/ x2 + s2 <= x1.
Proof.
  induction bl as [| [s c] bl IH]; intros p x1 s1 a1 x2 s2 a2 Hpos H1 H2;
    [easy |].
  simpl in *. apply Forall_cons_iff in Hpos as [Hs Hpos]. simpl in Hs.
  destruct H1 as [E1 | H1], H2 as [E2 | H2].
  - left. congruence.
  - inversion E1; subst. apply layout_bounds in H2; trivial. lia.
  - inversion E2; subst. apply layout_bounds in H1; trivial. lia.
  - eapply IH; eassumption.
Qed.

(** ** Consequences of the heap invariant *)

Section Heap.

Variable W : Z.
Hypothesis Hword : word_size W.

Ltac word_arith :=
  unfold aligned, block_size, bit, DSIZE, HDRP, modulus in *;
  destruct Hword as [E | E]; rewrite E in *; lia.

Ltac side :=
  first [ apply upd_same | assumption | now left | now right
        | word_arith ].

Lemma tagged_positive m L :
  Forall (tagged W m) L -> Forall (fun b => 0 < snd (fst b)) L.
Proof.
  apply Forall_impl. intros [[x sz] a] (Hs & _). simpl. word_arith.
Qed.

Lemma heap_ok_block h bl l x sz :
  heap_ok W h bl l ->
  In (x, sz, 0) (layout (free_listp h + 4 * W) bl) ->
  In x l /\ block_size W sz /\ block_at W (mem h) x sz 0 /\
  free_listp h + 4 * W <= x /\ x + sz <= mem_brk h /\
  (forall a, x - W <= a < x + sz - W ->
             link_word W (free_listp h :: l) a -> a = x \/ a = x + W).
Proof.
  intros (Af & Hf4 & Hs & Ht & Hb & He & Hbm & Hmx & Hfl & Hiff) Hx.
  pose proof (tagged_positive _ _ Ht) as Hpos.
  pose proof (proj1 (Forall_forall _ _) Ht _ Hx) as (Hsx & _ & Hbx).
  destruct (layout_bounds _ _ _ _ _ Hpos Hx) as [Hlo Hhi].
  repeat split; trivial; try lia; try apply Hbx.
  - apply Hiff. now exists sz.
  - apply Hsx.
  - apply Hsx.
  - intros a Ha (y & Hy & Hay).
    destruct Hy as [<- | Hy]; [word_arith |].
    destruct (proj1 (Hiff y) Hy) as (sy & Hyl).
    pose proof (proj1 (Forall_forall _ _) Ht _ Hyl) as (Hsy & _).
    destruct (layout_disjoint _ _ _ _ _ _ _ _ Hpos Hx Hyl) as [Heq | Hd].
    + inversion Heq; subst. lia.
    + word_arith.
Qed.

Lemma heap_ok_free_block h bl l x :
  heap_ok W h bl l -> In x l ->
  exists sz,
    block_size W sz /\ block_at W (mem h) x sz 0 /\
    free_listp h + 4 * W <= x /\ x + sz <= mem_brk h /\
    (forall a, x - W <= a < x + sz - W ->
               link_word W (free_listp h :: l) a -> a = x \/ a = x + W).
Proof.
  intros Hok Hin.
  destruct (proj1 (proj2 (proj2 (proj2 (proj2 (proj2 (proj2 (proj2 (proj2
              (proj2 Hok)))))))) x) Hin) as (sz & Hx).
  exists sz. now apply (heap_ok_block h bl l x sz Hok) in Hx.
Qed.

Lemma heap_ok_links_low h bl l a :
  heap_ok W h bl l -> link_word W (free_listp h :: l) a ->
  free_listp h <= a /\ a + 3 * W <= mem_brk h.
Proof.
  intros Hok (y & Hy & Hay).
  destruct Hy as [<- | Hy].
  - destruct Hok as (Af & Hf4 & Hs & Ht & Hb & _).
    assert (0 <= total bl).
    { pose proof (tagged_positive _ _ Ht) as Hpos. clear -Hpos.
      revert Hpos. generalize (free_listp h + 4 * W).
      induction bl as [| [s' c'] bl IH]; intros q Hpos; [easy |].
      simpl in Hpos. apply Forall_cons_iff in Hpos as [Hs Hpos].
      apply IH in Hpos. unfold total in *. simpl in *. lia. }
    word_arith.
  - destruct (heap_ok_free_block _ _ _ _ Hok Hy) as (sz & Hsz & _ & H1 & H2 & _).
    word_arith.
Qed.

(** The block that ends at the break: the last block of the layout, or
    the sentinel block when there is none. *)
Lemma heap_ok_last h bl l :
  heap_ok W h bl l ->
  exists psize pa,
    ((bl = [] /\ psize = 4 * W /\ pa = 1) \/
     (exists bl0, bl = bl0 ++ [(psize, pa)])) /\
    block_size W psize /\ bit pa /\
    mem h (mem_brk h - DSIZE W) = PACK psize pa /\
    mem h (HDRP W (mem_brk h - psize)) = PACK psize pa /\
    0 < mem_brk h - psize /\
    (pa = 0 -> In (mem_brk h - psize) l /\
       forall a, mem_brk h - psize - W <= a ->
                 link_word W (free_listp h :: l) a ->
                 a = mem_brk h - psize \/ a = mem_brk h - psize + W).
Proof.
  revert l. induction bl as [| [psize pa] bl0 _] using rev_ind; intros l Hok;
    pose proof Hok as (Af & Hf4 & Hs & Ht & Hb & He & Hbm & Hmx & Hfl & Hiff).
  - exists (4 * W), 1. change (total []) with 0 in Hb.
    rewrite Z.add_0_r in Hb. rewrite Hb.
    destruct Hs as [Hh Hft].
    replace (free_listp h + 4 * W - 4 * W) with (free_listp h) by lia.
    split; [left; auto |].
    repeat split; trivial; try word_arith; try discriminate; try (now right).
  - assert (Hl : In (mem_brk h - psize, psize, pa)
                    (layout (free_listp h + 4 * W) (bl0 ++ [(psize, pa)]))).
    { rewrite layout_app, in_app_iff. right. left.
      rewrite total_app in Hb. change (total [(psize, pa)]) with (psize + 0) in Hb.
      f_equal. f_equal. lia. }
    pose proof (proj1 (Forall_forall _ _) Ht _ Hl) as (Hps & Hpa & Hh & Hft).
    exists psize, pa.
    replace (mem_brk h - psize + psize - DSIZE W)
      with (mem_brk h - DSIZE W) in Hft by lia.
    assert (0 < mem_brk h - psize).
    { apply tagged_positive in Ht.
      apply (layout_bounds _ _ _ _ _ Ht) in Hl. word_arith. }
    split; [right; now exists bl0 |].
    repeat split; trivial; try word_arith.
    + subst pa. now apply (heap_ok_block _ _ _ _ _ Hok) in Hl.
    + intros a Ha Hlw. subst pa.
      destruct (heap_ok_links_low _ _ _ _ Hok Hlw) as [_ Hhi].
      apply (heap_ok_block _ _ _ _ _ Hok) in Hl as (_ & _ & _ & _ & _ & Hsep).
      apply Hsep; trivial. word_arith.
Qed.

Lemma total_aligned m bl : forall p,
  Forall (tagged W m) (layout p bl) -> total bl mod DSIZE W = 0 /\ 0 <= total bl.
Proof.
  induction bl as [| [sz a] bl IH]; intros p Ht.
  - unfold total. simpl. split; [apply Z.mod_0_l | lia]. word_arith.
  - simpl in Ht. apply Forall_cons_iff in Ht as [(Hs & _) Ht].
    apply IH in Ht. change (total ((sz, a) :: bl)) with (sz + total bl).
    word_arith.
Qed.

Lemma link_word_cons flp r l a :
  link_word W (flp :: r :: l) a ->
  a = r \/ a = r + W \/ link_word W (flp :: l) a.
Proof.
  intros (y & [Hy | [Hy | Hy]] & Hay).
  - right. right. exists y. split; [now left | assumption].
  - subst y. tauto.
  - right. right. exists y. split; [now right | assumption].
Qed.

(** A successful [extend_heap] hands back a free block, of at least the
    bytes asked for, that heads the free list and is ready for [place]. *)
Lemma extend_heap_spec h bl l words h1 p :
  heap_ok W h bl l ->
  block_size W (extend_bytes W words) ->
  mem_sbrk h (extend_bytes W words) = Some (h1, p) ->
  let h' := fst (extend_heap W h words) in
  let r := snd (extend_heap W h words) in
  exists csize l',
    extend_bytes W words <= csize /\ block_size W csize /\
    csize + 1 < modulus W /\ 0 < r /\
    free_listp h' = free_listp h /\
    block_at W (mem h') r csize 0 /\
    free_list W (mem h') (free_listp h) (r :: l') /\
    (forall a, r - W <= a < r + csize - W ->
               link_word W (free_listp h :: r :: l') a ->
               a = r \/ a = r + W).
Proof.
  intros Hok Hsz Hsbrk h' r.
  pose proof Hok as (Af & Hf4 & Hs & Ht & Hb & He & Hbm & Hmx & Hfl & Hiff).
  destruct (total_aligned _ _ _ Ht) as [Hta Ht0].
  destruct (heap_ok_last _ _ _ Hok)
    as (psize & pa & _ & Hps & Hpa & Hpf & Hph & Hp0 & Hpfree).
  set (size := extend_bytes W words) in *.
  set (brk := mem_brk h) in *. set (flp := free_listp h) in *.
  assert (Hlow : forall a, brk - W <= a -> ~ link_word W (flp :: l) a).
  { intros a Ha Hl. apply (heap_ok_links_low _ _ _ _ Hok) in Hl.
    fold brk in Hl. word_arith. }
  unfold mem_sbrk in Hsbrk.
  destruct ((0 <=? size) && (mem_brk h + size <=? mem_max_addr h)) eqn:Hc;
    [| discriminate].
  apply andb_prop in Hc as [Hc1 Hc2].
  apply Z.leb_le in Hc1, Hc2. fold brk in Hc2.
  inversion Hsbrk; subst h1 p. clear Hsbrk.
  assert (Abrk : aligned W brk) by (unfold brk; word_arith).
  subst h' r. unfold extend_heap. fold size. unfold mem_sbrk.
  fold brk. rewrite (proj2 (Z.leb_le 0 size)), (proj2 (Z.leb_le _ _) Hc2)
    by assumption.
  cbn [andb mem free_listp]. fold flp.
  set (m := mem h) in *.
  set (m1 := PUT m (HDRP W brk) (PACK size 0)).
  assert (F1 : FTRP W m1 brk = brk + size - DSIZE W).
  { unfold FTRP. now rewrite GET_SIZE_PACK with (s := size) (a := 0) by side. }
  rewrite F1. set (m2 := PUT m1 (brk + size - DSIZE W) (PACK size 0)).
  assert (N2 : NEXT_BLKP W m2 brk = brk + size).
  { assert (Hv : m2 (HDRP W brk) = PACK size 0).
    { unfold m2, m1, PUT. rewrite upd_other by word_arith. apply upd_same. }
    unfold NEXT_BLKP. fold (HDRP W brk).
    now rewrite GET_SIZE_PACK with (s := size) (a := 0) by side. }
  rewrite N2. set (m3 := PUT m2 (HDRP W (brk + size)) (PACK 0 1)).
  assert (Hfl3 : free_list W m3 flp l).
  { repeat apply free_list_put; trivial; apply Hlow; word_arith. }
  assert (V3 : forall a, a < brk - W -> m3 a = m a).
  { intros a Ha. unfold m3, m2, m1, PUT.
    rewrite !upd_other; trivial; word_arith. }
  assert (B3 : block_at W m3 brk size 0).
  { split; unfold m3, m2, m1, PUT.
    - rewrite !upd_other by word_arith. apply upd_same.
    - rewrite upd_other by word_arith. apply upd_same. }
  assert (Pf3 : m3 (brk - DSIZE W) = PACK psize pa).
  { rewrite V3; trivial. word_arith. }
  assert (Ph3 : m3 (HDRP W (brk - psize)) = PACK psize pa).
  { rewrite V3; trivial. word_arith. }
  assert (Pin : pa = 0 -> In (brk - psize) l).
  { intros ->. now apply Hpfree. }
  assert (Nm : 0 mod DSIZE W = 0) by word_arith.
  assert (Nh3 : m3 (HDRP W (brk + size)) = PACK 0 1) by apply upd_same.
  assert (Nx : 1 = 0 -> block_size W 0 /\
                 m3 (brk + size + 0 - DSIZE W) = PACK 0 0 /\
                 In (brk + size) l) by discriminate.
  assert (Hhi : brk + size + 0 + 1 < modulus W) by lia.
  assert (Hsep :
    forall a,
      (if pa =? 0 then brk - psize - W else brk - W) <= a <
      (if 1 =? 0 then brk + size + 0 - W else brk + size - W) ->
      link_word W (flp :: l) a ->
      (pa = 0 /\ (a = brk - psize \/ a = brk - psize + W)) \/
      (1 = 0 /\ (a = brk + size \/ a = brk + size + W))).
  { cbn [Z.eqb]. intros a Ha Hl. left.
    destruct Hpa as [-> | ->]; cbn [Z.eqb] in Ha.
    + split; trivial. apply Hpfree; trivial. lia.
    + exfalso. apply (Hlow a); trivial. lia. }
  destruct (coalesce_spec W Hword m3 flp l brk size psize pa 0 1 Hfl3 Abrk Hsz
              B3 Hps Hpa Pf3 Ph3 Pin Nm (Z.le_refl 0) (or_intror eq_refl)
              Nh3 Nx (Z.lt_le_incl _ _ Hp0) Hhi Hsep) as (Hr & Hblk & Hfl' & Hfr').
  clear Hsep Nx.
  cbn [Z.eqb] in *.
  destruct (coalesce W flp m3 brk) as [m4 r]. cbn [fst snd] in *.
  exists (brk + size - W - (if pa =? 0 then brk - psize - W else brk - W)),
           (if pa =? 0 then remove Z.eq_dec (brk - psize) l else l).
  assert (Hrv : r - W = if pa =? 0 then brk - psize - W else brk - W) by lia.
  assert (Hcs : brk + size - W - (r - W) =
                if pa =? 0 then size + psize else size).
  { rewrite Hrv. destruct (pa =? 0); lia. }
  rewrite <- Hrv in *. rewrite Hcs in *.
  split; [destruct (pa =? 0); word_arith |].
  split; [destruct (pa =? 0); word_arith |].
  split; [destruct (pa =? 0); word_arith |].
  split; [destruct (pa =? 0); word_arith |].
  split; [reflexivity |].
  split; [exact Hblk |].
  split; [exact Hfl' |].
  intros a Ha Hl.
  apply link_word_cons in Hl as [? | [? | Hl]]; auto.
  exfalso. destruct Hpa as [-> | ->]; cbn [Z.eqb] in *.
  - destruct (Hpfree eq_refl) as [Hin Hsep].
    assert (Hne : brk - psize <> flp).
    { intros Heq. rewrite Heq in Hin.
      destruct Hfl3 as (_ & ND & _). apply NoDup_cons_iff in ND. tauto. }
    apply link_word_remove in Hl as (Hl & H1 & H2); trivial.
    + destruct (Hsep a); trivial; lia.
    + word_arith.
    + apply Hfl3.
  - apply (Hlow a); trivial. lia.
Qed.

(** *** The search *)

Lemma find_fit_loop_spec m flp asize l : forall p fuel,
  dll W m p l flp ->
  (forall x, In x l -> GET_ALLOC m (HDRP W x) = 0) ->
  GET_ALLOC m (HDRP W flp) = 1 ->
  (length l < fuel)%nat ->
  exists r,
    find_fit_loop W fuel flp m asize (next_of W m p) = Some r /\
    ((r = NULL /\ forall x, In x l -> GET_SIZE W m (HDRP W x) < asize) \/
     (exists l1 l2, l = l1 ++ r :: l2 /\
        asize <= GET_SIZE W m (HDRP W r) /\
        forall x, In x l1 -> GET_SIZE W m (HDRP W x) < asize)).
Proof.
  induction l as [| x l IH]; intros p fuel Hd Hfree Hs Hfuel;
    (destruct fuel as [| fuel]; [simpl in Hfuel; lia |]).
  - destruct Hd as [Hn _]. rewrite Hn. simpl. rewrite Hs. simpl.
    exists NULL. split; [reflexivity | left]. split; [reflexivity | easy].
  - destruct Hd as (Hn & _ & Hd). rewrite Hn. simpl.
    rewrite (Hfree x) by now left. simpl.
    destruct (asize <=? GET_SIZE W m (HDRP W x)) eqn:Hfit.
    + exists x. split; [reflexivity | right].
      exists [], l. apply Z.leb_le in Hfit. repeat split; easy.
    + apply Z.leb_gt in Hfit.
      assert (Hxf : (x =? flp) = false).
      { apply Z.eqb_neq. intros ->. rewrite (Hfree flp) in Hs by now left.
        discriminate. }
      rewrite Hxf.
      destruct (IH x fuel Hd) as (r & Hr & Hcase); trivial.
      * intros y Hy. apply Hfree. now right.
      * simpl in Hfuel. lia.
      * exists r. split; [exact Hr |].
        destruct Hcase as [[-> Hall] | (l1 & l2 & -> & Hge & Hlt)].
        -- left. split; [reflexivity |]. intros y [<- | Hy]; auto.
        -- right. exists (x :: l1), l2. repeat split; trivial.
           intros y [<- | Hy]; auto.
Qed.

(** *** The adjusted size *)

Lemma round_up_least x d :
  0 < d -> round_up x d mod d = 0 /\ x <= round_up x d < x + d.
Proof.
  intros Hd. unfold round_up. split.
  - apply Z.mod_mul. lia.
  - pose proof (Z.div_mod (x + d - 1) d). pose proof (Z.mod_pos_bound (x + d - 1) d).
    nia.
Qed.

Lemma adjust_formula n :
  0 < n -> n + 2 * DSIZE W - 1 < modulus W -> n <> 448 -> n <> 112 ->
  adjust W n = spec_asize W n.
Proof.
  intros Hn Hlt H1 H2. unfold adjust, spec_asize, round_up.
  apply Z.eqb_neq in H1, H2. rewrite H1, H2.
  unfold wrap, DSIZE in *.
  destruct (n <=? 2 * W) eqn:Hc; [apply Z.leb_le in Hc | apply Z.leb_gt in Hc];
    unfold modulus in *; destruct Hword as [E | E]; rewrite E in *;
    change (2 ^ (8 * 4)) with 4294967296 in *;
    change (2 ^ (8 * 8)) with 18446744073709551616 in *; lia.
Qed.

Lemma adjust_block_size n :
  0 < n -> n + 2 * DSIZE W - 1 < modulus W ->
  block_size W (adjust W n) /\ adjust W n + 1 < modulus W.
Proof.
  intros Hn Hlt. unfold adjust.
  destruct (n =? 112) eqn:H2; [unfold modulus in *; word_arith |].
  destruct (n =? 448) eqn:H1; [unfold modulus in *; word_arith |].
  unfold wrap, block_size, DSIZE in *.
  destruct (n <=? 2 * W) eqn:Hc; [apply Z.leb_le in Hc | apply Z.leb_gt in Hc];
    unfold modulus in *; destruct Hword as [E | E]; rewrite E in *;
    change (2 ^ (8 * 4)) with 4294967296 in *;
    change (2 ^ (8 * 8)) with 18446744073709551616 in *; lia.
Qed.

(** *** Allocation *)

Lemma heap_ok_alloc_bits h bl l :
  heap_ok W h bl l ->
  (forall x, In x l -> GET_ALLOC (mem h) (HDRP W x) = 0) /\
  GET_ALLOC (mem h) (HDRP W (free_listp h)) = 1.
Proof.
  intros Hok. split.
  - intros x Hx.
    destruct (heap_ok_free_block _ _ _ _ Hok Hx) as (sz & Hs & [Hh _] & _).
    rewrite (GET_ALLOC_PACK W Hword) with (s := sz) (a := 0); side.
  - destruct Hok as (_ & _ & [Hh _] & _).
    rewrite (GET_ALLOC_PACK W Hword) with (s := 4 * W) (a := 1); side.
Qed.

Lemma extend_bytes_even size :
  size mod DSIZE W = 0 -> 0 <= size < modulus W ->
  extend_bytes W (size / W) = size.
Proof.
  intros Hm Hs. unfold extend_bytes, wrap.
  assert (Hw : size / W * W = size) by word_arith.
  assert (He : (size / W) mod 2 = 0) by word_arith.
  rewrite He. cbn [Z.eqb]. rewrite Hw. now apply Z.mod_small.
Qed.

Lemma mm_malloc_spec h bl l n fuel :
  heap_ok W h bl l ->
  0 < n -> n + 2 * DSIZE W - 1 < modulus W ->
  (length l < fuel)%nat ->
  let asize := adjust W n in
  exists h' r,
    mm_malloc W fuel h n = Some (h', r) /\
    ((r = NULL /\ h' = h /\
      find_fit W fuel (free_listp h) (mem h) asize = Some NULL /\
      mem_sbrk h (extend_bytes W (MAX asize (CHUNKSIZE) / W)) = None) \/
     (r <> NULL /\
      exists csize,
        asize <= csize /\
        ((find_fit W fuel (free_listp h) (mem h) asize = Some r /\
          In r l /\ block_at W (mem h) r csize 0) \/
         (find_fit W fuel (free_listp h) (mem h) asize = Some NULL /\
          MAX asize CHUNKSIZE <= csize /\
          exists h1,
            extend_heap W h (MAX asize CHUNKSIZE / W) = (h1, r) /\
            block_at W (mem h1) r csize 0)) /\
        (3 * DSIZE W <= csize - asize -> block_at W (mem h') r asize 1) /\
        (csize - asize < 3 * DSIZE W -> block_at W (mem h') r csize 1))).
Proof.
  intros Hok Hn Hlt Hfuel asize.
  destruct (adjust_block_size n Hn Hlt) as [Has Halt]. fold asize in Has, Halt.
  pose proof Hok as (Af & Hf4 & Hs & Ht & Hb & He & Hbm & Hmx & Hfl & Hiff).
  destruct (heap_ok_alloc_bits _ _ _ Hok) as [Hfree Hsent].
  destruct (find_fit_loop_spec (mem h) (free_listp h) asize l (free_listp h)
              fuel (proj1 Hfl) Hfree Hsent Hfuel) as (r & Hr & Hcase).
  fold (find_fit W fuel (free_listp h) (mem h) asize) in Hr.
  unfold mm_malloc. fold asize.
  assert (Hn0 : (n <=? 0) = false) by (apply Z.leb_gt; lia).
  rewrite Hn0, Hr.
  destruct Hcase as [[-> Hall] | (l1 & l2 & Hl & Hge & Hlt1)].
  - (* no fit: extend the heap *)
    cbn [NULL Z.eqb negb].
    set (ext := MAX asize CHUNKSIZE).
    assert (Hext : block_size W ext /\ asize <= ext /\ ext + 1 < modulus W).
    { unfold ext, MAX, CHUNKSIZE. change (Z.shiftl 1 12) with 4096.
      destruct (asize >? 4096) eqn:Hc.
      - repeat split; trivial; try apply Has; lia.
      - assert (asize <= 4096) by (rewrite Z.gtb_ltb in Hc; apply Z.ltb_ge in Hc; lia).
        unfold modulus. word_arith. }
    destruct Hext as (Hes & Hae & Helt).
    assert (Hbytes : extend_bytes W (ext / W) = ext).
    { apply extend_bytes_even; [apply Hes | word_arith]. }
    destruct (mem_sbrk h (extend_bytes W (ext / W))) as [[h1 p] |] eqn:Hsb.
    + pose proof (extend_heap_spec h bl l (ext / W) h1 p Hok) as Hx.
      rewrite Hbytes in Hx. specialize (Hx Hes). rewrite Hbytes in Hsb.
      specialize (Hx Hsb). cbv zeta in Hx.
      destruct Hx as (csize & l' & Hle & Hcs & Hclt & Hr0 & Hflp & Hblk & Hfl' & Hsep).
      destruct (extend_heap W h (ext / W)) as [h2 r] eqn:Hex.
      cbn [fst snd] in *.
      assert (Hrn : (r =? NULL) = false) by (apply Z.eqb_neq; unfold NULL; lia).
      rewrite Hrn. exists (set_mem h2 (place W (free_listp h2) (mem h2) r asize)), r.
      split; [reflexivity | right].
      split; [unfold NULL; lia |].
      exists csize. split; [lia |].
      split; [right; split; [reflexivity | split; [lia |
        exists h2; split; [reflexivity | exact Hblk]]] |].
      rewrite Hflp. cbn [set_mem mem].
      destruct (place_spec W Hword (mem h2) (free_listp h) (r :: l') r csize asize
                  Hfl' (or_introl eq_refl) (proj1 Hblk) Hcs Has) as [Hsp Hns];
        trivial; try lia.
      split; intros Hc; [now apply Hsp | now apply Hns].
    + rewrite Hbytes in Hsb.
      assert (Hex : extend_heap W h (ext / W) = (h, NULL)).
      { unfold extend_heap. now rewrite Hbytes, Hsb. }
      rewrite Hex. cbn [NULL Z.eqb]. exists h, NULL.
      split; [reflexivity | left]. auto.
  - (* first fit *)
    assert (Hin : In r l) by (rewrite Hl, in_app_iff; right; now left).
    destruct (heap_ok_free_block _ _ _ _ Hok Hin)
      as (csize & Hcs & Hblk & Hlo & Hhi & Hsep).
    assert (Hclt : csize + 1 < modulus W /\ 0 < r).
    { clear -Hlo Hhi Hbm Hmx Hf4 Hword. word_arith. }
    assert (Hsz : GET_SIZE W (mem h) (HDRP W r) = csize).
    { rewrite GET_SIZE_PACK with (s := csize) (a := 0);
        first [ reflexivity | exact Hword | apply Hblk | apply Hcs
              | apply Hclt | now left | word_arith ]. }
    rewrite Hsz in Hge.
    assert (Hrn : (r =? NULL) = false) by (apply Z.eqb_neq; unfold NULL; lia).
    rewrite Hrn. cbn [negb].
    exists (set_mem h (place W (free_listp h) (mem h) r asize)), r.
    split; [reflexivity | right].
    split; [unfold NULL; lia |].
    exists csize. split; [lia |]. split; [left; auto |].
    cbn [set_mem mem].
    destruct (place_spec W Hword (mem h) (free_listp h) l r csize asize
                Hfl Hin (proj1 Hblk) Hcs Has) as [Hsp Hns];
      trivial; try lia.
    split; intros Hc; [now apply Hsp | now apply Hns].
Qed.

End Heap.

(** ** The invariant is kept by the operations *)

Lemma layout_split bl : forall p x sz a,
  In (x, sz, a) (layout p bl) ->
  exists bl1 bl2, bl = bl1 ++ (sz, a) :: bl2 /\ x = p + total bl1.
Proof.
  induction bl as [| [s c] bl IH]; intros p x sz a Hin; [easy |].
  destruct Hin as [Heq | Hin].
  - inversion Heq; subst. exists [], bl. split; [reflexivity |].
    unfold total. simpl. lia.
  - apply IH in Hin as (bl1 & bl2 & -> & ->).
    exists ((s, c) :: bl1), bl2. split; [reflexivity |].
    unfold total. simpl. lia.
Qed.

Lemma coalesced_app A B :
  coalesced (A ++ B) <->
  coalesced A /\ coalesced B /\
  (snd (last A (0, 1)) = 0 -> snd (hd (0, 1) B) <> 0).
Proof.
  induction A as [| b A IH]; cbn [app coalesced last].
  - cbn [snd]. intuition discriminate.
  - rewrite IH. destruct A as [| c A]; cbn [app hd last coalesced snd] in *;
      [intuition discriminate | tauto].
Qed.

(** Replacing a run of blocks keeps the heap coalesced when the new run
    is, and its two ends do not put two free blocks side by side. *)
Lemma coalesced_replace A old new C :
  coalesced (A ++ old ++ C) -> coalesced new -> new <> [] ->
  (snd (last A (0, 1)) = 0 -> snd (hd (0, 1) new) <> 0) ->
  (snd (last new (0, 1)) = 0 -> snd (hd (0, 1) C) <> 0) ->
  coalesced (A ++ new ++ C).
Proof.
  intros Hc Hn Hne H1 H2.
  apply coalesced_app in Hc as (HA & Hc & _).
  apply coalesced_app in Hc as (_ & HC & _).
  apply coalesced_app. split; [exact HA |]. split.
  - apply coalesced_app. auto.
  - destruct new as [| b new]; [congruence | exact H1].
Qed.

Lemma heap_step_trans W h bl h1 bl1 h2 bl2 Q :
  heap_step W h bl h1 bl1 (fun _ => False) (fun _ => False) ->
  heap_step W h1 bl1 h2 bl2 (fun _ => False) Q ->
  heap_step W h bl h2 bl2 (fun _ => False) Q.
Proof.
  intros (F1 & L1 & M1 & Lo1 & C1 & K1 & N1) (F2 & L2 & M2 & Lo2 & C2 & K2 & N2).
  split; [congruence |]. split; [congruence |]. split; [congruence |].
  split; [| split; [auto | split]].
  - intros a Ha. rewrite Lo2, Lo1; trivial. now rewrite F1.
  - intros x sz Hx _. destruct (K1 x sz Hx (fun f => f)) as [Hin Hm].
    destruct (K2 x sz Hin (fun f => f)) as [Hin2 Hm2].
    split; [exact Hin2 |]. intros a Ha. rewrite Hm2, Hm; trivial.
  - intros x sz Hx. destruct (N2 x sz Hx) as [Hq | Hx1]; [now left |].
    destruct (N1 x sz Hx1) as [[] | Hx0]. now right.
Qed.

Lemma heap_step_refl W h bl P Q : heap_step W h bl h bl P Q.
Proof. repeat split; trivial. now right. Qed.

Lemma heap_step_prologue W h bl h' bl' P Q :
  word_size W -> prologue_ok W h -> heap_step W h bl h' bl' P Q ->
  prologue_ok W h'.
Proof.
  intros Hword (Hhl & Hph & Hpf) (F & L & _ & Lo & _).
  unfold prologue_ok. rewrite F, L.
  split; [exact Hhl |].
  split; (rewrite Lo; [assumption | unfold HDRP, DSIZE in *; destruct Hword; lia]).
Qed.

Section Preservation.

Variable W : Z.
Hypothesis Hword : word_size W.

Ltac word_arith :=
  unfold aligned, block_size, bit, DSIZE, HDRP, modulus in *;
  destruct Hword as [E | E]; rewrite E in *; lia.

(** Boundary tags are never link words of listed nodes. *)
Lemma heap_ok_tags h bl l x sz a :
  heap_ok W h bl l ->
  In (x, sz, a) (layout (free_listp h + 4 * W) bl) ->
  ~ link_word W (free_listp h :: l) (HDRP W x) /\
  ~ link_word W (free_listp h :: l) (x + sz - DSIZE W).
Proof.
  intros Hok Hx.
  pose proof Hok as (Af & Hf4 & Hs & Ht & Hb & He & Hbm & Hmx & Hfl & Hiff).
  pose proof (tagged_positive W Hword _ _ Ht) as Hpos.
  pose proof (proj1 (Forall_forall _ _) Ht _ Hx) as (Hsx & _).
  destruct (layout_bounds _ _ _ _ _ Hpos Hx) as [Hlo Hhi].
  assert (Hgen : forall t, x - W <= t < x + sz - W -> t <> x -> t <> x + W ->
                   ~ link_word W (free_listp h :: l) t).
  { intros t Ht' H1 H2 (y & Hy & Hty).
    destruct Hy as [<- | Hy]; [word_arith |].
    destruct (proj1 (Hiff y) Hy) as (sy & Hyl).
    pose proof (proj1 (Forall_forall _ _) Ht _ Hyl) as (Hsy & _).
    destruct (layout_disjoint _ _ _ _ _ _ _ _ Hpos Hx Hyl) as [Heq | Hd].
    - inversion Heq; subst. lia.
    - word_arith. }
  split; apply Hgen; word_arith.
Qed.

Lemma heap_ok_sentinel_tags h bl l :
  heap_ok W h bl l ->
  ~ link_word W (free_listp h :: l) (HDRP W (free_listp h)) /\
  ~ link_word W (free_listp h :: l) (free_listp h + 4 * W - DSIZE W).
Proof.
  intros Hok.
  assert (Hgen : forall t, t = free_listp h - W \/ t = free_listp h + 2 * W ->
                   ~ link_word W (free_listp h :: l) t).
  { intros t Ht (y & Hy & Hty).
    destruct Hy as [<- | Hy]; [word_arith |].
    destruct (heap_ok_free_block W Hword _ _ _ _ Hok Hy)
      as (sz & Hsz & _ & Hlo & _).
    word_arith. }
  split; apply Hgen; [left | right]; word_arith.
Qed.

(** Replacing a run of blocks [old] by a run [new] that covers the same
    bytes (or, at the end of the heap, [delta] more) keeps the invariant,
    provided nothing else changes. *)
Lemma heap_ok_replace h h' A old new C l l' delta :
  heap_ok W h (A ++ old ++ C) l ->
  let base := free_listp h + 4 * W + total A in
  free_listp h' = free_listp h ->
  mem_max_addr h' = mem_max_addr h ->
  mem_brk h' = mem_brk h + delta ->
  mem_brk h' <= mem_max_addr h' ->
  total new = total old + delta ->
  (delta = 0 \/ C = []) ->
  mem h' (HDRP W (mem_brk h')) = PACK 0 1 ->
  (forall a, ~ (base - W <= a < base + total old - W) ->
             a < mem_brk h - W ->
             ~ link_word W (free_listp h :: l) a -> mem h' a = mem h a) ->
  Forall (tagged W (mem h')) (layout base new) ->
  free_list W (mem h') (free_listp h) l' ->
  (forall x, In x l' <->
     (In x l /\ ~ (base <= x < base + total old)) \/
     exists sz, In (x, sz, 0) (layout base new)) ->
  heap_ok W h' (A ++ new ++ C) l'.
Proof.
  intros Hok base Hflp Hmax Hbrk Hle Htot HC Hepi Hfr Hnew Hfl' Hiff'.
  pose proof Hok as (Af & Hf4 & Hs & Ht & Hb & He & Hbm & Hmx & Hfl & Hiff).
  pose proof (tagged_positive W Hword _ _ Ht) as Hpos.
  pose proof Hpos as Hpos'.
  set (start := free_listp h + 4 * W) in *.
  rewrite !layout_app in Ht, Hpos, Hiff. fold base in Ht, Hpos, Hiff.
  apply Forall_app in Ht as [HtA Ht]. apply Forall_app in Ht as [HtO HtC].
  apply Forall_app in Hpos as [HpA Hpos].
  apply Forall_app in Hpos as [HpO HpC].
  rewrite !total_app in Hb.
  assert (HinA : forall b, In b (layout start A) ->
                   In b (layout start (A ++ old ++ C))).
  { intros b Hb'. rewrite layout_app, in_app_iff. now left. }
  assert (HinC : forall b, In b (layout (base + total old) C) ->
                   In b (layout start (A ++ old ++ C))).
  { intros b Hb'. rewrite !layout_app, !in_app_iff. right. now right. }
  assert (HCnew : layout (base + total new) C = layout (base + total old) C).
  { destruct HC as [-> | ->]; [| reflexivity]. now rewrite Htot, Z.add_0_r. }
  assert (Keep : forall x sz a,
            In (x, sz, a) (layout start (A ++ old ++ C)) ->
            x + sz <= base \/ base + total old <= x ->
            tagged W (mem h) (x, sz, a) -> tagged W (mem h') (x, sz, a)).
  { intros x sz a Hin Hout (Hsz & Ha & Hh & Hf).
    destruct (heap_ok_tags _ _ _ _ _ _ Hok Hin) as [T1 T2].
    split; [exact Hsz |]. split; [exact Ha |].
    pose proof (proj1 (Forall_forall _ _) Hpos' _ Hin) as Hp. simpl in Hp.
    apply (layout_bounds _ _ _ _ _ Hpos') in Hin. fold start in Hin.
    rewrite !total_app in Hin.
    split; (rewrite Hfr; [assumption | word_arith | word_arith | assumption]). }
  unfold heap_ok. rewrite Hflp, Hmax. fold start.
  split; [exact Af |]. split; [exact Hf4 |].
  split.
  { destruct (heap_ok_sentinel_tags _ _ _ Hok) as [T1 T2].
    destruct Hs as [Hh Hf].
    assert (0 <= total A).
    { destruct A as [| b A']; [unfold total; simpl; lia |].
      destruct (total_aligned W Hword _ _ _ HtA). lia. }
    assert (0 <= total old + total C).
    { destruct (total_aligned W Hword _ _ _ HtO).
      destruct (total_aligned W Hword _ _ _ HtC). lia. }
    split; (rewrite Hfr; [assumption | unfold base, start; word_arith
                         | unfold start in Hb; word_arith | assumption]). }
  split.
  { rewrite !layout_app. fold base. rewrite HCnew.
    apply Forall_app. split; [| apply Forall_app; split; [exact Hnew |]].
    - apply Forall_forall. intros [[x sz] a] Hin.
      apply Keep; [now apply HinA | | exact (proj1 (Forall_forall _ _) HtA _ Hin)].
      left. apply (layout_bounds _ _ _ _ _ HpA) in Hin. unfold base. lia.
    - apply Forall_forall. intros [[x sz] a] Hin.
      apply Keep; [now apply HinC | | exact (proj1 (Forall_forall _ _) HtC _ Hin)].
      right. apply (layout_bounds _ _ _ _ _ HpC) in Hin. lia. }
  split; [rewrite Hbrk, Hb, !total_app; unfold base; lia |].
  split; [exact Hepi |].
  split; [rewrite <- Hmax; exact Hle |].
  split; [exact Hmx |].
  split; [exact Hfl' |].
  intros x. rewrite Hiff'. rewrite !layout_app. fold base. rewrite HCnew.
  split.
  - intros [[Hin Hout] | (sz & Hin)].
    + apply Hiff in Hin as (sz & Hin). exists sz.
      rewrite !in_app_iff in *. destruct Hin as [Hin | [Hin | Hin]]; auto.
      exfalso. apply Hout.
      pose proof (proj1 (Forall_forall _ _) HpO _ Hin) as Hp. simpl in Hp.
      apply (layout_bounds _ _ _ _ _ HpO) in Hin. lia.
    + exists sz. rewrite !in_app_iff. auto.
  - intros (sz & Hin). rewrite !in_app_iff in Hin.
    destruct Hin as [Hin | [Hin | Hin]].
    + left. split.
      * apply Hiff. exists sz. rewrite !in_app_iff. auto.
      * pose proof (proj1 (Forall_forall _ _) HpA _ Hin) as Hp. simpl in Hp.
        apply (layout_bounds _ _ _ _ _ HpA) in Hin. unfold base. lia.
    + right. now exists sz.
    + left. split.
      * apply Hiff. exists sz. rewrite !in_app_iff. auto.
      * apply (layout_bounds _ _ _ _ _ HpC) in Hin. lia.
Qed.

Lemma heap_ok_epilogue_clear h bl l :
  heap_ok W h bl l ->
  forall a, mem_brk h - W <= a -> ~ link_word W (free_listp h :: l) a.
Proof.
  intros Hok a Ha Hl. apply (heap_ok_links_low W Hword _ _ _ _ Hok) in Hl.
  word_arith.
Qed.

(** The words of an allocated block, header included, are no link words. *)
Lemma heap_ok_payload_clear h bl l x sz :
  heap_ok W h bl l ->
  In (x, sz, 1) (layout (free_listp h + 4 * W) bl) ->
  forall a, x - W <= a < x + sz - W -> ~ link_word W (free_listp h :: l) a.
Proof.
  intros Hok Hx a Ha (y & Hy & Hay).
  pose proof Hok as (Af & Hf4 & Hs & Ht & Hb & He & Hbm & Hmx & Hfl & Hiff).
  pose proof (tagged_positive W Hword _ _ Ht) as Hpos.
  pose proof (proj1 (Forall_forall _ _) Ht _ Hx) as (Hsx & _).
  destruct (layout_bounds _ _ _ _ _ Hpos Hx) as [Hlo Hhi].
  destruct Hy as [<- | Hy]; [word_arith |].
  destruct (proj1 (Hiff y) Hy) as (sy & Hyl).
  pose proof (proj1 (Forall_forall _ _) Ht _ Hyl) as (Hsy & _).
  destruct (layout_disjoint _ _ _ _ _ _ _ _ Hpos Hx Hyl) as [Heq | Hd].
  - inversion Heq.
  - word_arith.
Qed.

(** What such a replacement leaves alone: see [heap_step]. *)
Lemma heap_ok_replace_step h h' A old new C l delta (P Q : Z -> Prop) :
  heap_ok W h (A ++ old ++ C) l ->
  let base := free_listp h + 4 * W + total A in
  free_listp h' = free_listp h -> heap_listp h' = heap_listp h ->
  mem_max_addr h' = mem_max_addr h ->
  total new = total old + delta -> (delta = 0 \/ C = []) ->
  (forall a, ~ (base - W <= a < base + total old - W) ->
             a < mem_brk h - W ->
             ~ link_word W (free_listp h :: l) a -> mem h' a = mem h a) ->
  (coalesced (A ++ old ++ C) -> coalesced (A ++ new ++ C)) ->
  (forall x sz, In (x, sz, 1) (layout base old) -> P x) ->
  (forall x sz, In (x, sz, 1) (layout base new) -> Q x) ->
  heap_step W h (A ++ old ++ C) h' (A ++ new ++ C) P Q.
Proof.
  intros Hok base Hflp Hhl Hmax Htot HC Hfr Hco HP HQ.
  pose proof Hok as (Af & Hf4 & Hs & Ht & Hb & He & Hbm & Hmx & Hfl & Hiff).
  pose proof (tagged_positive W Hword _ _ Ht) as Hpos.
  set (start := free_listp h + 4 * W) in *.
  pose proof Ht as Ht'. rewrite !layout_app in Ht'. fold base in Ht'.
  apply Forall_app in Ht' as [HtA Ht']. apply Forall_app in Ht' as [HtO HtC].
  destruct (total_aligned W Hword _ _ _ HtA) as [_ HA0].
  destruct (total_aligned W Hword _ _ _ HtO) as [_ HO0].
  destruct (total_aligned W Hword _ _ _ HtC) as [_ HC0].
  rewrite !total_app in Hb.
  assert (HCnew : layout (base + total new) C = layout (base + total old) C).
  { destruct HC as [-> | ->]; [| reflexivity]. now rewrite Htot, Z.add_0_r. }
  split; [exact Hflp |]. split; [exact Hhl |]. split; [exact Hmax |].
  split.
  { intros a Ha. apply Hfr.
    - unfold base, start. word_arith.
    - unfold start in Hb. word_arith.
    - intros Hl. apply (heap_ok_links_low W Hword _ _ _ _ Hok) in Hl.
      word_arith. }
  split; [exact Hco |].
  split.
  2:{ intros x sz Hin. rewrite Hflp in Hin. fold start in Hin |- *.
      rewrite !layout_app in Hin. rewrite !layout_app.
      fold base in Hin |- *. rewrite HCnew in Hin.
      rewrite !in_app_iff in Hin. rewrite !in_app_iff.
      destruct Hin as [Hin | [Hin | Hin]]; auto.
      left. now apply HQ with (sz := sz). }
  intros x sz Hin HnP.
  pose proof (heap_ok_payload_clear _ _ _ _ _ Hok Hin) as Hclear.
  pose proof (proj1 (Forall_forall _ _) Hpos _ Hin) as Hp. simpl in Hp.
  destruct (layout_bounds _ _ _ _ _ Hpos Hin) as [Hlo Hhi].
  fold start in Hlo, Hhi. rewrite !total_app in Hhi.
  unfold block_kept. rewrite Hflp. fold start.
  rewrite !layout_app in Hin. rewrite !layout_app. fold base in Hin |- *.
  rewrite HCnew. rewrite !in_app_iff in Hin. rewrite !in_app_iff.
  assert (Hout : x + sz <= base \/ base + total old <= x).
  { destruct Hin as [Hin | [Hin | Hin]].
    - left. apply (layout_bounds _ _ _ _ _ (tagged_positive W Hword _ _ HtA))
        in Hin. unfold base. lia.
    - elim HnP. now apply HP with (sz := sz).
    - right. apply (layout_bounds _ _ _ _ _ (tagged_positive W Hword _ _ HtC))
        in Hin. lia. }
  split.
  - destruct Hin as [Hin | [Hin | Hin]]; auto.
    elim HnP. now apply HP with (sz := sz).
  - intros a Ha. apply Hfr.
    + word_arith.
    + unfold start in Hb. word_arith.
    + apply Hclear. word_arith.
Qed.

(** [place] on a listed free block keeps the invariant: the block becomes
    an allocated block, followed by a free remainder when it is split. *)
Lemma place_ok h bl l r csize asize :
  heap_ok W h bl l ->
  In (r, csize, 0) (layout (free_listp h + 4 * W) bl) ->
  block_size W asize -> asize <= csize ->
  exists bl' l' s,
    heap_ok W (set_mem h (place W (free_listp h) (mem h) r asize)) bl' l' /\
    heap_step W h bl (set_mem h (place W (free_listp h) (mem h) r asize)) bl'
      (fun _ => False) (fun x => x = r) /\
    In (r, s, 1) (layout (free_listp h + 4 * W) bl') /\
    (s = asize \/ (s = csize /\ csize - asize < 3 * DSIZE W)) /\
    exists A C,
      bl = A ++ (csize, 0) :: C /\ r = free_listp h + 4 * W + total A /\
      (bl' = A ++ (asize, 1) :: (csize - asize, 0) :: C \/
       bl' = A ++ (csize, 1) :: C).
Proof.
  intros Hok Hin Has Hle.
  destruct (heap_ok_block W Hword _ _ _ _ _ Hok Hin)
    as (Hrl & Hcs & Hblk & Hlo & Hhi & Hsep).
  pose proof Hok as (Af & Hf4 & Hs & Ht & Hb & He & Hbm & Hmx & Hfl & Hiff).
  pose proof (tagged_positive W Hword _ _ Ht) as Hpos.
  destruct (layout_split _ _ _ _ _ Hin) as (A & C & Hbl & Hr).
  assert (Hclt : csize + 1 < modulus W) by (clear -Hlo Hhi Hbm Hmx Hf4 Hword; word_arith).
  destruct (place_spec W Hword (mem h) (free_listp h) l r csize asize Hfl Hrl
              (proj1 Hblk) Hcs Has Hle Hclt Hsep) as [Hsplit Hwhole].
  set (m' := place W (free_listp h) (mem h) r asize) in *.
  assert (Hok' : heap_ok W h (A ++ [(csize, 0)] ++ C) l).
  { cbn [app]. now rewrite <- Hbl. }
  assert (Hto : total [(csize, 0)] = csize) by (unfold total; simpl; lia).
  assert (Hepi : forall m2,
            (forall a, ~ (r - W <= a < r + csize - W) ->
                       ~ link_word W (free_listp h :: l) a -> m2 a = mem h a) ->
            m2 (HDRP W (mem_brk h)) = PACK 0 1).
  { intros m2 Hfr. rewrite Hfr; trivial.
    - unfold HDRP. lia.
    - apply (heap_ok_epilogue_clear _ _ _ Hok). unfold HDRP. lia. }
  assert (Hdisj : forall x, In x l -> x <> r -> ~ (r <= x < r + csize)).
  { intros x Hx Hne Hrange.
    apply Hiff in Hx as (sx & Hx).
    pose proof (proj1 (Forall_forall _ _) Hpos _ Hx) as Hp. simpl in Hp.
    destruct (layout_disjoint _ _ _ _ _ _ _ _ Hpos Hin Hx) as [Heq | Hd];
      [inversion Heq; congruence | lia]. }
  assert (Hnf : r <> free_listp h).
  { intros Heq. destruct Hfl as (_ & ND & _).
    apply NoDup_cons_iff in ND. rewrite Heq in Hrl. tauto. }
  destruct (Z_le_gt_dec (3 * DSIZE W) (csize - asize)) as [Hc | Hc].
  - (* split *)
    destruct (Hsplit Hc) as (B1 & B2 & Hfl' & Hfr).
    exists (A ++ [(asize, 1); (csize - asize, 0)] ++ C),
           (r + asize :: remove Z.eq_dec r l), asize.
    split; [| split; [| split; [| split; [now left |
      exists A, C; split; [exact Hbl | split; [exact Hr | now left]]]]]].
    + apply heap_ok_replace with (h := h) (old := [(csize, 0)]) (l := l)
                                 (delta := 0); trivial; cbn [set_mem mem_brk mem
                                 mem_max_addr free_listp]; try lia.
      * unfold total. simpl. lia.
      * apply Hepi. exact Hfr.
      * rewrite <- Hr, Hto. intros a Ha _. now apply Hfr.
      * rewrite <- Hr. cbn [layout].
        apply Forall_cons; [| apply Forall_cons; [| apply Forall_nil]].
        -- split; [exact Has |]. split; [now right | exact B1].
        -- split; [word_arith |]. split; [now left | exact B2].
      * rewrite <- Hr, Hto. cbn [layout]. intros x. split.
        -- intros [<- | Hx].
           ++ right. exists (csize - asize). right. now left.
           ++ apply in_remove in Hx as [Hx Hne]. left. auto.
        -- intros [[Hx Hout] | (sz & [Heq | [Heq | []]])].
           ++ right. apply in_in_remove; trivial. intros ->. apply Hout.
              word_arith.
           ++ inversion Heq.
           ++ inversion Heq. now left.
    + rewrite Hbl. change ((csize, 0) :: C) with ([(csize, 0)] ++ C).
      apply heap_ok_replace_step with (l := l) (delta := 0); trivial;
        cbn [set_mem mem_brk mem mem_max_addr free_listp heap_listp]; try lia.
      * unfold total. simpl. lia.
      * rewrite <- Hr, Hto. intros a Ha _. now apply Hfr.
      * intros Hco. apply coalesced_replace with (old := [(csize, 0)]); trivial.
        -- cbn [coalesced hd snd]. repeat split; discriminate.
        -- discriminate.
        -- cbn [hd snd]. discriminate.
        -- intros _. apply coalesced_app in Hco as (_ & Hco & _).
           apply coalesced_app in Hco as (_ & _ & Hco). now apply Hco.
      * cbn [layout]. intros x sz [Heq | []]. inversion Heq.
      * rewrite <- Hr. cbn [layout]. intros x sz [Heq | [Heq | []]];
          inversion Heq. reflexivity.
    + rewrite layout_app, in_app_iff. right. rewrite <- Hr. now left.
  - (* the whole block *)
    destruct (Hwhole ltac:(lia)) as (B1 & Hfl' & Hfr).
    assert (Hfr' : forall a, ~ (r - W <= a < r + csize - W) ->
               ~ link_word W (free_listp h :: l) a -> m' a = mem h a).
    { intros a Ha Hl. apply Hfr; trivial; word_arith. }
    exists (A ++ [(csize, 1)] ++ C), (remove Z.eq_dec r l), csize.
    split; [| split; [| split; [| split; [right; split; [reflexivity | lia] |
      exists A, C; split; [exact Hbl | split; [exact Hr | now right]]]]]].
    + apply heap_ok_replace with (h := h) (old := [(csize, 0)]) (l := l)
                                 (delta := 0); trivial; cbn [set_mem mem_brk mem
                                 mem_max_addr free_listp]; try lia.
      * unfold total. simpl. lia.
      * now apply Hepi.
      * rewrite <- Hr, Hto. intros a Ha _. now apply Hfr'.
      * rewrite <- Hr. cbn [layout].
        apply Forall_cons; [| apply Forall_nil].
        split; [exact Hcs |]. split; [now right | exact B1].
      * rewrite <- Hr, Hto. cbn [layout]. intros x. split.
        -- intros Hx. apply in_remove in Hx as [Hx Hne]. left. auto.
        -- intros [[Hx Hout] | (sz & [Heq | []])].
           ++ apply in_in_remove; trivial. intros ->. apply Hout.
              word_arith.
           ++ inversion Heq.
    + rewrite Hbl. change ((csize, 0) :: C) with ([(csize, 0)] ++ C).
      apply heap_ok_replace_step with (l := l) (delta := 0); trivial;
        cbn [set_mem mem_brk mem mem_max_addr free_listp heap_listp]; try lia.
      * unfold total. simpl. lia.
      * rewrite <- Hr, Hto. intros a Ha _. now apply Hfr'.
      * intros Hco. apply coalesced_replace with (old := [(csize, 0)]); trivial.
        -- cbn [coalesced hd snd]. repeat split; discriminate.
        -- discriminate.
        -- cbn [hd snd]. discriminate.
        -- cbn [last snd]. discriminate.
      * cbn [layout]. intros x sz [Heq | []]. inversion Heq.
      * rewrite <- Hr. cbn [layout]. intros x sz [Heq | []].
        inversion Heq. reflexivity.
    + rewrite layout_app, in_app_iff. right. rewrite <- Hr. now left.
Qed.

Lemma free_blocks_disjoint h bl l x sz y :
  heap_ok W h bl l ->
  In (x, sz, 0) (layout (free_listp h + 4 * W) bl) ->
  In y l -> y <> x -> ~ (x <= y < x + sz).
Proof.
  intros Hok Hx Hy Hne Hrange.
  pose proof Hok as (_ & _ & _ & Ht & _ & _ & _ & _ & _ & Hiff).
  pose proof (tagged_positive W Hword _ _ Ht) as Hpos.
  apply Hiff in Hy as (sy & Hy).
  pose proof (proj1 (Forall_forall _ _) Hpos _ Hy) as Hp. simpl in Hp.
  destruct (layout_disjoint _ _ _ _ _ _ _ _ Hpos Hx Hy) as [Heq | Hd];
    [inversion Heq; congruence | lia].
Qed.

(** A successful [extend_heap] keeps the invariant and returns a listed
    free block of at least the bytes asked for. *)
Lemma extend_heap_ok h bl l words h1 p :
  heap_ok W h bl l ->
  block_size W (extend_bytes W words) ->
  mem_sbrk h (extend_bytes W words) = Some (h1, p) ->
  let h' := fst (extend_heap W h words) in
  let r := snd (extend_heap W h words) in
  exists bl' l' csize,
    heap_ok W h' bl' l' /\
    heap_step W h bl h' bl' (fun _ => False) (fun _ => False) /\
    In (r, csize, 0) (layout (free_listp h + 4 * W) bl') /\
    extend_bytes W words <= csize /\ 0 < r /\
    mem_brk h' = mem_brk h + extend_bytes W words /\
    r + csize = mem_brk h' /\
    ((bl' = bl ++ [(extend_bytes W words, 0)] /\ l' = r :: l /\
      r = mem_brk h /\ snd (last bl (0, 1)) <> 0) \/
     (exists bl0 psize,
        bl = bl0 ++ [(psize, 0)] /\
        bl' = bl0 ++ [(psize + extend_bytes W words, 0)] /\
        l' = r :: remove Z.eq_dec (mem_brk h - psize) l /\
        r = mem_brk h - psize)).
Proof.
  intros Hok Hsz Hsbrk h' r.
  pose proof Hok as (Af & Hf4 & Hs & Ht & Hb & He & Hbm & Hmx & Hfl & Hiff).
  destruct (total_aligned W Hword _ _ _ Ht) as [Hta Ht0].
  destruct (heap_ok_last W Hword _ _ _ Hok)
    as (psize & pa & Hdec & Hps & Hpa & Hpf & Hph & Hp0 & Hpfree).
  set (size := extend_bytes W words) in *.
  set (brk := mem_brk h) in *. set (flp := free_listp h) in *.
  assert (Hlow : forall a, brk - W <= a -> ~ link_word W (flp :: l) a).
  { apply (heap_ok_epilogue_clear _ _ _ Hok). }
  unfold mem_sbrk in Hsbrk.
  destruct ((0 <=? size) && (mem_brk h + size <=? mem_max_addr h)) eqn:Hc;
    [| discriminate].
  apply andb_prop in Hc as [Hc1 Hc2].
  apply Z.leb_le in Hc1, Hc2. fold brk in Hc2.
  inversion Hsbrk; subst h1 p. clear Hsbrk.
  assert (Abrk : aligned W brk) by (unfold brk; word_arith).
  subst h' r. unfold extend_heap. fold size. unfold mem_sbrk.
  fold brk. rewrite (proj2 (Z.leb_le 0 size)), (proj2 (Z.leb_le _ _) Hc2)
    by assumption.
  cbn [andb mem free_listp]. fold flp.
  set (m := mem h) in *.
  set (m1 := PUT m (HDRP W brk) (PACK size 0)).
  assert (F1 : FTRP W m1 brk = brk + size - DSIZE W).
  { unfold FTRP.
    rewrite GET_SIZE_PACK with (s := size) (a := 0);
      first [ reflexivity | exact Hword | apply upd_same | now left
            | word_arith ]. }
  rewrite F1. set (m2 := PUT m1 (brk + size - DSIZE W) (PACK size 0)).
  assert (N2 : NEXT_BLKP W m2 brk = brk + size).
  { assert (Hv : m2 (HDRP W brk) = PACK size 0).
    { unfold m2, m1, PUT. rewrite upd_other by word_arith. apply upd_same. }
    unfold NEXT_BLKP. fold (HDRP W brk).
    rewrite GET_SIZE_PACK with (s := size) (a := 0);
      first [ reflexivity | exact Hword | exact Hv | now left | word_arith ]. }
  rewrite N2. set (m3 := PUT m2 (HDRP W (brk + size)) (PACK 0 1)).
  assert (Hfl3 : free_list W m3 flp l).
  { repeat apply free_list_put; trivial; apply Hlow; word_arith. }
  assert (V3 : forall a, a < brk - W -> m3 a = m a).
  { intros a Ha. unfold m3, m2, m1, PUT.
    rewrite !upd_other; trivial; word_arith. }
  assert (B3 : block_at W m3 brk size 0).
  { split; unfold m3, m2, m1, PUT.
    - rewrite !upd_other by word_arith. apply upd_same.
    - rewrite upd_other by word_arith. apply upd_same. }
  assert (Pf3 : m3 (brk - DSIZE W) = PACK psize pa).
  { rewrite V3; trivial. word_arith. }
  assert (Ph3 : m3 (HDRP W (brk - psize)) = PACK psize pa).
  { rewrite V3; trivial. word_arith. }
  assert (Pin : pa = 0 -> In (brk - psize) l).
  { intros ->. now apply Hpfree. }
  assert (Nm : 0 mod DSIZE W = 0) by word_arith.
  assert (Nh3 : m3 (HDRP W (brk + size)) = PACK 0 1) by apply upd_same.
  assert (Nx : 1 = 0 -> block_size W 0 /\
                 m3 (brk + size + 0 - DSIZE W) = PACK 0 0 /\
                 In (brk + size) l) by discriminate.
  assert (Hhi : brk + size + 0 + 1 < modulus W) by lia.
  assert (Hsep :
    forall a,
      (if pa =? 0 then brk - psize - W else brk - W) <= a <
      (if 1 =? 0 then brk + size + 0 - W else brk + size - W) ->
      link_word W (flp :: l) a ->
      (pa = 0 /\ (a = brk - psize \/ a = brk - psize + W)) \/
      (1 = 0 /\ (a = brk + size \/ a = brk + size + W))).
  { cbn [Z.eqb]. intros a Ha Hl. left.
    destruct Hpa as [-> | ->]; cbn [Z.eqb] in Ha.
    + split; trivial. apply Hpfree; trivial. lia.
    + exfalso. apply (Hlow a); trivial. lia. }
  destruct (coalesce_spec W Hword m3 flp l brk size psize pa 0 1 Hfl3 Abrk Hsz
              B3 Hps Hpa Pf3 Ph3 Pin Nm (Z.le_refl 0) (or_intror eq_refl)
              Nh3 Nx (Z.lt_le_incl _ _ Hp0) Hhi Hsep) as (Hr & Hblk & Hfl' & Hfr').
  clear Hsep Nx.
  cbn [Z.eqb] in *.
  destruct (coalesce W flp m3 brk) as [m4 r]. cbn [fst snd] in *.
  set (hnew := set_mem _ m4).
  assert (Hepi : mem hnew (HDRP W (mem_brk hnew)) = PACK 0 1).
  { cbn [hnew set_mem mem mem_brk]. fold brk. rewrite Hfr'.
    - exact Nh3.
    - destruct (pa =? 0); unfold HDRP; lia.
    - apply Hlow. unfold HDRP. word_arith. }
  destruct Hpa as [-> | ->]; cbn [Z.eqb] in *.
  - (* the last block was free: it is merged *)
    destruct Hdec as [(_ & _ & Habs) | (bl0 & Hbl)]; [discriminate |].
    destruct (Hpfree eq_refl) as [Hpin _].
    assert (Hpl : In (brk - psize, psize, 0) (layout (flp + 4 * W) bl)).
    { rewrite Hbl, layout_app, in_app_iff. right. left.
      rewrite Hb, Hbl, total_app.
      change (total [(psize, 0)]) with (psize + 0). f_equal. f_equal. lia. }
    assert (Hbase : flp + 4 * W + total bl0 = brk - psize).
    { rewrite Hb, Hbl, total_app.
      change (total [(psize, 0)]) with (psize + 0). lia. }
    exists (bl0 ++ [(psize + size, 0)] ++ []),
           (r :: remove Z.eq_dec (brk - psize) l), (psize + size).
    split; [| split; [| split; [| split; [word_arith | split; [lia |
      split; [reflexivity |
      split; [cbn [hnew set_mem mem_brk]; fold brk; lia |
      right; exists bl0, psize; repeat split; trivial; lia]]]]]]].
    + apply heap_ok_replace with (h := h) (old := [(psize, 0)]) (l := l)
                                 (delta := size);
        cbn [hnew set_mem mem_brk mem mem_max_addr free_listp];
        fold brk flp m; trivial; try lia.
      * rewrite app_nil_r. now rewrite <- Hbl.
      * unfold total. simpl. lia.
      * now right.
      * rewrite Hbase. change (total [(psize, 0)]) with (psize + 0).
        intros a Ha Ha' Hl. rewrite Hfr', V3; trivial; lia.
      * rewrite Hbase. cbn [layout]. apply Forall_cons; [| apply Forall_nil].
        replace (brk - psize) with r by lia.
        replace (brk + size - W - (brk - psize - W)) with (psize + size)
          in Hblk by lia.
        split; [word_arith |]. split; [now left | exact Hblk].
      * rewrite Hbase. change (total [(psize, 0)]) with (psize + 0).
        cbn [layout]. intros x. split.
        -- intros [<- | Hx].
           ++ right. exists (psize + size). left. f_equal. f_equal. lia.
           ++ apply in_remove in Hx as [Hx Hne]. left. split; [exact Hx |].
              rewrite Z.add_0_r.
              now apply (free_blocks_disjoint _ _ _ _ _ _ Hok Hpl).
        -- intros [[Hx Hout] | (sz & [Heq | []])].
           ++ right. apply in_in_remove; trivial. intros ->. apply Hout.
              word_arith.
           ++ inversion Heq. left. lia.
    + rewrite Hbl. replace [(psize, 0)] with ([(psize, 0)] ++ [])
        by apply app_nil_r.
      apply heap_ok_replace_step with (l := l) (delta := size);
        cbn [hnew set_mem mem_brk mem mem_max_addr free_listp heap_listp];
        fold brk flp m; trivial; try lia.
      * rewrite app_nil_r. now rewrite <- Hbl.
      * unfold total. simpl. lia.
      * now right.
      * rewrite Hbase. change (total [(psize, 0)]) with (psize + 0).
        intros a Ha Ha' Hl. rewrite Hfr', V3; trivial; lia.
      * intros Hco.
        apply coalesced_replace with (old := [(psize, 0)]); trivial.
        -- cbn [coalesced hd snd]. repeat split; discriminate.
        -- discriminate.
        -- apply coalesced_app in Hco as (_ & _ & Hco). exact Hco.
        -- cbn [hd snd]. discriminate.
      * cbn [layout]. intros x sz [Heq | []]. inversion Heq.
      * cbn [layout]. intros x sz [Heq | []]. inversion Heq.
    + rewrite layout_app, in_app_iff. right. left.
      rewrite Hbase. f_equal. f_equal. lia.
  - (* the last block is allocated: a new block is appended *)
    assert (Hlast : snd (last bl (0, 1)) <> 0).
    { destruct Hdec as [(-> & _) | (bl0 & ->)]; [discriminate |].
      rewrite last_last. discriminate. }
    exists (bl ++ [(size, 0)] ++ []), (r :: l), size.
    split; [| split; [| split; [| split; [word_arith | split; [word_arith |
      split; [reflexivity |
      split; [cbn [hnew set_mem mem_brk]; fold brk; lia |
      left; repeat split; trivial; lia]]]]]]].
    + apply heap_ok_replace with (h := h) (old := []) (l := l)
                                 (delta := size);
        cbn [hnew set_mem mem_brk mem mem_max_addr free_listp];
        fold brk flp m; trivial; try lia.
      * now rewrite !app_nil_r.
      * unfold total. simpl. lia.
      * now right.
      * change (total []) with 0. rewrite <- Hb. fold brk.
        intros a Ha Ha' Hl. rewrite Hfr', V3; trivial; lia.
      * rewrite <- Hb. fold brk. cbn [layout].
        apply Forall_cons; [| apply Forall_nil].
        replace brk with r at 1 by lia.
        replace (brk + size - W - (brk - W)) with size in Hblk by lia.
        split; [exact Hsz |]. split; [now left | exact Hblk].
      * rewrite <- Hb. fold brk. change (total []) with 0. cbn [layout].
        intros x. split.
        -- intros [<- | Hx].
           ++ right. exists size. left. f_equal. f_equal. lia.
           ++ left. split; [exact Hx | lia].
        -- intros [[Hx _] | (sz & [Heq | []])].
           ++ now right.
           ++ inversion Heq. left. lia.
    + assert (Hst : heap_step W h (bl ++ [] ++ []) hnew
                      (bl ++ [(size, 0)] ++ []) (fun _ => False)
                      (fun _ => False)).
      { apply heap_ok_replace_step with (l := l) (delta := size);
          cbn [hnew set_mem mem_brk mem mem_max_addr free_listp heap_listp];
          fold brk flp m; trivial; try lia.
        * now rewrite !app_nil_r.
        * unfold total. simpl. lia.
        * now right.
        * change (total []) with 0. rewrite <- Hb. fold brk.
          intros a Ha Ha' Hl. rewrite Hfr', V3; trivial; lia.
        * intros Hco. apply coalesced_replace with (old := []); trivial.
          -- cbn [coalesced hd snd]. repeat split; discriminate.
          -- discriminate.
          -- intros Hl0. now elim Hlast.
          -- cbn [hd snd]. discriminate.
        * cbn [layout]. intros x sz [Heq | []]. inversion Heq. }
      cbn [app] in Hst. now rewrite app_nil_r in Hst.
    + rewrite layout_app, in_app_iff. right. left.
      rewrite <- Hb. fold brk. f_equal. f_equal. lia.
Qed.

(** [mm_init] on a region whose break is double-word aligned and that
    has room for the prelude and the first chunk succeeds and establishes
    the invariant. *)
Lemma mm_init_ok h :
  0 <= mem_brk h -> mem_brk h mod DSIZE W = 0 ->
  mem_brk h + 8 * W + CHUNKSIZE <= mem_max_addr h ->
  mem_max_addr h + 1 < modulus W ->
  snd (mm_init W h) = 0 /\
  heap_wf W (fst (mm_init W h)) [(CHUNKSIZE, 0)] [mem_brk h + 8 * W] /\
  free_listp (fst (mm_init W h)) = mem_brk h + 4 * W /\
  mem_brk (fst (mm_init W h)) = mem_brk h + 8 * W + CHUNKSIZE /\
  mem_max_addr (fst (mm_init W h)) = mem_max_addr h.
Proof.
  intros H0 Hal Hroom Hmax.
  unfold CHUNKSIZE in *. change (Z.shiftl 1 12) with 4096 in *.
  assert (Hw8 : wrap W (8 * W) = 8 * W).
  { apply wrap_small. word_arith. }
  cut (exists h3, mm_init W h = (h3, 0) /\
         heap_wf W h3 [(4096, 0)] [mem_brk h + 8 * W] /\
         free_listp h3 = mem_brk h + 4 * W /\
         mem_brk h3 = mem_brk h + 8 * W + 4096 /\
         mem_max_addr h3 = mem_max_addr h).
  { intros (h3 & -> & Hex). split; [reflexivity | exact Hex]. }
  unfold mm_init. unfold CHUNKSIZE. change (Z.shiftl 1 12) with 4096.
  rewrite Hw8. unfold mem_sbrk at 1.
  assert (Hc : (0 <=? 8 * W) && (mem_brk h + 8 * W <=? mem_max_addr h) = true).
  { apply andb_true_intro. split; apply Z.leb_le; word_arith. }
  rewrite Hc. clear Hc. cbn [mem mem_brk mem_max_addr].
  set (p := mem_brk h) in *.
  match goal with
  | |- context [extend_heap W ?x _] => set (h2 := x)
  end.
  assert (Hok2 : heap_ok W h2 [] []).
  { unfold heap_ok, h2. cbn [mem free_listp mem_brk mem_max_addr layout].
    unfold PUT, block_at, HDRP.
    split; [word_arith |]. split; [word_arith |].
    split.
    { split.
      - rewrite !upd_other by word_arith.
        replace (p + 4 * W - W) with (p + 3 * W) by lia. apply upd_same.
      - rewrite !upd_other by word_arith.
        replace (p + 4 * W + 4 * W - DSIZE W) with (p + 6 * W)
          by (unfold DSIZE; lia).
        apply upd_same. }
    split; [apply Forall_nil |].
    split; [change (total []) with 0; lia |].
    split.
    { replace (p + 8 * W - W) with (p + 7 * W) by lia. apply upd_same. }
    split; [word_arith |]. split; [exact Hmax |].
    split.
    { split; [| split].
      - split; unfold next_of, prev_of, GET.
        + rewrite !upd_other by word_arith.
          replace (p + 4 * W + W) with (p + 5 * W) by lia. apply upd_same.
        + rewrite !upd_other by word_arith. apply upd_same.
      - apply NoDup_cons; [intros [] | apply NoDup_nil].
      - intros x [<- | []]. word_arith. }
    intros x. split; [intros [] | intros (sz & [])]. }
  assert (Hb : extend_bytes W (4096 / W) = 4096).
  { apply (extend_bytes_even W Hword); word_arith. }
  assert (Hsb : mem_sbrk h2 (extend_bytes W (4096 / W)) =
                Some (mkHeap (mem h2) (heap_listp h2) (free_listp h2)
                        (mem_brk h2 + 4096) (mem_max_addr h2), mem_brk h2)).
  { rewrite Hb. unfold mem_sbrk.
    assert (Hc : (0 <=? 4096) && (mem_brk h2 + 4096 <=? mem_max_addr h2) = true).
    { apply andb_true_intro. split; apply Z.leb_le;
        unfold h2; cbn [mem_brk mem_max_addr]; lia. }
    now rewrite Hc. }
  assert (Hbs : block_size W (extend_bytes W (4096 / W))).
  { rewrite Hb. word_arith. }
  assert (Hpro2 : prologue_ok W h2).
  { unfold prologue_ok, h2. cbn [mem free_listp heap_listp].
    unfold PUT, HDRP, DSIZE.
    split; [lia |]. split.
    - rewrite !upd_other by word_arith.
      replace (p + 2 * W - W) with (p + 1 * W) by lia. apply upd_same.
    - rewrite !upd_other by word_arith. apply upd_same. }
  destruct (extend_heap_ok h2 [] [] (4096 / W) _ _ Hok2 Hbs Hsb)
    as (bl' & l' & csize & Hok' & Hst & _ & _ & Hr & Hbrk & _ & Hshape).
  rewrite Hb in Hbrk, Hshape.
  destruct (extend_heap W h2 (4096 / W)) as [h3 bp]. cbn [fst snd] in *.
  assert (Hn : (bp =? NULL) = false) by (apply Z.eqb_neq; unfold NULL; lia).
  rewrite Hn. exists h3. split; [reflexivity |].
  destruct Hshape as [(-> & -> & Hbp & _) | (bl0 & psize & Habs & _)];
    [| now destruct bl0].
  cbn [app] in *. unfold h2 in Hbp. cbn [mem_brk] in Hbp. subst bp.
  pose proof Hst as (F & _ & M & _).
  split; [| split; [exact F | split; [exact Hbrk | exact M]]].
  split; [exact Hok' |]. split.
  - now apply (heap_step_prologue W h2 [] h3 [(4096, 0)] (fun _ => False)
                 (fun _ => False)).
  - cbn [coalesced hd snd]. repeat split; discriminate.
Qed.

(** Two entries of the layout with the same address are the same block. *)
Lemma heap_ok_same_block h bl l x s1 a1 s2 a2 :
  heap_ok W h bl l ->
  In (x, s1, a1) (layout (free_listp h + 4 * W) bl) ->
  In (x, s2, a2) (layout (free_listp h + 4 * W) bl) ->
  s1 = s2 /\ a1 = a2.
Proof.
  intros Hok H1 H2.
  pose proof Hok as (_ & _ & _ & Ht & _).
  pose proof (tagged_positive W Hword _ _ Ht) as Hpos.
  pose proof (proj1 (Forall_forall _ _) Hpos _ H1) as P1.
  pose proof (proj1 (Forall_forall _ _) Hpos _ H2) as P2. simpl in P1, P2.
  destruct (layout_disjoint _ _ _ _ _ _ _ _ Hpos H1 H2) as [Heq | Hd];
    [inversion Heq; auto | lia].
Qed.

(** [mm_malloc] keeps the invariant and every allocated block; a block
    it returns is an allocated block of the heap, of at least the adjusted
    size, that was not allocated before.  It returns [NULL] only when no
    listed block fits and the region cannot grow, and then the heap is as
    it was. *)
Lemma mm_malloc_ok h bl l n fuel :
  heap_ok W h bl l ->
  0 < n -> n + 2 * DSIZE W - 1 < modulus W ->
  (length l < fuel)%nat ->
  exists h' r bl' l',
    mm_malloc W fuel h n = Some (h', r) /\
    heap_ok W h' bl' l' /\
    heap_step W h bl h' bl' (fun _ => False) (fun x => x = r) /\
    (r <> NULL ->
     exists s, In (r, s, 1) (layout (free_listp h + 4 * W) bl') /\
               adjust W n <= s /\
               (forall x sz,
                  In (x, sz, 1) (layout (free_listp h + 4 * W) bl) ->
                  x <> r) /\
               ((exists x, In x l /\
                           adjust W n <= GET_SIZE W (mem h) (HDRP W x)) \/
                mem_brk h + MAX (adjust W n) CHUNKSIZE <= mem_max_addr h)) /\
    (r = NULL ->
     h' = h /\
     (forall x, In x l -> GET_SIZE W (mem h) (HDRP W x) < adjust W n) /\
     mem_max_addr h < mem_brk h + MAX (adjust W n) CHUNKSIZE).
Proof.
  intros Hok Hn Hlt Hfuel.
  destruct (adjust_block_size W Hword n Hn Hlt) as [Has Halt].
  set (asize := adjust W n) in *.
  pose proof Hok as (Af & Hf4 & Hs & Ht & Hb & He & Hbm & Hmx & Hfl & Hiff).
  destruct (heap_ok_alloc_bits W Hword _ _ _ Hok) as [Hfree Hsent].
  destruct (find_fit_loop_spec W (mem h) (free_listp h) asize l (free_listp h)
              fuel (proj1 Hfl) Hfree Hsent Hfuel) as (r & Hr & Hcase).
  fold (find_fit W fuel (free_listp h) (mem h) asize) in Hr.
  unfold mm_malloc. fold asize.
  assert (Hn0 : (n <=? 0) = false) by (apply Z.leb_gt; lia).
  rewrite Hn0, Hr.
  destruct Hcase as [[-> Hall] | (l1 & l2 & Hl & Hge & Hlt1)].
  - (* no fit: extend the heap *)
    cbn [NULL Z.eqb negb].
    set (ext := MAX asize CHUNKSIZE).
    assert (Hext : block_size W ext /\ asize <= ext /\ ext + 1 < modulus W).
    { unfold ext, MAX, CHUNKSIZE. change (Z.shiftl 1 12) with 4096.
      destruct (asize >? 4096) eqn:Hc.
      - repeat split; trivial; try apply Has; lia.
      - assert (asize <= 4096)
          by (rewrite Z.gtb_ltb in Hc; apply Z.ltb_ge in Hc; lia).
        unfold modulus. word_arith. }
    destruct Hext as (Hes & Hae & Helt).
    assert (Hbytes : extend_bytes W (ext / W) = ext).
    { apply (extend_bytes_even W Hword); [apply Hes | word_arith]. }
    destruct (mem_sbrk h (extend_bytes W (ext / W))) as [[h1 p] |] eqn:Hsb.
    + pose proof (extend_heap_ok h bl l (ext / W) h1 p Hok) as Hx.
      rewrite Hbytes in Hx. specialize (Hx Hes). rewrite Hbytes in Hsb.
      specialize (Hx Hsb). cbv zeta in Hx.
      destruct Hx as (bl2 & l2 & csize & Hok2 & Hst2 & Hin2 & Hle & Hr0 & _).
      destruct (extend_heap W h (ext / W)) as [h2 r] eqn:Hex.
      cbn [fst snd] in *.
      pose proof Hst2 as (Hflp & _).
      assert (Hrn : (r =? NULL) = false) by (apply Z.eqb_neq; unfold NULL; lia).
      rewrite Hrn. rewrite <- Hflp in Hin2.
      destruct (place_ok h2 bl2 l2 r csize asize Hok2 Hin2 Has)
        as (bl3 & l3 & s & Hok3 & Hst3 & Hin3 & Hs3); [lia |].
      exists (set_mem h2 (place W (free_listp h2) (mem h2) r asize)), r, bl3, l3.
      split; [reflexivity |]. split; [exact Hok3 |].
      split; [now apply heap_step_trans with (h1 := h2) (bl1 := bl2) |].
      split.
      * intros _. exists s. rewrite <- Hflp.
        split; [exact Hin3 |]. split; [lia |]. split.
        -- intros x sz Hx ->. destruct Hst2 as (_ & _ & _ & _ & _ & K & _).
           rewrite Hflp in Hx. destruct (K r sz Hx (fun f => f)) as [Hx2 _].
           destruct (heap_ok_same_block _ _ _ _ _ _ _ _ Hok2 Hin2 Hx2).
           discriminate.
        -- right. unfold mem_sbrk in Hsb.
           destruct ((0 <=? ext) && (mem_brk h + ext <=? mem_max_addr h))
             eqn:Hc; [| discriminate].
           apply andb_prop in Hc as [_ Hc]. now apply Z.leb_le in Hc.
      * intros ->. unfold NULL in Hr0. lia.
    + rewrite Hbytes in Hsb.
      assert (Hex : extend_heap W h (ext / W) = (h, NULL)).
      { unfold extend_heap. now rewrite Hbytes, Hsb. }
      rewrite Hex. cbn [NULL Z.eqb]. exists h, 0, bl, l.
      split; [reflexivity |]. split; [exact Hok |].
      split; [apply heap_step_refl |].
      split; [intros Habs; now elim Habs |].
      intros _. split; [reflexivity |]. split; [exact Hall |].
      unfold mem_sbrk in Hsb.
      destruct ((0 <=? ext) && (mem_brk h + ext <=? mem_max_addr h)) eqn:Hc;
        [discriminate |].
      apply andb_false_iff in Hc as [Hc | Hc]; [apply Z.leb_gt in Hc |
        apply Z.leb_gt in Hc]; [word_arith | lia].
  - (* first fit *)
    assert (Hin : In r l) by (rewrite Hl, in_app_iff; right; now left).
    destruct (proj1 (Hiff r) Hin) as (csize & Hrl).
    destruct (heap_ok_block W Hword _ _ _ _ _ Hok Hrl)
      as (_ & Hcs & Hblk & Hlo & Hhi & Hsep).
    assert (Hclt : csize + 1 < modulus W /\ 0 < r).
    { clear -Hlo Hhi Hbm Hmx Hf4 Hword. word_arith. }
    assert (Hsz : GET_SIZE W (mem h) (HDRP W r) = csize).
    { rewrite GET_SIZE_PACK with (s := csize) (a := 0);
        first [ reflexivity | exact Hword | apply Hblk | apply Hcs
              | apply Hclt | now left | word_arith ]. }
    rewrite Hsz in Hge.
    assert (Hrn : (r =? NULL) = false) by (apply Z.eqb_neq; unfold NULL; lia).
    rewrite Hrn. cbn [negb].
    destruct (place_ok h bl l r csize asize Hok Hrl Has Hge)
      as (bl3 & l3 & s & Hok3 & Hst3 & Hin3 & Hs3).
    exists (set_mem h (place W (free_listp h) (mem h) r asize)), r, bl3, l3.
    split; [reflexivity |]. split; [exact Hok3 |]. split; [exact Hst3 |].
    split.
    + intros _. exists s. split; [exact Hin3 |]. split; [lia |]. split.
      * intros x sz Hx ->.
        destruct (heap_ok_same_block _ _ _ _ _ _ _ _ Hok Hrl Hx). discriminate.
      * left. exists r. split; [exact Hin |]. now rewrite Hsz.
    + intros ->. unfold NULL in Hclt. lia.
Qed.

(** When a block of the free list is large enough, [mm_malloc] places the
    request in the first such block and does not grow the heap. *)
Lemma mm_malloc_fit h bl l n fuel :
  heap_ok W h bl l ->
  0 < n -> n + 2 * DSIZE W - 1 < modulus W ->
  (length l < fuel)%nat ->
  (exists x, In x l /\ adjust W n <= GET_SIZE W (mem h) (HDRP W x)) ->
  exists r csize,
    In (r, csize, 0) (layout (free_listp h + 4 * W) bl) /\
    adjust W n <= csize /\ r <> NULL /\
    mm_malloc W fuel h n =
    Some (set_mem h (place W (free_listp h) (mem h) r (adjust W n)), r).
Proof.
  intros Hok Hn Hlt Hfuel (x0 & Hx0 & Hfit0).
  destruct (adjust_block_size W Hword n Hn Hlt) as [Has Halt].
  set (asize := adjust W n) in *.
  pose proof Hok as (Af & Hf4 & Hs & Ht & Hb & He & Hbm & Hmx & Hfl & Hiff).
  destruct (heap_ok_alloc_bits W Hword _ _ _ Hok) as [Hfree Hsent].
  destruct (find_fit_loop_spec W (mem h) (free_listp h) asize l (free_listp h)
              fuel (proj1 Hfl) Hfree Hsent Hfuel) as (r & Hr & Hcase).
  fold (find_fit W fuel (free_listp h) (mem h) asize) in Hr.
  unfold mm_malloc. fold asize.
  assert (Hn0 : (n <=? 0) = false) by (apply Z.leb_gt; lia).
  rewrite Hn0, Hr.
  destruct Hcase as [[-> Hall] | (l1 & l2 & Hl & Hge & Hlt1)].
  - specialize (Hall x0 Hx0). lia.
  - assert (Hin : In r l) by (rewrite Hl, in_app_iff; right; now left).
    destruct (proj1 (Hiff r) Hin) as (csize & Hrl).
    destruct (heap_ok_block W Hword _ _ _ _ _ Hok Hrl)
      as (_ & Hcs & Hblk & Hlo & Hhi & Hsep).
    assert (Hclt : csize + 1 < modulus W /\ 0 < r).
    { clear -Hlo Hhi Hbm Hmx Hf4 Hword. word_arith. }
    assert (Hsz : GET_SIZE W (mem h) (HDRP W r) = csize).
    { rewrite GET_SIZE_PACK with (s := csize) (a := 0);
        first [ reflexivity | exact Hword | apply Hblk | apply Hcs
              | apply Hclt | now left | word_arith ]. }
    rewrite Hsz in Hge.
    assert (Hrn : (r =? NULL) = false) by (apply Z.eqb_neq; unfold NULL; lia).
    rewrite Hrn. cbn [negb].
    exists r, csize. split; [exact Hrl |]. split; [exact Hge |].
    split; [unfold NULL; lia | reflexivity].
Qed.

(** The block before and the block after a block of the layout. *)
Lemma heap_ok_prev h l A0 sz a C0 :
  heap_ok W h (A0 ++ (sz, a) :: C0) l ->
  let bp := free_listp h + 4 * W + total A0 in
  exists psize pa Apre,
    block_size W psize /\ bit pa /\
    mem h (bp - DSIZE W) = PACK psize pa /\
    mem h (HDRP W (bp - psize)) = PACK psize pa /\
    0 < bp - psize /\
    A0 = Apre ++ (if pa =? 0 then [(psize, 0)] else []) /\
    snd (last A0 (0, 1)) = pa /\
    (pa = 0 ->
     In (bp - psize, psize, 0)
        (layout (free_listp h + 4 * W) (A0 ++ (sz, a) :: C0))).
Proof.
  intros Hok bp.
  pose proof Hok as (Af & Hf4 & Hs & Ht & Hb & He & Hbm & Hmx & Hfl & Hiff).
  destruct A0 as [| b0 A0'] using rev_ind.
  - exists (4 * W), 1, []. subst bp. change (total []) with 0.
    destruct Hs as [Hh Hft].
    replace (free_listp h + 4 * W + 0 - DSIZE W)
      with (free_listp h + 4 * W - DSIZE W) by lia.
    replace (free_listp h + 4 * W + 0 - 4 * W) with (free_listp h) by lia.
    split; [word_arith |]. split; [now right |].
    split; [exact Hft |]. split; [exact Hh |]. split; [word_arith |].
    split; [reflexivity |]. split; [reflexivity | discriminate].
  - clear IHA0'. destruct b0 as [psize pa].
    assert (Hbp : bp - psize = free_listp h + 4 * W + total A0').
    { subst bp. rewrite total_app. change (total [(psize, pa)]) with (psize + 0).
      lia. }
    assert (Hl : In (bp - psize, psize, pa)
                   (layout (free_listp h + 4 * W)
                      ((A0' ++ [(psize, pa)]) ++ (sz, a) :: C0))).
    { rewrite <- app_assoc, layout_app, in_app_iff. right. left.
      now rewrite Hbp. }
    pose proof (proj1 (Forall_forall _ _) Ht _ Hl) as (Hps & Hpa & Hh & Hft).
    replace (bp - psize + psize - DSIZE W) with (bp - DSIZE W) in Hft by lia.
    assert (0 < bp - psize).
    { apply tagged_positive in Ht; trivial.
      apply (layout_bounds _ _ _ _ _ Ht) in Hl. word_arith. }
    exists psize, pa, (if pa =? 0 then A0' else A0' ++ [(psize, pa)]).
    split; [exact Hps |]. split; [exact Hpa |]. split; [exact Hft |].
    split; [exact Hh |]. split; [assumption |]. split.
    + destruct Hpa as [-> | ->]; cbn [Z.eqb]; [reflexivity |].
      now rewrite app_nil_r.
    + split; [now rewrite last_last |]. intros ->. exact Hl.
Qed.

Lemma heap_ok_next h l A0 sz a C0 :
  heap_ok W h (A0 ++ (sz, a) :: C0) l ->
  let bp := free_listp h + 4 * W + total A0 in
  exists nsize na Cpost,
    nsize mod DSIZE W = 0 /\ 0 <= nsize /\ bit na /\
    mem h (HDRP W (bp + sz)) = PACK nsize na /\
    bp + sz + nsize <= mem_brk h /\
    C0 = (if na =? 0 then [(nsize, 0)] else []) ++ Cpost /\
    snd (hd (0, 1) C0) = na /\
    (na = 0 ->
     block_size W nsize /\
     mem h (bp + sz + nsize - DSIZE W) = PACK nsize 0 /\
     In (bp + sz, nsize, 0)
        (layout (free_listp h + 4 * W) (A0 ++ (sz, a) :: C0))).
Proof.
  intros Hok bp.
  pose proof Hok as (Af & Hf4 & Hs & Ht & Hb & He & Hbm & Hmx & Hfl & Hiff).
  destruct C0 as [| [nsize na] C1].
  - exists 0, 1, [].
    assert (Hbrk : bp + sz = mem_brk h).
    { rewrite Hb, total_app. change (total [(sz, a)]) with (sz + 0).
      subst bp. lia. }
    rewrite Hbrk.
    split; [apply Z.mod_0_l; word_arith |]. split; [lia |].
    split; [now right |]. split; [exact He |]. split; [lia |].
    split; [reflexivity |]. split; [reflexivity | discriminate].
  - assert (Hl : In (bp + sz, nsize, na)
                   (layout (free_listp h + 4 * W)
                      (A0 ++ (sz, a) :: (nsize, na) :: C1))).
    { rewrite layout_app, in_app_iff. right. right. now left. }
    pose proof (proj1 (Forall_forall _ _) Ht _ Hl) as (Hns & Hna & Hh & Hft).
    assert (bp + sz + nsize <= mem_brk h).
    { apply tagged_positive in Ht; trivial.
      apply (layout_bounds _ _ _ _ _ Ht) in Hl. lia. }
    exists nsize, na, (if na =? 0 then C1 else (nsize, na) :: C1).
    split; [apply Hns |]. split; [word_arith |]. split; [exact Hna |].
    split; [exact Hh |]. split; [assumption |]. split.
    + destruct Hna as [-> | ->]; reflexivity.
    + split; [reflexivity |]. intros ->. auto.
Qed.

(** [mm_free] on an allocated block of the heap keeps the invariant and
    every other allocated block; the freed bytes end up in one free block
    that heads the free list. *)
Lemma mm_free_ok h bl l bp size :
  heap_ok W h bl l ->
  In (bp, size, 1) (layout (free_listp h + 4 * W) bl) ->
  exists bl' l' r fsize,
    heap_ok W (mm_free W h bp) bl' (r :: l') /\
    heap_step W h bl (mm_free W h bp) bl' (fun x => x = bp)
      (fun _ => False) /\
    In (r, fsize, 0) (layout (free_listp h + 4 * W) bl') /\
    r <= bp /\ bp + size <= r + fsize /\
    mem_brk (mm_free W h bp) = mem_brk h /\
    (r = bp \/
     exists psize, In (r, psize, 0) (layout (free_listp h + 4 * W) bl) /\
                   r + psize = bp) /\
    exists Apre oldP oldN Cpost,
      bl = Apre ++ oldP ++ (size, 1) :: oldN ++ Cpost /\
      bp = free_listp h + 4 * W + total (Apre ++ oldP) /\
      bl' = Apre ++ (total oldP + size + total oldN, 0) :: Cpost /\
      (oldP = [] \/ exists ps, oldP = [(ps, 0)]) /\
      (oldN = [] \/ exists ns, oldN = [(ns, 0)]) /\
      (oldP = [] -> snd (last Apre (0, 1)) <> 0) /\
      (oldN = [] -> snd (hd (0, 1) Cpost) <> 0).
Proof.
  intros Hok Hin.
  pose proof Hok as (Af & Hf4 & Hs & Ht & Hb & He & Hbm & Hmx & Hfl & Hiff).
  pose proof (tagged_positive W Hword _ _ Ht) as Hpos.
  pose proof (proj1 (Forall_forall _ _) Ht _ Hin) as (Hsz & _ & Hh & Hf).
  destruct (layout_bounds _ _ _ _ _ Hpos Hin) as [Hlo Hhi]. rewrite <- Hb in Hhi.
  destruct (heap_ok_tags _ _ _ _ _ _ Hok Hin) as [T1 T2].
  destruct (layout_split _ _ _ _ _ Hin) as (A0 & C0 & Hbl & Hbp).
  subst bl.
  destruct (heap_ok_prev _ _ _ _ _ _ Hok)
    as (psize & pa & Apre & Hps & Hpa & Hpf & Hph & Hp0 & HA & HlA & Hpl).
  destruct (heap_ok_next _ _ _ _ _ _ Hok)
    as (nsize & na & Cpost & Hnm & Hn0 & Hna & Hnh & Hnb & HC & HhC & Hnl).
  cbv zeta in *. rewrite <- Hbp in *.
  set (start := free_listp h + 4 * W) in *.
  set (flp := free_listp h) in *. set (m := mem h) in *.
  assert (Abp : aligned W bp).
  { pose proof Ht as Ht'. rewrite layout_app in Ht'.
    apply Forall_app in Ht' as [HtA _].
    destruct (total_aligned W Hword _ _ _ HtA). rewrite Hbp. unfold start.
    word_arith. }
  assert (Hbig : bp + size + nsize + 1 < modulus W) by lia.
  (* the two stores of mm_free *)
  assert (S0 : GET_SIZE W m (HDRP W bp) = size).
  { rewrite GET_SIZE_PACK with (s := size) (a := 1);
      first [ reflexivity | exact Hword | exact Hh | now right | word_arith ]. }
  assert (Hnull : (bp =? NULL) = false).
  { apply Z.eqb_neq. unfold NULL. unfold start in Hlo. word_arith. }
  unfold mm_free. rewrite Hnull. fold m flp. rewrite S0.
  set (m1 := PUT m (HDRP W bp) (PACK size 0)).
  assert (F1 : FTRP W m1 bp = bp + size - DSIZE W).
  { unfold FTRP.
    rewrite GET_SIZE_PACK with (s := size) (a := 0);
      first [ reflexivity | exact Hword | apply upd_same | now left
            | word_arith ]. }
  rewrite F1. set (m2 := PUT m1 (bp + size - DSIZE W) (PACK size 0)).
  assert (Hfl2 : free_list W m2 flp l).
  { apply free_list_put; [apply free_list_put |]; trivial. }
  assert (V2 : forall a, a <> HDRP W bp -> a <> bp + size - DSIZE W ->
                 m2 a = m a).
  { intros a H1 H2. unfold m2, m1, PUT. now rewrite !upd_other. }
  assert (B2 : block_at W m2 bp size 0).
  { split; unfold m2, m1, PUT.
    - rewrite upd_other by word_arith. apply upd_same.
    - apply upd_same. }
  assert (Pf2 : m2 (bp - DSIZE W) = PACK psize pa).
  { rewrite V2; trivial; word_arith. }
  assert (Ph2 : m2 (HDRP W (bp - psize)) = PACK psize pa).
  { rewrite V2; trivial; word_arith. }
  assert (Nh2 : m2 (HDRP W (bp + size)) = PACK nsize na).
  { rewrite V2; trivial; word_arith. }
  assert (Pin : pa = 0 -> In (bp - psize) l).
  { intros Ez. apply Hiff. exists psize. now apply Hpl. }
  assert (Nx2 : na = 0 -> block_size W nsize /\
                 m2 (bp + size + nsize - DSIZE W) = PACK nsize 0 /\
                 In (bp + size) l).
  { intros Ez. destruct (Hnl Ez) as (H1 & H2 & H3). split; [exact H1 |]. split.
    - rewrite V2; trivial; word_arith.
    - apply Hiff. now exists nsize. }
  set (lo := if pa =? 0 then bp - psize - W else bp - W).
  set (hi := if na =? 0 then bp + size + nsize - W else bp + size - W).
  assert (LH : lo + W <= bp /\ bp + size <= hi + W) 
    by (unfold lo, hi; destruct (pa =? 0), (na =? 0); word_arith).
  assert (HH : hi + W <= mem_brk h).
  { unfold hi. destruct (na =? 0); lia. }
  assert (Hlo3 : flp + 3 * W <= lo).
  { unfold lo. destruct Hpa as [-> | ->]; cbn [Z.eqb].
    - specialize (Hpl eq_refl).
      apply (layout_bounds _ _ _ _ _ Hpos) in Hpl. unfold start in Hpl. lia.
    - unfold start in Hlo. lia. }
  (* where the free blocks of the old heap lie *)
  assert (Where : forall y, In y l ->
            (y + 2 * DSIZE W <= lo + W \/ hi + W <= y) \/
            (pa = 0 /\ y = bp - psize) \/ (na = 0 /\ y = bp + size)).
  { intros y Hy. apply Hiff in Hy as (sy & Hy).
    pose proof (proj1 (Forall_forall _ _) Ht _ Hy) as ((_ & Hsy) & _).
    destruct (layout_disjoint _ _ _ _ _ _ _ _ Hpos Hin Hy) as [Heq | [Hd | Hd]];
      [inversion Heq | |].
    - (* after the block *)
      unfold hi. destruct Hna as [-> | ->]; cbn [Z.eqb]; [| left; right; word_arith].
      destruct (Hnl eq_refl) as (_ & _ & Hn).
      destruct (layout_disjoint _ _ _ _ _ _ _ _ Hpos Hn Hy) as [Heq | Hd'].
      + inversion Heq. right. right. auto.
      + left. right. word_arith.
    - (* before the block *)
      unfold lo. destruct Hpa as [-> | ->]; cbn [Z.eqb]; [| left; left; word_arith].
      specialize (Hpl eq_refl).
      destruct (layout_disjoint _ _ _ _ _ _ _ _ Hpos Hpl Hy) as [Heq | Hd'].
      + inversion Heq. right. left. auto.
      + left. left. word_arith. }
  assert (Hsep : forall a, lo <= a < hi -> link_word W (flp :: l) a ->
            (pa = 0 /\ (a = bp - psize \/ a = bp - psize + W)) \/
            (na = 0 /\ (a = bp + size \/ a = bp + size + W))).
  { intros a Ha (y & Hy & Hay).
    destruct Hy as [<- | Hy].
    - exfalso. clear - Hlo3 Ha Hay Hword. word_arith.
    - destruct (Where y Hy) as [Hout | [[Ez ->] | [Ez ->]]].
      + exfalso. clear - Hout Ha Hay Hword. word_arith.
      + left. split; [exact Ez | lia].
      + right. split; [exact Ez | lia]. }
  destruct (coalesce_spec W Hword m2 flp l bp size psize pa nsize na Hfl2 Abp
              Hsz B2 Hps Hpa Pf2 Ph2 Pin Hnm Hn0 Hna Nh2 Nx2
              (Z.lt_le_incl _ _ Hp0) Hbig Hsep) as (Hr & Hblk & Hfl' & Hfr).
  fold lo hi in Hr, Hblk, Hfr.
  set (l1 := if pa =? 0 then remove Z.eq_dec (bp - psize) l else l) in *.
  set (l2 := if na =? 0 then remove Z.eq_dec (bp + size) l1 else l1) in *.
  destruct (coalesce W flp m2 bp) as [m' r]. cbn [fst snd] in *.
  set (oldP := if pa =? 0 then [(psize, 0)] else []) in *.
  set (oldN := if na =? 0 then [(nsize, 0)] else []) in *.
  assert (Hlist : A0 ++ (size, 1) :: C0 =
                  Apre ++ (oldP ++ [(size, 1)] ++ oldN) ++ Cpost).
  { rewrite HA, HC. rewrite <- !app_assoc. reflexivity. }
  assert (Hbase : start + total Apre = lo + W).
  { assert (Ht0 : total A0 = total Apre + total oldP).
    { rewrite HA. apply total_app. }
    unfold oldP, lo, total in *. destruct (pa =? 0); simpl in *; lia. }
  assert (Hold : total (oldP ++ [(size, 1)] ++ oldN) = hi - lo).
  { rewrite !total_app. unfold oldP, oldN, hi, lo, total.
    destruct (pa =? 0), (na =? 0); simpl; lia. }
  assert (Hms : block_size W (hi - lo)).
  { assert (Hns : na = 0 -> block_size W nsize) by (intros Ez; now apply Hnl).
    unfold hi, lo. clear - Hword Hsz Hps Hns Hnm Hn0.
    destruct (na =? 0) eqn:Ena;
      [apply Z.eqb_eq in Ena; specialize (Hns Ena) | clear Hns];
      destruct (pa =? 0); word_arith. }
  unfold start in Hbase.
  assert (Hframe : forall a,
            ~ (lo + W - W <= a < lo + W + (hi - lo) - W) ->
            a < mem_brk h - W ->
            ~ link_word W (flp :: l) a -> m' a = m a).
  { intros a Ha Ha' Hl.
    assert (Wpos : 0 < W) by (destruct Hword; lia).
    rewrite Hfr, V2; trivial;
      first [ lia | clear - Hsz LH Ha Hword; word_arith ]. }
  assert (Hwhere : r = bp \/
            exists ps, In (r, ps, 0)
                         (layout start (A0 ++ (size, 1) :: C0)) /\
                       r + ps = bp).
  { rewrite Hr. unfold lo. destruct Hpa as [-> | ->]; cbn [Z.eqb].
    - right. exists psize.
      replace (bp - psize - W + W) with (bp - psize) by lia.
      split; [now apply Hpl | lia].
    - left. lia. }
  assert (Hshape : exists Apre' oldP' oldN' Cpost',
            A0 ++ (size, 1) :: C0 =
              Apre' ++ oldP' ++ (size, 1) :: oldN' ++ Cpost' /\
            bp = free_listp h + 4 * W + total (Apre' ++ oldP') /\
            Apre ++ [(hi - lo, 0)] ++ Cpost =
              Apre' ++ (total oldP' + size + total oldN', 0) :: Cpost' /\
            (oldP' = [] \/ exists ps, oldP' = [(ps, 0)]) /\
            (oldN' = [] \/ exists ns, oldN' = [(ns, 0)]) /\
            (oldP' = [] -> snd (last Apre' (0, 1)) <> 0) /\
            (oldN' = [] -> snd (hd (0, 1) Cpost') <> 0)).
  { exists Apre, oldP, oldN, Cpost.
    split; [rewrite Hlist; now rewrite <- !app_assoc |].
    split; [rewrite Hbp; fold oldP in HA; now rewrite <- HA |].
    split.
    { cbn [app]. do 3 f_equal. rewrite <- Hold, !total_app.
      change (total [(size, 1)]) with (size + 0). lia. }
    split; [unfold oldP; destruct (pa =? 0); [right; now exists psize |
                                              now left] |].
    split; [unfold oldN; destruct (na =? 0); [right; now exists nsize |
                                              now left] |].
    split.
    - unfold oldP in *. destruct Hpa as [-> | ->]; cbn [Z.eqb] in *;
        [discriminate |].
      intros _. rewrite app_nil_r in HA. subst A0. rewrite HlA. discriminate.
    - unfold oldN in *. destruct Hna as [-> | ->]; cbn [Z.eqb app] in *;
        [discriminate |].
      intros _. subst C0. rewrite HhC. discriminate. }
  exists (Apre ++ [(hi - lo, 0)] ++ Cpost), l2, r, (hi - lo).
  split; [| split; [| split; [| split; [lia | split; [lia |
    split; [reflexivity | split; [exact Hwhere | exact Hshape]]]]]]].
  - apply heap_ok_replace with (h := h) (old := oldP ++ [(size, 1)] ++ oldN)
                               (l := l) (delta := 0);
      cbn [set_mem mem mem_brk mem_max_addr free_listp]; fold start flp m;
      trivial; try lia.
    + now rewrite <- Hlist.
    + rewrite Hold. unfold total. simpl. lia.
    + assert (Wpos : 0 < W) by (destruct Hword; lia).
      rewrite Hfr, V2; trivial.
      * clear - Hsz Hhi Hword. word_arith.
      * clear - Hsz Hhi Hword. word_arith.
      * unfold HDRP. lia.
      * apply (heap_ok_epilogue_clear _ _ _ Hok). unfold HDRP. lia.
    + rewrite Hbase, Hold. exact Hframe.
    + rewrite Hbase. cbn [layout]. apply Forall_cons; [| apply Forall_nil].
      rewrite <- Hr. split; [exact Hms |]. split; [now left | exact Hblk].
    + rewrite Hbase, Hold. cbn [layout]. intros x. split.
      * intros [<- | Hx].
        -- right. exists (hi - lo). left. now rewrite Hr.
        -- left.
           assert (Hxl : In x l /\ (pa = 0 -> x <> bp - psize) /\
                         (na = 0 -> x <> bp + size)).
           { unfold l2, l1 in Hx.
             destruct Hpa as [-> | ->], Hna as [-> | ->]; cbn [Z.eqb] in Hx;
               repeat match type of Hx with
               | In _ (remove _ _ _) => apply in_remove in Hx as [Hx ?]
               end; repeat split; trivial; try discriminate; congruence. }
           destruct Hxl as (Hxl & Hx1 & Hx2). split; [exact Hxl |].
           destruct (Where x Hxl) as [Hout | [[Ez ->] | [Ez ->]]].
           ++ clear - Hout Hword. word_arith.
           ++ now elim (Hx1 Ez).
           ++ now elim (Hx2 Ez).
      * intros [[Hx Hout] | (sz & [Heq | []])].
        -- right. unfold l2, l1.
           assert (Hx1 : pa = 0 -> x <> bp - psize).
           { intros Ez ->. apply Hout. unfold lo, hi. rewrite Ez. cbn [Z.eqb].
             destruct (na =? 0); word_arith. }
           assert (Hx2 : na = 0 -> x <> bp + size).
           { intros Ez ->. apply Hout. unfold lo, hi. rewrite Ez. cbn [Z.eqb].
             assert (block_size W nsize) by (now apply Hnl).
             destruct (pa =? 0); word_arith. }
           destruct Hpa as [-> | ->], Hna as [-> | ->]; cbn [Z.eqb];
             repeat (apply in_in_remove; auto); assumption.
        -- inversion Heq. left. lia.
  - rewrite Hlist.
    apply heap_ok_replace_step with (l := l) (delta := 0);
      cbn [set_mem mem mem_brk mem_max_addr free_listp heap_listp];
      fold start flp m; trivial; try lia.
    + now rewrite <- Hlist.
    + rewrite Hold. unfold total. simpl. lia.
    + rewrite Hbase, Hold. exact Hframe.
    + intros Hco.
      assert (HcA : snd (last Apre (0, 1)) <> 0).
      { destruct Hpa as [-> | ->]; cbn [Z.eqb] in *.
        - unfold oldP in Hco. cbn [Z.eqb] in Hco.
          apply coalesced_app in Hco as (_ & _ & Hco).
          intros Hl0. now apply (Hco Hl0).
        - rewrite app_nil_r in HA. subst A0. rewrite HlA. discriminate. }
      assert (HcC : snd (hd (0, 1) Cpost) <> 0).
      { destruct Hna as [-> | ->]; cbn [Z.eqb] in *.
        - unfold oldN in Hco. cbn [Z.eqb] in Hco.
          rewrite !app_assoc in Hco.
          apply coalesced_app in Hco as (_ & _ & Hco).
          apply Hco. now rewrite last_last.
        - unfold oldN in HC. cbn [Z.eqb app] in HC. subst C0. rewrite HhC.
          discriminate. }
      apply coalesced_replace with (old := oldP ++ [(size, 1)] ++ oldN);
        trivial.
      * cbn [coalesced hd snd]. repeat split; discriminate.
      * discriminate.
      * intros Hl0. now elim HcA.
    + rewrite Hbase. intros x sz Hx.
      rewrite layout_app, in_app_iff in Hx. cbn [app layout] in Hx.
      assert (Hmid : lo + W + total oldP = bp).
      { unfold oldP, lo, total. destruct (pa =? 0); simpl; lia. }
      destruct Hx as [Hx | [Hx | Hx]].
      * unfold oldP in Hx. destruct (pa =? 0); [| now destruct Hx].
        destruct Hx as [Heq | []]. inversion Heq.
      * inversion Hx. lia.
      * unfold oldN in Hx. destruct (na =? 0); [| now destruct Hx].
        destruct Hx as [Heq | []]. inversion Heq.
    + rewrite Hbase. cbn [layout]. intros x sz [Heq | []]. inversion Heq.
  - rewrite layout_app, in_app_iff. right. left.
    unfold start. rewrite Hbase. now rewrite Hr.
Qed.

End Preservation.

Section Realloc.

Variable W : Z.
Hypothesis Hword : word_size W.

Ltac word_arith :=
  unfold aligned, block_size, bit, DSIZE, HDRP, modulus in *;
  destruct Hword as [E | E]; rewrite E in *; lia.

(** The two in-place paths of [mm_realloc] keep the invariant and return
    the pointer they were given: the block is large enough already, or it
    absorbs the free block that follows it. *)
Lemma mm_realloc_in_place_ok h bl l ptr oldsize size fuel :
  heap_ok W h bl l ->
  In (ptr, oldsize, 1) (layout (free_listp h + 4 * W) bl) ->
  size <> 0 ->
  let m := mem h in
  let asize := realloc_asize W size in
  let esize := wrap W (oldsize + GET_SIZE W m (HDRP W (NEXT_BLKP W m ptr))) in
  asize <= oldsize \/
  (GET_ALLOC m (HDRP W (NEXT_BLKP W m ptr)) = 0 /\ asize <= esize) ->
  exists h' bl' l' s,
    mm_realloc W fuel h ptr size = Some (h', ptr) /\ heap_ok W h' bl' l' /\
    heap_step W h bl h' bl' (fun x => x = ptr) (fun x => x = ptr) /\
    In (ptr, s, 1) (layout (free_listp h + 4 * W) bl') /\
    oldsize <= s /\ asize <= s /\
    (forall a, ptr <= a < ptr + oldsize - DSIZE W -> mem h' a = mem h a) /\
    (asize <= oldsize -> h' = h).
Proof.
  intros Hok Hin Hs m asize esize Hpath.
  pose proof Hok as (Af & Hf4 & Hs' & Ht & Hb & He & Hbm & Hmx & Hfl & Hiff).
  pose proof (tagged_positive W Hword _ _ Ht) as Hpos.
  pose proof (proj1 (Forall_forall _ _) Ht _ Hin) as (Hsz & _ & Hh & Hf).
  destruct (layout_bounds _ _ _ _ _ Hpos Hin) as [Hlo Hhi]. rewrite <- Hb in Hhi.
  assert (S0 : GET_SIZE W m (HDRP W ptr) = oldsize).
  { rewrite GET_SIZE_PACK with (s := oldsize) (a := 1);
      first [ reflexivity | exact Hword | exact Hh | now right | word_arith ]. }
  assert (Hnull : (ptr =? NULL) = false).
  { apply Z.eqb_neq. unfold NULL. word_arith. }
  unfold mm_realloc. fold asize m. apply Z.eqb_neq in Hs. rewrite Hs, Hnull, S0.
  destruct (asize <=? oldsize) eqn:Hfits.
  { apply Z.leb_le in Hfits. exists h, bl, l, oldsize.
    split; [reflexivity |]. split; [exact Hok |].
    split; [apply heap_step_refl |]. split; [exact Hin |].
    repeat split; trivial; lia. }
  apply Z.leb_gt in Hfits.
  destruct Hpath as [Hle | [Hna Hle]]; [lia |].
  fold esize. rewrite Hna. cbn [Z.eqb andb].
  assert (Hge : (esize >=? asize) = true) by (rewrite Z.geb_leb; now apply Z.leb_le).
  rewrite Hge.
  (* the block that follows *)
  destruct (layout_split _ _ _ _ _ Hin) as (A0 & C0 & Hbl & Hptr). subst bl.
  destruct (heap_ok_next W Hword _ _ _ _ _ _ Hok)
    as (nsize & na & Cpost & Hnm & Hn0 & Hnab & Hnh & Hnb & HC & _ & Hnl).
  cbv zeta in *. rewrite <- Hptr in *. fold m in Hnh, Hnl.
  assert (N0 : NEXT_BLKP W m ptr = ptr + oldsize).
  { unfold NEXT_BLKP. fold (HDRP W ptr). now rewrite S0. }
  rewrite N0 in *.
  assert (Ena : na = 0).
  { rewrite (GET_ALLOC_PACK W Hword) with (s := nsize) (a := na) in Hna;
      trivial. }
  subst na. cbn [Z.eqb] in HC. destruct (Hnl eq_refl) as (Hns & Hnf & Hnin).
  set (n := ptr + oldsize) in *.
  assert (NS : GET_SIZE W m (HDRP W n) = nsize).
  { rewrite GET_SIZE_PACK with (s := nsize) (a := 0);
      first [ reflexivity | exact Hword | exact Hnh | now left | word_arith ]. }
  assert (Hes : esize = oldsize + nsize).
  { unfold esize. rewrite N0, NS. apply wrap_small; trivial. unfold n in *.
    word_arith. }
  rewrite Hes in *. clear esize Hes Hge.
  destruct (heap_ok_block W Hword _ _ _ _ _ Hok Hnin)
    as (Hnl' & _ & Hnblk & _ & _ & Hnsep).
  destruct (heap_ok_tags W Hword _ _ _ _ _ _ Hok Hin) as [T1 T2].
  destruct (heap_ok_tags W Hword _ _ _ _ _ _ Hok Hnin) as [T3 T4].
  destruct (free_list_remove W Hword _ _ _ _ Hfl Hnl') as [Hfl1 Hfr1].
  fold m in Hfl1, Hfr1. set (flp := free_listp h) in *.
  set (m1 := remove_free W m n) in *.
  set (m2 := PUT m1 (HDRP W ptr) (PACK (oldsize + nsize) 1)).
  assert (F2 : FTRP W m2 ptr = ptr + (oldsize + nsize) - DSIZE W).
  { unfold FTRP.
    rewrite GET_SIZE_PACK with (s := oldsize + nsize) (a := 1);
      first [ reflexivity | exact Hword | apply upd_same | now right
            | unfold n in *; word_arith ]. }
  rewrite F2.
  set (m3 := PUT m2 (ptr + (oldsize + nsize) - DSIZE W)
                 (PACK (oldsize + nsize) 1)).
  assert (Hrem : forall a, link_word W (flp :: remove Z.eq_dec n l) a ->
                   link_word W (flp :: l) a /\ a <> n /\ a <> n + W).
  { intros a Hl. apply (link_word_remove W Hword) in Hl; trivial.
    - intros Heq. destruct Hfl as (_ & ND & _).
      apply NoDup_cons_iff in ND. rewrite Heq in Hnl'. tauto.
    - apply Hfl. now right.
    - apply Hfl. }
  assert (Hfl3 : free_list W m3 flp (remove Z.eq_dec n l)).
  { apply free_list_put; [apply free_list_put |]; trivial.
    - intros Hl. apply Hrem in Hl as (Hl & _). exact (T1 Hl).
    - intros Hl. apply Hrem in Hl as (Hl & _).
      replace (ptr + (oldsize + nsize) - DSIZE W)
        with (n + nsize - DSIZE W) in Hl by (unfold n; lia).
      exact (T4 Hl). }
  assert (Hlist : A0 ++ (oldsize, 1) :: C0 =
                  A0 ++ [(oldsize, 1); (nsize, 0)] ++ Cpost).
  { rewrite HC. reflexivity. }
  assert (Hto : total [(oldsize, 1); (nsize, 0)] = oldsize + nsize).
  { unfold total. simpl. lia. }
  assert (V3 : forall a, ~ (ptr - W <= a < ptr + (oldsize + nsize) - W) ->
                 ~ link_word W (flp :: l) a -> m3 a = m a).
  { intros a Ha Hl. unfold m3, m2, PUT.
    rewrite !upd_other by word_arith. now apply Hfr1. }
  exists (set_mem h m3), (A0 ++ [(oldsize + nsize, 1)] ++ Cpost),
         (remove Z.eq_dec n l), (oldsize + nsize).
  split; [reflexivity |].
  split; [| split; [| split; [| split; [word_arith | split; [lia | split;
                                                              [| lia]]]]]].
  - apply heap_ok_replace with (h := h) (old := [(oldsize, 1); (nsize, 0)])
                               (l := l) (delta := 0);
      cbn [set_mem mem mem_brk mem_max_addr free_listp]; fold flp m;
      trivial; try lia.
    + now rewrite <- Hlist.
    + rewrite Hto. unfold total. simpl. lia.
    + rewrite V3; trivial.
      * unfold n, HDRP in *. lia.
      * apply (heap_ok_epilogue_clear W Hword _ _ _ Hok). unfold HDRP. lia.
    + rewrite <- Hptr, Hto. intros a Ha _ Hl. now apply V3.
    + rewrite <- Hptr. cbn [layout]. apply Forall_cons; [| apply Forall_nil].
      split; [word_arith |]. split; [now right |]. split; unfold m3, m2, PUT.
      * rewrite upd_other by word_arith. apply upd_same.
      * apply upd_same.
    + rewrite <- Hptr, Hto. cbn [layout]. intros x. split.
      * intros Hx. apply in_remove in Hx as [Hx Hne]. left. split; [exact Hx |].
        apply Hiff in Hx as (sx & Hx).
        pose proof (proj1 (Forall_forall _ _) Hpos _ Hx) as Hp. simpl in Hp.
        destruct (layout_disjoint _ _ _ _ _ _ _ _ Hpos Hin Hx) as [Heq | Hd];
          [inversion Heq |].
        destruct (layout_disjoint _ _ _ _ _ _ _ _ Hpos Hnin Hx) as [Heq | Hd'];
          [inversion Heq; congruence |].
        unfold n in *. lia.
      * intros [[Hx Hout] | (sz & [Heq | []])].
        -- apply in_in_remove; trivial. intros ->. apply Hout. unfold n.
           word_arith.
        -- inversion Heq.
  - rewrite Hlist.
    apply heap_ok_replace_step with (l := l) (delta := 0);
      cbn [set_mem mem mem_brk mem_max_addr free_listp heap_listp];
      fold flp m; trivial; try lia.
    + now rewrite <- Hlist.
    + rewrite Hto. unfold total. simpl. lia.
    + rewrite <- Hptr, Hto. intros a Ha _ Hl. now apply V3.
    + intros Hco.
      apply coalesced_replace with (old := [(oldsize, 1); (nsize, 0)]);
        trivial.
      * cbn [coalesced hd snd]. repeat split; discriminate.
      * discriminate.
      * cbn [hd snd]. discriminate.
      * cbn [last snd]. discriminate.
    + rewrite <- Hptr. cbn [layout]. intros x sz [Heq | [Heq | []]];
        inversion Heq. reflexivity.
    + rewrite <- Hptr. cbn [layout]. intros x sz [Heq | []].
      inversion Heq. reflexivity.
  - rewrite layout_app, in_app_iff. right. left. now rewrite <- Hptr.
  - cbn [set_mem mem]. intros a Ha. unfold m3, m2, PUT.
    rewrite !upd_other by word_arith. apply Hfr1.
    apply (heap_ok_payload_clear W Hword _ _ _ _ _ Hok Hin). word_arith.
Qed.

End Realloc.

(** ** The consistency checker *)

Section CheckerProofs.

Variable W : Z.
Hypothesis Hword : word_size W.

Ltac word_arith :=
  unfold aligned, block_size, bit, DSIZE, HDRP, modulus in *;
  destruct Hword as [E | E]; rewrite E in *; lia.

Lemma checkblock_tagged m bp sz a :
  aligned W bp -> 0 <= sz -> sz mod DSIZE W = 0 -> sz + 1 < modulus W ->
  bit a -> block_at W m bp sz a -> checkblock W m bp = [].
Proof.
  intros Al H0 Hm Hlt Ha [Hh Hf]. unfold checkblock, FTRP, GET.
  rewrite (GET_SIZE_PACK W Hword) with (s := sz) (a := a); trivial.
  unfold aligned in Al. rewrite Al, Hh, Hf, !Z.eqb_refl. reflexivity.
Qed.

(** The blocks of a layout, as the loop of [checkheap] meets them. *)
Lemma checkheap_loop_layout pb verbose m (out : Z * Z * Z -> list report) bl :
  forall p fuel,
  Forall (tagged W m) (layout p bl) -> aligned W p ->
  p + total bl + 1 < modulus W -> 0 <= p ->
  m (HDRP W (p + total bl)) = PACK 0 1 ->
  (verbose = true -> forall b, In b (layout p bl) ->
                     pb (fst (fst b)) = Some (out b)) ->
  (length bl < fuel)%nat ->
  checkheap_loop W fuel pb verbose m p =
  Some (flat_map (fun b => if verbose then out b else []) (layout p bl),
        p + total bl).
Proof.
  induction bl as [| [sz a] bl IH]; intros p fuel Ht Al Hlt Hp He Hpb Hfuel;
    (destruct fuel as [| fuel]; [simpl in Hfuel; lia |]).
  - change (total []) with 0 in *. rewrite Z.add_0_r in *.
    cbn [checkheap_loop layout flat_map].
    rewrite (GET_SIZE_PACK W Hword) with (s := 0) (a := 1); trivial;
      first [ reflexivity | lia | now right | word_arith ].
  - cbn [layout] in Ht. apply Forall_cons_iff in Ht as [(Hs & Ha & Hb) Ht].
    change (total ((sz, a) :: bl)) with (sz + total bl) in *.
    destruct (total_aligned W Hword _ _ _ Ht) as [Hta Ht0].
    assert (Hsz : GET_SIZE W m (HDRP W p) = sz).
    { apply (GET_SIZE_PACK W Hword) with (a := a); trivial;
        first [ apply Hb | apply Hs | word_arith ]. }
    cbn [checkheap_loop layout flat_map]. rewrite Hsz.
    assert (Hgt : (sz >? 0) = true) by (apply Z.gtb_lt; word_arith).
    rewrite Hgt.
    assert (Hn : NEXT_BLKP W m p = p + sz).
    { unfold NEXT_BLKP. fold (HDRP W p). now rewrite Hsz. }
    rewrite Hn.
    rewrite (IH (p + sz) fuel); trivial.
    + rewrite (checkblock_tagged m p sz a); trivial; try word_arith.
      destruct verbose.
      * pose proof (Hpb eq_refl (p, sz, a) (or_introl eq_refl)) as Hq.
        cbn [fst] in Hq. rewrite Hq. cbn [bind app]. do 2 f_equal. lia.
      * cbn [bind app]. do 2 f_equal. lia.
    + word_arith.
    + lia.
    + word_arith.
    + now rewrite <- Z.add_assoc.
    + intros Hv b Hin. apply Hpb; trivial. now right.
    + simpl in Hfuel. lia.
Qed.

(** The same blocks, as [heap_walk] lists them. *)
Lemma heap_walk_layout m bl : forall p fuel,
  Forall (tagged W m) (layout p bl) ->
  p + total bl + 1 < modulus W -> 0 <= p ->
  m (HDRP W (p + total bl)) = PACK 0 1 ->
  (length bl < fuel)%nat ->
  heap_walk W fuel m p = layout p bl.
Proof.
  induction bl as [| [sz a] bl IH]; intros p fuel Ht Hlt Hp He Hfuel;
    (destruct fuel as [| fuel]; [simpl in Hfuel; lia |]).
  - change (total []) with 0 in *. rewrite Z.add_0_r in *.
    cbn [heap_walk layout].
    rewrite (GET_SIZE_PACK W Hword) with (s := 0) (a := 1); trivial;
      first [ reflexivity | lia | now right | word_arith ].
  - cbn [layout] in Ht. apply Forall_cons_iff in Ht as [(Hs & Ha & Hb) Ht].
    change (total ((sz, a) :: bl)) with (sz + total bl) in *.
    destruct (total_aligned W Hword _ _ _ Ht) as [Hta Ht0].
    assert (Hsz : GET_SIZE W m (HDRP W p) = sz).
    { apply (GET_SIZE_PACK W Hword) with (a := a); trivial;
        first [ apply Hb | apply Hs | word_arith ]. }
    assert (Hal : GET_ALLOC m (HDRP W p) = a).
    { apply (GET_ALLOC_PACK W Hword) with (s := sz); trivial;
        first [ apply Hb | apply Hs ]. }
    cbn [heap_walk layout]. rewrite Hsz, Hal.
    assert (Hgt : (sz >? 0) = true) by (apply Z.gtb_lt; word_arith).
    rewrite Hgt. unfold NEXT_BLKP. fold (HDRP W p). rewrite Hsz.
    f_equal. apply IH; trivial.
    + lia.
    + word_arith.
    + now rewrite <- Z.add_assoc.
    + simpl in Hfuel. lia.
Qed.

(** On a well-formed heap the loop of [checkheap] meets the prologue, the
    sentinel block and the blocks of the layout, finds nothing to report,
    and stops at the break. *)
Lemma checkheap_loop_heap pb verbose (out : Z * Z * Z -> list report)
  h bl l fuel :
  heap_ok W h bl l -> prologue_ok W h ->
  (verbose = true ->
   forall b, In b ((heap_listp h, DSIZE W, 1)
                   :: layout (free_listp h) ((4 * W, 1) :: bl)) ->
             pb (fst (fst b)) = Some (out b)) ->
  (length bl + 2 < fuel)%nat ->
  checkheap_loop W fuel pb verbose (mem h) (heap_listp h) =
  Some (flat_map (fun b => if verbose then out b else [])
          ((heap_listp h, DSIZE W, 1)
           :: layout (free_listp h) ((4 * W, 1) :: bl)),
        mem_brk h).
Proof.
  intros Hok (Hhl & Hph & Hpf) Hpb Hfuel.
  pose proof Hok as (Af & Hf4 & Hs & Ht & Hb & He & Hbm & Hmx & Hfl & Hiff).
  destruct (total_aligned W Hword _ _ _ Ht) as [Hta Ht0].
  destruct fuel as [| fuel]; [lia |].
  set (hl := heap_listp h) in *. set (flp := free_listp h) in *.
  set (m := mem h) in *.
  assert (Hsz : GET_SIZE W m (HDRP W hl) = DSIZE W).
  { apply (GET_SIZE_PACK W Hword) with (a := 1); trivial;
      first [ now right | word_arith ]. }
  assert (Hnx : NEXT_BLKP W m hl = flp).
  { unfold NEXT_BLKP. fold (HDRP W hl). rewrite Hsz. lia. }
  assert (Hcb : checkblock W m hl = []).
  { apply checkblock_tagged with (sz := DSIZE W) (a := 1);
      first [ now right | word_arith | idtac ].
    split; [exact Hph |].
    replace (hl + DSIZE W - DSIZE W) with hl by lia. exact Hpf. }
  cbn [checkheap_loop flat_map]. rewrite Hsz.
  assert (Hgt : (DSIZE W >? 0) = true) by (apply Z.gtb_lt; word_arith).
  rewrite Hgt, Hnx, Hcb.
  assert (Htot : flp + total ((4 * W, 1) :: bl) = mem_brk h).
  { change (total ((4 * W, 1) :: bl)) with (4 * W + total bl). lia. }
  rewrite (checkheap_loop_layout pb verbose m out ((4 * W, 1) :: bl) flp fuel).
  - rewrite Htot. destruct verbose.
    + pose proof (Hpb eq_refl (hl, DSIZE W, 1) (or_introl eq_refl)) as Hq.
      cbn [fst] in Hq. rewrite Hq. reflexivity.
    + reflexivity.
  - cbn [layout]. apply Forall_cons; [| exact Ht].
    split; [word_arith |]. split; [now right | exact Hs].
  - exact Af.
  - rewrite Htot. clear -Hbm Hmx. lia.
  - clear -Hf4 Hword. word_arith.
  - rewrite Htot. exact He.
  - intros Hv b Hin. apply Hpb; trivial. now right.
  - simpl. lia.
Qed.

Lemma checkheap_with_quiet pb h bl l fuel :
  heap_ok W h bl l -> prologue_ok W h ->
  (length bl + 2 < fuel)%nat ->
  checkheap_with W pb fuel false h = Some [].
Proof.
  intros Hok Hpro Hfuel. unfold checkheap_with.
  rewrite (checkheap_loop_heap pb false (fun _ => []) h bl l fuel Hok Hpro)
    by (trivial; discriminate).
  destruct Hpro as (Hhl & Hph & Hpf).
  pose proof Hok as (Af & Hf4 & Hs & Ht & Hb & He & Hbm & Hmx & Hfl & Hiff).
  cbn [bind].
  rewrite (GET_SIZE_PACK W Hword) with (s := DSIZE W) (a := 1); trivial;
    first [ now right | word_arith | idtac ].
  rewrite (GET_ALLOC_PACK W Hword) with (s := DSIZE W) (a := 1); trivial;
    first [ now right | word_arith | idtac ].
  rewrite (GET_SIZE_PACK W Hword) with (s := 0) (a := 1); trivial;
    first [ now right | word_arith | idtac ].
  rewrite (GET_ALLOC_PACK W Hword) with (s := 0) (a := 1); trivial;
    first [ now right | word_arith | idtac ].
  rewrite !Z.eqb_refl. cbn [negb orb Z.eqb app].
  rewrite checkblock_tagged with (sz := DSIZE W) (a := 1);
    first [ now right | word_arith | idtac ].
  - cbn [app]. clear. induction (layout _ _); simpl; trivial.
  - split; [exact Hph |].
    replace (heap_listp h + DSIZE W - DSIZE W) with (heap_listp h) by lia.
    exact Hpf.
Qed.

Lemma printblock_block h bl l fuel x sz a :
  heap_ok W h bl l -> prologue_ok W h ->
  (length bl + 2 < fuel)%nat ->
  0 < sz -> sz mod DSIZE W = 0 -> sz + 1 < modulus W -> bit a ->
  block_at W (mem h) x sz a ->
  printblock W fuel h x = Some [block_line (x, sz, a)].
Proof.
  intros Hok Hpro Hfuel H0 Hm Hlt Ha [Hh Hf]. unfold printblock.
  rewrite (checkheap_with_quiet _ h bl l fuel Hok Hpro Hfuel). cbn [bind app].
  assert (Hsz : GET_SIZE W (mem h) (HDRP W x) = sz).
  { apply (GET_SIZE_PACK W Hword) with (a := a); trivial. lia. }
  unfold FTRP. rewrite Hsz.
  rewrite (GET_SIZE_PACK W Hword) with (p := x + sz - DSIZE W) (s := sz) (a := a);
    trivial; try lia.
  rewrite !(GET_ALLOC_PACK W Hword) with (s := sz) (a := a); trivial.
  assert (Hne : (sz =? 0) = false) by (apply Z.eqb_neq; lia).
  now rewrite Hne.
Qed.

Lemma printblock_end h bl l fuel :
  heap_ok W h bl l -> prologue_ok W h ->
  (length bl + 2 < fuel)%nat ->
  printblock W fuel h (mem_brk h) = Some [EndOfHeap (mem_brk h)].
Proof.
  intros Hok Hpro Hfuel. unfold printblock.
  rewrite (checkheap_with_quiet _ h bl l fuel Hok Hpro Hfuel). cbn [bind app].
  pose proof Hok as (Af & Hf4 & Hs & Ht & Hb & He & Hbm & Hmx & Hfl & Hiff).
  rewrite (GET_SIZE_PACK W Hword) with (s := 0) (a := 1); trivial;
    first [ reflexivity | now right | word_arith ].
Qed.

End CheckerProofs.

(** Without any assumption on the heap: a quiet run of the loop of
    [checkheap] checks the blocks [heap_walk] lists, and stops at the
    first header of size 0. *)
Lemma checkheap_loop_walk W pb m : forall fuel bp,
  checkheap_loop W fuel pb false m bp =
  if (length (heap_walk W fuel m bp) <? fuel)%nat
  then Some (flat_map (fun b => checkblock W m (fst (fst b)))
               (heap_walk W fuel m bp),
             bp + total (sizes_of (heap_walk W fuel m bp)))
  else None.
Proof.
  induction fuel as [| fuel IH]; intros bp; [reflexivity |].
  cbn [checkheap_loop heap_walk].
  destruct (GET_SIZE W m (HDRP W bp) >? 0) eqn:Hgt.
  - rewrite IH. cbn [bind length]. change (S ?a <? S ?b)%nat with (a <? b)%nat.
    destruct (length (heap_walk W fuel m (NEXT_BLKP W m bp)) <? fuel)%nat;
      [| reflexivity].
    cbn [bind app flat_map fst sizes_of map snd].
    change (total ((?s, ?a) :: ?t)) with (s + total t).
    do 2 f_equal. unfold sizes_of, NEXT_BLKP. fold (HDRP W bp). lia.
  - cbn [length flat_map sizes_of map]. change (total []) with 0.
    now rewrite Z.add_0_r.
Qed.

Lemma heap_walk_stops W m : forall fuel bp,
  (length (heap_walk W fuel m bp) < fuel)%nat ->
  (GET_SIZE W m
     (HDRP W (bp + total (sizes_of (heap_walk W fuel m bp)))) >? 0) = false.
Proof.
  induction fuel as [| fuel IH]; intros bp Hlen; [simpl in Hlen; lia |].
  cbn [heap_walk] in *.
  destruct (GET_SIZE W m (HDRP W bp) >? 0) eqn:Hgt.
  - cbn [length sizes_of map fst snd] in *.
    change (total ((?s, ?a) :: ?t)) with (s + total t).
    specialize (IH (NEXT_BLKP W m bp) ltac:(lia)).
    unfold sizes_of, NEXT_BLKP in *. fold (HDRP W bp) in IH.
    now rewrite Z.add_assoc.
  - cbn [sizes_of map]. change (total []) with 0. now rewrite Z.add_0_r.
Qed.

Lemma checkblock_nil W m bp :
  checkblock W m bp = [] <->
  bp mod DSIZE W = 0 /\ m (HDRP W bp) = m (FTRP W m bp).
Proof.
  unfold checkblock, GET.
  destruct (Z.eqb_spec (bp mod DSIZE W) 0) as [H1 | H1];
    destruct (Z.eqb_spec (m (HDRP W bp)) (m (FTRP W m bp))) as [H2 | H2];
    cbn [negb app]; split; try discriminate; tauto.
Qed.

Lemma GET_ALLOC_bit m p : GET_ALLOC m p = 0 \/ GET_ALLOC m p = 1.
Proof. unfold GET_ALLOC. rewrite land_one. lia. Qed.

(** * The claims *)

Ltac in_cases H :=
  simpl in H;
  repeat match type of H with
         | _ \/ _ => destruct H as [H | H]
         | False => contradiction
         end.

(** ** Concrete heaps *)

Lemma init_heap_ok : heap_ok 8 init_heap [(4096, 0)] [65600].
Proof.
  unfold heap_ok.
  change (free_listp init_heap) with 65568.
  change (mem_brk init_heap) with 69696.
  change (mem_max_addr init_heap) with 21037056.
  split; [reflexivity |]. split; [vm_compute; discriminate |].
  split; [split; reflexivity |].
  split.
  { repeat constructor; try reflexivity; vm_compute; discriminate. }
  split; [reflexivity |]. split; [reflexivity |].
  split; [vm_compute; discriminate |]. split; [reflexivity |].
  split.
  { split; [repeat split; reflexivity |]. split.
    - repeat constructor; simpl; intuition discriminate.
    - intros x Hx. in_cases Hx; subst x; reflexivity. }
  intros x. split.
  - intros Hx. in_cases Hx. subst x. exists 4096. now left.
  - intros (sz & Hx). in_cases Hx. inversion Hx. now left.
Qed.

Lemma init_heap_free_list : free_list 8 (mem init_heap) 65568 [65600].
Proof. exact (proj1 (proj2 (proj2 (proj2 (proj2 (proj2 (proj2 (proj2 (proj2
                init_heap_ok))))))))). Qed.

Example init_blocks :
  blocks_of 8 init_heap = [(65552, 16, 1); (65568, 32, 1); (65600, 4096, 0)] /\
  free_blocks_of 8 init_heap = [65600] /\ membership_ok 8 init_heap = true.
Proof. vm_compute. repeat split. Qed.

(** ** C1: free-list membership *)

(** C1 fails on the copy path of [mm_realloc].  After [init],
    [p = malloc(64)], [q = malloc(2000)] the membership invariant holds.
    [realloc(p, 100)] then allocates a new block [r], calls [place] on it
    a second time, and that second [remove_free] on the already spliced
    out [r] unlinks the remainder block that the first [place] had put at
    the head of the list.  When the call returns, the block at 67840
    (1856 bytes) has its allocated bit clear and is not on the free list,
    which holds the old block [p] only. *)
Theorem realloc_copy_loses_free_block :
  match copy_scenario with
  | Some (h2, h3, p, q, r) =>
      p = 65600 /\ q = 65680 /\ r = 67696 /\
      membership_ok 8 h2 = true /\
      blocks_of 8 h3 =
        [(65552, 16, 1); (65568, 32, 1); (65600, 80, 0); (65680, 2016, 1);
         (67696, 144, 1); (67840, 1856, 0)] /\
      free_blocks_of 8 h3 = [65600] /\
      next_of 8 (mem h3) 65600 = free_listp h3 /\
      GET_ALLOC (mem h3) (HDRP 8 67840) = 0 /\
      ~ In 67840 (free_blocks_of 8 h3) /\
      membership_ok 8 h3 = false
  | None => False
  end.
Proof.
  vm_compute. repeat split; try reflexivity. intros [H | []]. discriminate.
Qed.

(** ** C2: the copy path of [mm_realloc] *)

(** [memcpy] of [k] words between ranges that do not overlap. *)
Lemma memcpy_words_spec W k : forall m dst src,
  0 < W ->
  (dst + Z.of_nat k * W <= src \/ src + Z.of_nat k * W <= dst) ->
  forall i, (i < k)%nat ->
    memcpy_words W k m dst src (dst + Z.of_nat i * W) =
    m (src + Z.of_nat i * W).
Proof.
  induction k as [| k IH]; intros m dst src HW Hd i Hi; [lia |].
  cbn [memcpy_words].
  assert (Hout : forall m' a, a < dst + W ->
            memcpy_words W k m' (dst + W) (src + W) a = m' a).
  { clear -HW. revert dst src. induction k as [| k IH]; intros dst src m' a Ha;
      [reflexivity |].
    cbn [memcpy_words]. rewrite IH by lia. unfold PUT. apply upd_other. lia. }
  destruct i as [| i].
  - rewrite Hout by lia. unfold PUT, GET.
    replace (dst + Z.of_nat 0 * W) with dst by lia.
    replace (src + Z.of_nat 0 * W) with src by lia. apply upd_same.
  - replace (dst + Z.of_nat (S i) * W) with (dst + W + Z.of_nat i * W) by lia.
    replace (src + Z.of_nat (S i) * W) with (src + W + Z.of_nat i * W) by lia.
    rewrite IH; trivial; try lia. unfold PUT. apply upd_other. nia.
Qed.

(** C2 fails on the length of the copy.  In the scenario above the old
    block has size 80, so the claim allows [min(80 - 16, 100) = 64] bytes
    to be copied; the code passes the adjusted request, 128 bytes, to
    [memcpy].  The words at offsets 64 and 72 of the new payload, which
    held 0 before the call, hold the footer of the old block and the
    header of the block after it when the call returns. *)
Theorem realloc_copy_reads_past_payload :
  match copy_scenario with
  | Some (h2, h3, p, q, r) =>
      let oldsize := GET_SIZE 8 (mem h2) (HDRP 8 p) in
      oldsize = 80 /\ realloc_asize 8 100 = 128 /\
      Z.min (oldsize - 2 * 8) 100 = 64 /\
      mem h2 (r + 64) = 0 /\ mem h2 (r + 72) = 0 /\
      mem h2 (p + 64) = PACK 80 1 /\ p + 64 = FTRP 8 (mem h2) p /\
      mem h2 (HDRP 8 q) = PACK 2016 1 /\ HDRP 8 q = p + 72 /\
      mem h3 (r + 64) = PACK 80 1 /\
      mem h3 (r + 72) = PACK 2016 1
  | None => False
  end.
Proof. vm_compute. repeat split; reflexivity. Qed.

(** ** C3: allocation sizing *)

(** C3 as stated fails at [n = 448]: the code returns the hard-coded 528
    where the formula gives 464. *)
Lemma adjust_448_off_formula : adjust 8 448 <> spec_asize 8 448.
Proof. vm_compute. discriminate. Qed.

(** C3, as amended.  For every non-zero request [n] whose rounding does
    not wrap around, [mm_malloc] uses the adjusted size
    [max(2*DSIZE, round_up(n + 2*WSIZE, 2*WSIZE))], except that requests
    of exactly 448 and 112 bytes get 528 and 144.  On a well-formed heap
    the call returns; when it returns a block, the fit is the free block
    [find_fit] found or, when it found none, the free block that
    [extend_heap] returned; the block handed out has exactly the adjusted
    size when the fit leaves a remainder of at least [3*DSIZE], and is
    the whole fit otherwise. *)
Theorem mm_malloc_sizing W h bl l n fuel :
  word_size W -> heap_ok W h bl l ->
  0 < n -> n + 2 * DSIZE W - 1 < modulus W ->
  (length l < fuel)%nat ->
  let asize := adjust W n in
  (n <> 448 -> n <> 112 -> asize = spec_asize W n) /\
  (n = 448 -> asize = 528) /\ (n = 112 -> asize = 144) /\
  exists h' r,
    mm_malloc W fuel h n = Some (h', r) /\
    ((r = NULL /\ h' = h /\
      find_fit W fuel (free_listp h) (mem h) asize = Some NULL /\
      mem_sbrk h (extend_bytes W (MAX asize (CHUNKSIZE) / W)) = None) \/
     (r <> NULL /\
      exists csize,
        asize <= csize /\
        ((find_fit W fuel (free_listp h) (mem h) asize = Some r /\
          In r l /\ block_at W (mem h) r csize 0) \/
         (find_fit W fuel (free_listp h) (mem h) asize = Some NULL /\
          MAX asize CHUNKSIZE <= csize /\
          exists h1,
            extend_heap W h (MAX asize CHUNKSIZE / W) = (h1, r) /\
            block_at W (mem h1) r csize 0)) /\
        (3 * DSIZE W <= csize - asize -> block_at W (mem h') r asize 1) /\
        (csize - asize < 3 * DSIZE W -> block_at W (mem h') r csize 1))).
Proof.
  intros Hword Hok Hn Hlt Hfuel asize. subst asize.
  split; [intros H1 H2; now apply adjust_formula |].
  split; [intros ->; reflexivity |].
  split; [intros ->; reflexivity |].
  now apply mm_malloc_spec with (bl := bl) (l := l).
Qed.

Lemma mm_malloc_sizing_witness :
  adjust 8 100 = spec_asize 8 100 /\
  exists h' r, mm_malloc 8 2 init_heap 100 = Some (h', r).
Proof.
  destruct (mm_malloc_sizing 8 init_heap [(4096, 0)] [65600] 100 2)
    as (Hf & _ & _ & h' & r & Hm & _).
  - right. reflexivity.
  - exact init_heap_ok.
  - lia.
  - vm_compute. reflexivity.
  - simpl. lia.
  - split; [apply Hf; lia | exists h', r; exact Hm].
Defined.

(** ** C4: the adjusted request of [mm_realloc] *)

(** What the code computes for the adjusted request of [mm_realloc]: on a
    32-bit target [ROUND] rounds up to a multiple of 8; on a 64-bit
    target it adds 15 before masking with [~0x7], which is 8 more. *)
Lemma realloc_asize_32 size :
  0 <= size -> size + 16 < modulus 4 ->
  realloc_asize 4 size = Z.max (round_up size 8 + DSIZE 4) 24.
Proof.
  intros H0 Hlt. unfold realloc_asize, ROUND, MAX.
  assert (Hw : word_size 4) by (now left).
  unfold modulus in Hlt. change (2 ^ (8 * 4)) with 4294967296 in Hlt.
  assert (Hs : wrap 4 (size + (DSIZE 4 - 1)) = size + 7).
  { unfold wrap, DSIZE, modulus. change (2 ^ (8 * 4)) with 4294967296.
    rewrite Z.mod_small; lia. }
  rewrite Hs, (round_mask 4 Hw)
    by (unfold modulus; change (2 ^ (8 * 4)) with 4294967296; lia).
  unfold wrap, DSIZE, modulus, round_up.
  change (2 ^ (8 * 4)) with 4294967296.
  rewrite Z.mod_small by lia.
  destruct (size + 7 - (size + 7) mod 8 + 2 * 4 >? 24) eqn:Hc;
    [apply Z.gtb_lt in Hc | rewrite Z.gtb_ltb in Hc; apply Z.ltb_ge in Hc];
    lia.
Qed.

Lemma realloc_asize_64 size :
  0 <= size -> size + 32 < modulus 8 ->
  realloc_asize 8 size = round_up size 8 + 24.
Proof.
  intros H0 Hlt. unfold realloc_asize, ROUND, MAX.
  assert (Hw : word_size 8) by (now right).
  unfold modulus in Hlt.
  change (2 ^ (8 * 8)) with 18446744073709551616 in Hlt.
  assert (Hs : wrap 8 (size + (DSIZE 8 - 1)) = size + 15).
  { unfold wrap, DSIZE, modulus.
    change (2 ^ (8 * 8)) with 18446744073709551616.
    rewrite Z.mod_small; lia. }
  rewrite Hs, (round_mask 8 Hw)
    by (unfold modulus; change (2 ^ (8 * 8)) with 18446744073709551616; lia).
  unfold wrap, DSIZE, modulus, round_up.
  change (2 ^ (8 * 8)) with 18446744073709551616.
  rewrite Z.mod_small by lia.
  destruct (size + 15 - (size + 15) mod 8 + 2 * 8 >? 24) eqn:Hc;
    [apply Z.gtb_lt in Hc | rewrite Z.gtb_ltb in Hc; apply Z.ltb_ge in Hc];
    lia.
Qed.

(** C4 fails on a 64-bit target.  For [size = 16] the formula
    [max(round_up(size, 8) + DSIZE, 24)] gives 32 and the code computes
    40.  The decision changes with it: after [p = malloc(16)] the block of
    [p] has 32 bytes, which satisfies a request of 32, yet
    [realloc(p, 16)] does not return the block unchanged; it absorbs the
    whole free block that follows, leaving [p] with 4096 bytes. *)
Theorem realloc_asize_64bit :
  realloc_asize 8 16 = 40 /\
  Z.max (round_up 16 8 + DSIZE 8) 24 = 32 /\
  match same_size_scenario with
  | Some (h1, h2, p, r) =>
      blocks_of 8 h1 =
        [(65552, 16, 1); (65568, 32, 1); (65600, 32, 1); (65632, 4064, 0)] /\
      r = p /\
      blocks_of 8 h2 = [(65552, 16, 1); (65568, 32, 1); (65600, 4096, 1)]
  | None => False
  end.
Proof. vm_compute. repeat split; reflexivity. Qed.

(** ** C5: [mm_realloc] on a null pointer *)

(** What the code does for a null pointer: it allocates for the adjusted
    request, not for [size]. *)
Lemma mm_realloc_null W fuel h size :
  size <> 0 ->
  mm_realloc W fuel h NULL size = mm_malloc W fuel h (realloc_asize W size).
Proof.
  intros Hs. unfold mm_realloc. apply Z.eqb_neq in Hs. now rewrite Hs.
Qed.

(** C5 fails: on the freshly initialised heap [malloc(1)] and
    [realloc(NULL, 1)] return the same pointer but leave different heaps;
    the first carves a block of 32 bytes, the second one of 48 bytes. *)
Theorem realloc_null_differs_from_malloc :
  match mm_malloc 8 walk_fuel init_heap 1,
        mm_realloc 8 walk_fuel init_heap NULL 1 with
  | Some (ha, pa), Some (hb, pb) =>
      pa = 65600 /\ pb = 65600 /\
      blocks_of 8 ha =
        [(65552, 16, 1); (65568, 32, 1); (65600, 32, 1); (65632, 4064, 0)] /\
      blocks_of 8 hb =
        [(65552, 16, 1); (65568, 32, 1); (65600, 48, 1); (65648, 4048, 0)] /\
      mem ha (HDRP 8 pa) <> mem hb (HDRP 8 pb)
  | _, _ => False
  end.
Proof. vm_compute. repeat split; try reflexivity. discriminate. Qed.

(** ** C6: first fit *)

(** C6.  On a free list whose nodes are free blocks and whose sentinel is
    marked allocated, [find_fit] returns (with any fuel above the length
    of the list) the first node in list order whose size is at least
    [asize], and [NULL] when no node is that large.  The block returned is
    never the sentinel, never allocated, and no node before it fits. *)
Theorem find_fit_first_fit W m flp l asize fuel :
  free_list W m flp l ->
  (forall x, In x l -> GET_ALLOC m (HDRP W x) = 0 /\ x <> NULL) ->
  GET_ALLOC m (HDRP W flp) = 1 ->
  (length l < fuel)%nat ->
  exists r,
    find_fit W fuel flp m asize = Some r /\
    ((r = NULL /\ forall x, In x l -> GET_SIZE W m (HDRP W x) < asize) \/
     (exists l1 l2,
        l = l1 ++ r :: l2 /\
        asize <= GET_SIZE W m (HDRP W r) /\
        (forall x, In x l1 -> GET_SIZE W m (HDRP W x) < asize) /\
        r <> flp /\ r <> NULL /\ GET_ALLOC m (HDRP W r) = 0)).
Proof.
  intros (Hd & ND & _) Hfree Hs Hfuel.
  destruct (find_fit_loop_spec W m flp asize l flp fuel Hd) as (r & Hr & Hc);
    trivial.
  { intros x Hx. now apply Hfree. }
  exists r. split; [exact Hr |].
  destruct Hc as [Hc | (l1 & l2 & Hl & Hge & Hlt)]; [now left | right].
  exists l1, l2.
  assert (Hin : In r l) by (rewrite Hl, in_app_iff; right; now left).
  repeat split; trivial; try now apply Hfree.
  intros ->. apply NoDup_cons_iff in ND. tauto.
Qed.

Lemma find_fit_first_fit_witness :
  exists r, find_fit 8 2 65568 (mem init_heap) 80 = Some r /\ r <> NULL.
Proof.
  destruct (find_fit_first_fit 8 (mem init_heap) 65568 [65600] 80 2)
    as (r & Hr & Hc).
  - exact init_heap_free_list.
  - intros x Hx. in_cases Hx. subst x. split; [reflexivity | discriminate].
  - reflexivity.
  - simpl. lia.
  - exists r. split; [exact Hr |].
    destruct Hc as [[_ Hall] | (_ & _ & _ & _ & _ & _ & Hn & _)]; trivial.
    exfalso. specialize (Hall 65600 (or_introl eq_refl)).
    vm_compute in Hall. discriminate.
Defined.

(** ** C7: the split policy of [place] *)

(** C7.  Let [bp] be a listed free block of size [csize] whose extent
    holds no link word but its own, and [asize <= csize] an adjusted
    request.  If [csize - asize >= 3*DSIZE], [place] leaves header and
    footer [(asize, 1)] at [bp], a free block [(csize - asize, 0)] with
    matching header and footer right after it, and the free list with
    [bp] removed and the remainder added.  Otherwise it leaves header and
    footer [(csize, 1)] at [bp] and the free list with [bp] removed; no
    other boundary tag changes, so no free block is created. *)
Theorem place_split_policy W m flp l bp csize asize :
  word_size W ->
  free_list W m flp l -> In bp l ->
  m (HDRP W bp) = PACK csize 0 ->
  block_size W csize -> block_size W asize ->
  asize <= csize -> csize + 1 < modulus W ->
  (forall a, bp - W <= a < bp + csize - W ->
             link_word W (flp :: l) a -> a = bp \/ a = bp + W) ->
  let m' := place W flp m bp asize in
  (3 * DSIZE W <= csize - asize ->
     block_at W m' bp asize 1 /\
     block_at W m' (bp + asize) (csize - asize) 0 /\
     free_list W m' flp ((bp + asize) :: remove Z.eq_dec bp l) /\
     (forall a, ~ (bp - W <= a < bp + csize - W) ->
                ~ link_word W (flp :: l) a -> m' a = m a)) /\
  (csize - asize < 3 * DSIZE W ->
     block_at W m' bp csize 1 /\
     free_list W m' flp (remove Z.eq_dec bp l) /\
     (forall a, a <> HDRP W bp -> a <> bp + csize - DSIZE W ->
                ~ link_word W (flp :: l) a -> m' a = m a)).
Proof. intros Hword. now apply place_spec. Qed.

Lemma place_split_policy_witness :
  let m' := place 8 65568 (mem init_heap) 65600 80 in
  block_at 8 m' 65600 80 1 /\ block_at 8 m' 65680 4016 0 /\
  free_list 8 m' 65568 [65680].
Proof.
  destruct (place_split_policy 8 (mem init_heap) 65568 [65600] 65600 4096 80)
    as [Hsplit _].
  - right. reflexivity.
  - exact init_heap_free_list.
  - now left.
  - reflexivity.
  - split; [reflexivity | vm_compute; discriminate].
  - split; [reflexivity | vm_compute; discriminate].
  - lia.
  - vm_compute. reflexivity.
  - intros a Ha (x & Hx & Hax). in_cases Hx; subst x; lia.
  - destruct Hsplit as (B1 & B2 & Hfl & _).
    + vm_compute. discriminate.
    + intros m'. repeat split; try apply B1; try apply B2; apply Hfl.
Defined.

(** ** C8: coalescing *)

(** C8.  Let [bp] be a newly freed block [(size, 0)] with matching
    header and footer, between a previous block [(psize, pa)] and a next
    block [(nsize, na)] (the epilogue counts as [(0, 1)]); let every free
    neighbour be on the free list and have an allocated block on its
    other side.  Then [coalesce] returns the block that starts at the
    previous block when that one is free and at [bp] otherwise; its size
    is the sum of the sizes merged, its header equals its footer, the
    free list is the old one with the free neighbours removed and the
    merged block added, and both physical neighbours of the merged block
    are allocated. *)
Theorem coalesce_merges W m flp l bp size psize pa nsize na :
  word_size W ->
  free_list W m flp l ->
  aligned W bp -> block_size W size -> block_at W m bp size 0 ->
  (* the physical previous block *)
  block_size W psize -> bit pa ->
  m (bp - DSIZE W) = PACK psize pa ->
  m (HDRP W (bp - psize)) = PACK psize pa ->
  (pa = 0 -> In (bp - psize) l /\
             GET_ALLOC m (bp - psize - DSIZE W) = 1) ->
  (* the physical next block *)
  nsize mod DSIZE W = 0 -> 0 <= nsize -> bit na ->
  m (HDRP W (bp + size)) = PACK nsize na ->
  (na = 0 -> block_size W nsize /\
             m (bp + size + nsize - DSIZE W) = PACK nsize 0 /\
             In (bp + size) l /\
             GET_ALLOC m (HDRP W (bp + size + nsize)) = 1) ->
  (* every address fits a machine word *)
  0 <= bp - psize -> bp + size + nsize + 1 < modulus W ->
  (* link words and boundary tags do not overlap *)
  let lo := if pa =? 0 then bp - psize - W else bp - W in
  let hi := if na =? 0 then bp + size + nsize - W else bp + size - W in
  (forall a, lo <= a < hi -> link_word W (flp :: l) a ->
     (pa = 0 /\ (a = bp - psize \/ a = bp - psize + W)) \/
     (na = 0 /\ (a = bp + size \/ a = bp + size + W))) ->
  ~ link_word W (flp :: l) (lo - W) -> ~ link_word W (flp :: l) hi ->
  let l1 := if pa =? 0 then remove Z.eq_dec (bp - psize) l else l in
  let l2 := if na =? 0 then remove Z.eq_dec (bp + size) l1 else l1 in
  let m' := fst (coalesce W flp m bp) in
  let r := snd (coalesce W flp m bp) in
  let merged := size + (if pa =? 0 then psize else 0)
                     + (if na =? 0 then nsize else 0) in
  r = (if pa =? 0 then bp - psize else bp) /\
  block_at W m' r merged 0 /\
  m' (HDRP W r) = m' (FTRP W m' r) /\
  free_list W m' flp (r :: l2) /\
  GET_ALLOC m' (r - DSIZE W) = 1 /\
  GET_ALLOC m' (HDRP W (r + merged)) = 1.
Proof.
  intros Hword Hfl Ab Hsz Hblk Hps Hpa Hpf Hph Hpin Hnm Hn0 Hna Hnh Hnx
         Hlo Hhi lo hi Hsep Hlo_tag Hhi_tag l1 l2 m' r merged.
  assert (Hpin' : pa = 0 -> In (bp - psize) l) by (intros E; now apply Hpin).
  assert (Hnx' : na = 0 -> block_size W nsize /\
                   m (bp + size + nsize - DSIZE W) = PACK nsize 0 /\
                   In (bp + size) l).
  { intros E. destruct (Hnx E) as (? & ? & ? & _). auto. }
  destruct (coalesce_spec W Hword m flp l bp size psize pa nsize na Hfl Ab Hsz
              Hblk Hps Hpa Hpf Hph Hpin' Hnm Hn0 Hna Hnh Hnx' Hlo Hhi Hsep)
    as (Hr & Hb & Hfl' & Hfr).
  fold lo hi in Hr, Hb, Hfr. fold l1 l2 m' r in Hr, Hb, Hfl', Hfr.
  assert (Hm : hi - lo = merged).
  { subst hi lo merged. destruct (pa =? 0), (na =? 0); lia. }
  rewrite Hm in Hb.
  assert (Hrv : r = if pa =? 0 then bp - psize else bp).
  { rewrite Hr. subst lo. destruct (pa =? 0); lia. }
  assert (Hmb : block_size W merged /\ merged + 1 < modulus W).
  { assert (Hns : na = 0 -> block_size W nsize) by (intros E; now apply Hnx).
    clear - Hword Hsz Hps Hns Hnm Hn0 Hlo Hhi. subst merged.
    destruct (na =? 0) eqn:Ena;
      [apply Z.eqb_eq in Ena; specialize (Hns Ena) | clear Hns];
      destruct (pa =? 0);
      unfold block_size, DSIZE, modulus in *;
      destruct Hword as [E | E]; rewrite E in *; lia. }
  assert (Hsize : GET_SIZE W m' (HDRP W r) = merged).
  { apply (GET_SIZE_PACK W Hword) with (a := 0); try apply Hb; try apply Hmb;
      try (now left).
    destruct Hmb as [[_ ?] _]. unfold DSIZE in *.
    destruct Hword as [E | E]; rewrite E in *; lia. }
  split; [exact Hrv |]. split; [exact Hb |].
  split.
  { unfold FTRP. rewrite Hsize. destruct Hb as [-> ->]. reflexivity. }
  split; [exact Hfl' |].
  assert (Hlo' : r - DSIZE W = lo - W) by (rewrite Hr; unfold DSIZE; lia).
  assert (Hhi' : HDRP W (r + merged) = hi).
  { unfold HDRP. rewrite Hr, <- Hm. lia. }
  rewrite Hlo', Hhi'. unfold GET_ALLOC, GET.
  assert (Wpos : 0 < W) by (destruct Hword; lia).
  rewrite !Hfr; trivial; try lia.
  split.
  - (* the footer before the merged block *)
    subst lo. destruct Hpa as [-> | ->]; cbn [Z.eqb].
    + destruct (Hpin eq_refl) as [_ Ha].
      replace (bp - psize - W - W) with (bp - psize - DSIZE W)
        by (unfold DSIZE; lia).
      exact Ha.
    + replace (bp - W - W) with (bp - DSIZE W) by (unfold DSIZE; lia).
      fold (GET m (bp - DSIZE W)). fold (GET_ALLOC m (bp - DSIZE W)).
      apply (GET_ALLOC_PACK W Hword) with (s := psize); trivial;
        [apply Hps | now right].
  - (* the header after the merged block *)
    subst hi. destruct Hna as [-> | ->]; cbn [Z.eqb].
    + destruct (Hnx eq_refl) as (_ & _ & _ & Ha). exact Ha.
    + fold (GET m (bp + size - W)). fold (GET_ALLOC m (bp + size - W)).
      apply (GET_ALLOC_PACK W Hword) with (s := nsize); trivial. now right.
Qed.

Lemma freed_memory_free_list : free_list 8 freed_memory 65568 [65680].
Proof.
  split; [repeat split; reflexivity |]. split.
  - repeat constructor; simpl; intuition discriminate.
  - intros x Hx. in_cases Hx; subst x; reflexivity.
Qed.

Lemma coalesce_merges_witness :
  let m' := fst (coalesce 8 65568 freed_memory 65600) in
  snd (coalesce 8 65568 freed_memory 65600) = 65600 /\
  block_at 8 m' 65600 4096 0 /\ free_list 8 m' 65568 [65600].
Proof.
  destruct (coalesce_merges 8 freed_memory 65568 [65680] 65600 80 32 1 4016 0)
    as (Hr & Hb & _ & Hfl & _).
  - right. reflexivity.
  - exact freed_memory_free_list.
  - reflexivity.
  - split; [reflexivity | vm_compute; discriminate].
  - split; reflexivity.
  - split; [reflexivity | vm_compute; discriminate].
  - right. reflexivity.
  - reflexivity.
  - reflexivity.
  - discriminate.
  - reflexivity.
  - lia.
  - left. reflexivity.
  - reflexivity.
  - intros _. split; [split; [reflexivity | vm_compute; discriminate] |].
    split; [reflexivity |]. split; [now left | reflexivity].
  - lia.
  - vm_compute. reflexivity.
  - cbn [Z.eqb]. intros a Ha (x & Hx & Hax). in_cases Hx; subst x; lia.
  - cbn [Z.eqb]. intros (x & Hx & Hax). in_cases Hx; subst x; lia.
  - cbn [Z.eqb]. intros (x & Hx & Hax). in_cases Hx; subst x; lia.
  - intros m'. split; [exact Hr |]. split; [exact Hb | exact Hfl].
Defined.

(** ** C9: running out of memory *)

Lemma mem_sbrk_break h incr h1 p :
  mem_sbrk h incr = Some (h1, p) ->
  p = mem_brk h /\ mem h1 = mem h /\ mem_brk h1 = mem_brk h + incr /\
  mem_max_addr h1 = mem_max_addr h /\ 0 <= incr.
Proof.
  unfold mem_sbrk.
  destruct ((0 <=? incr) && (mem_brk h + incr <=? mem_max_addr h)) eqn:Hc;
    [| discriminate].
  apply andb_prop in Hc as [Hc _]. apply Z.leb_le in Hc.
  intros H. inversion H. subst. simpl. auto.
Qed.

(** [mem_sbrk] looks at the break and the limit only. *)
Lemma mem_sbrk_none h h' incr :
  mem_brk h' = mem_brk h -> mem_max_addr h' = mem_max_addr h ->
  mem_sbrk h incr = None -> mem_sbrk h' incr = None.
Proof.
  unfold mem_sbrk. intros -> ->.
  now destruct ((0 <=? incr) && (mem_brk h + incr <=? mem_max_addr h)).
Qed.

(** C9.  When the region extender fails, [mm_malloc] returns [NULL] and
    the heap it returns is the heap it was given; [mm_init] returns -1,
    whichever of its two extensions fails, and every word below the break
    it started from holds what it held before. *)
Theorem out_of_memory_leaves_heap W fuel h size :
  word_size W ->
  (0 < size ->
   find_fit W fuel (free_listp h) (mem h) (adjust W size) = Some NULL ->
   mem_sbrk h (extend_bytes W (MAX (adjust W size) CHUNKSIZE / W)) = None ->
   mm_malloc W fuel h size = Some (h, NULL)) /\
  (mem_sbrk h (wrap W (8 * W)) = None \/
   (exists h1 p, mem_sbrk h (wrap W (8 * W)) = Some (h1, p) /\
                 mem_sbrk h1 (extend_bytes W (CHUNKSIZE / W)) = None) ->
   snd (mm_init W h) = -1 /\
   forall a, a < mem_brk h -> mem (fst (mm_init W h)) a = mem h a).
Proof.
  intros Hword. split.
  - intros Hs Hfit Hsb. unfold mm_malloc.
    assert (Hn0 : (size <=? 0) = false) by (apply Z.leb_gt; lia).
    rewrite Hn0, Hfit. cbn [NULL Z.eqb negb].
    unfold extend_heap. now rewrite Hsb.
  - intros [Hsb | (h1 & p & Hsb & Hsb2)]; unfold mm_init; rewrite Hsb.
    + split; [reflexivity | intros a _; reflexivity].
    + apply mem_sbrk_break in Hsb as (-> & Hm & Hbrk & Hmax & Hinc).
      unfold extend_heap. cbv zeta.
      match goal with
      | |- context [mem_sbrk ?h2 ?n] =>
          rewrite (mem_sbrk_none h1 h2 n eq_refl eq_refl Hsb2)
      end.
      cbn [fst snd NULL Z.eqb mem]. split; [reflexivity |].
      intros a Ha. unfold PUT. rewrite Hm.
      assert (Wpos : 0 < W) by (destruct Hword; lia).
      rewrite !upd_other; trivial; lia.
Qed.

Example tight_heap_blocks :
  blocks_of 8 tight_heap = [(65552, 16, 1); (65568, 32, 1); (65600, 4096, 0)]
  /\ mem_brk tight_heap = mem_max_addr tight_heap.
Proof. vm_compute. split; reflexivity. Qed.

Lemma out_of_memory_leaves_heap_witness :
  mm_malloc 8 2 tight_heap 5000 = Some (tight_heap, NULL) /\
  snd (mm_init 8 prelude_only_region) = -1.
Proof.
  split.
  - apply (out_of_memory_leaves_heap 8 2 tight_heap 5000).
    + right. reflexivity.
    + lia.
    + vm_compute. reflexivity.
    + vm_compute. reflexivity.
  - apply (out_of_memory_leaves_heap 8 2 prelude_only_region 1).
    + right. reflexivity.
    + right. eexists. eexists. split; vm_compute; reflexivity.
Defined.

(** ** C10: the search on an empty free list *)

(** The logged loop returns what [find_fit] returns. *)
Lemma find_fit_loop_reads_result W flp m asize fuel : forall bp reads,
  option_map fst (find_fit_loop_reads W fuel flp m asize bp reads) =
  find_fit_loop W fuel flp m asize bp.
Proof.
  induction fuel as [| fuel IH]; intros bp reads; simpl; [reflexivity |].
  destruct (GET_ALLOC m (HDRP W bp) =? 0); [| reflexivity].
  destruct (asize <=? GET_SIZE W m (HDRP W bp)); [reflexivity |].
  destruct (bp =? flp); [reflexivity | apply IH].
Qed.

(** C10.  When the sentinel's next link points to the sentinel and the
    sentinel's header has its allocated bit set, [find_fit] loads the
    sentinel's next link and the sentinel's header and nothing else, the
    loop body never runs, and the result is [NULL]; [mm_malloc] then
    goes on to extend the heap. *)
Theorem find_fit_empty_list W h asize size fuel :
  next_of W (mem h) (free_listp h) = free_listp h ->
  GET_ALLOC (mem h) (HDRP W (free_listp h)) = 1 ->
  find_fit_reads W (S fuel) (free_listp h) (mem h) asize =
    Some (NULL, [free_listp h + W; HDRP W (free_listp h)]) /\
  find_fit W (S fuel) (free_listp h) (mem h) asize = Some NULL /\
  (0 < size ->
   mm_malloc W (S fuel) h size =
   let '(h1, bp) :=
     extend_heap W h (MAX (adjust W size) CHUNKSIZE / W) in
   if bp =? NULL then Some (h1, NULL)
   else Some (set_mem h1 (place W (free_listp h1) (mem h1) bp
                            (adjust W size)), bp)).
Proof.
  intros Hnext Halloc.
  assert (Hfit : forall a,
            find_fit W (S fuel) (free_listp h) (mem h) a = Some NULL).
  { intros a. unfold find_fit. rewrite Hnext. simpl. now rewrite Halloc. }
  split; [| split].
  - unfold find_fit_reads. rewrite Hnext. simpl. now rewrite Halloc.
  - apply Hfit.
  - intros Hs. unfold mm_malloc.
    assert (Hn0 : (size <=? 0) = false) by (apply Z.leb_gt; lia).
    rewrite Hn0, Hfit. reflexivity.
Qed.

Example full_heap_blocks :
  blocks_of 8 full_heap = [(65552, 16, 1); (65568, 32, 1); (65600, 4096, 1)]
  /\ free_blocks_of 8 full_heap = [].
Proof. vm_compute. split; reflexivity. Qed.

Lemma find_fit_empty_list_witness :
  find_fit_reads 8 1 (free_listp full_heap) (mem full_heap) 32 =
    Some (NULL, [65576; 65560]) /\
  find_fit 8 1 (free_listp full_heap) (mem full_heap) 32 = Some NULL.
Proof.
  destruct (find_fit_empty_list 8 full_heap 32 1 0) as (H1 & H2 & _).
  - reflexivity.
  - reflexivity.
  - split; [exact H1 | exact H2].
Defined.

(** * Further properties of the code *)

(** ** Header and footer words *)

(** X1.  The header word round trip.  A word written with
    [PACK(size, alloc)], for an even size that fits a machine word and an
    allocated bit 0 or 1, reads back through [GET_ALLOC] as the bit and
    through [GET_SIZE] as the size with its remainder modulo [DSIZE]
    dropped: the size comes back unchanged exactly when it is a multiple
    of the double word. *)
Theorem header_round_trip W m p s a :
  word_size W ->
  0 <= s -> s mod 2 = 0 -> s + 1 < modulus W -> bit a ->
  GET_ALLOC (PUT m p (PACK s a)) p = a /\
  GET_SIZE W (PUT m p (PACK s a)) p = s - s mod DSIZE W /\
  (GET_SIZE W (PUT m p (PACK s a)) p = s <-> s mod DSIZE W = 0).
Proof.
  intros Hword H0 He Hlt Ha.
  assert (Hv : PACK s a = s + a) by (now apply PACK_val).
  assert (Hsz : GET_SIZE W (PUT m p (PACK s a)) p = s - s mod DSIZE W).
  { unfold GET_SIZE, GET, PUT. rewrite upd_same, Hv.
    rewrite (size_mask W Hword)
      by (unfold bit in Ha; destruct Ha; subst a; lia).
    unfold DSIZE, bit in *. destruct Hword as [E | E]; rewrite E in *; lia. }
  split; [| split; [exact Hsz |]].
  - unfold GET_ALLOC, GET, PUT. rewrite upd_same, Hv, land_one.
    unfold bit in Ha. lia.
  - rewrite Hsz. unfold DSIZE. destruct Hword as [E | E]; rewrite E; lia.
Qed.

Lemma header_round_trip_witness :
  word_size 8 /\ 0 <= 40 /\ 40 mod 2 = 0 /\ 40 + 1 < modulus 8 /\ bit 1 /\
  GET_ALLOC (PUT (fun _ => 0) 65592 (PACK 40 1)) 65592 = 1 /\
  GET_SIZE 8 (PUT (fun _ => 0) 65592 (PACK 40 1)) 65592 = 40 - 40 mod DSIZE 8 /\
  (GET_SIZE 8 (PUT (fun _ => 0) 65592 (PACK 40 1)) 65592 = 40 <->
   40 mod DSIZE 8 = 0).
Proof.
  assert (Hw : word_size 8) by (right; reflexivity).
  assert (H0 : 0 <= 40) by (vm_compute; discriminate).
  assert (H1 : 40 mod 2 = 0) by reflexivity.
  assert (H2 : 40 + 1 < modulus 8) by reflexivity.
  assert (H3 : bit 1) by (right; reflexivity).
  split; [exact Hw |]. split; [exact H0 |]. split; [exact H1 |].
  split; [exact H2 |]. split; [exact H3 |].
  exact (header_round_trip 8 (fun _ => 0) 65592 40 1 Hw H0 H1 H2 H3).
Defined.

(** ** The four entry points on a well-formed heap *)

Lemma adjust_ge W n :
  word_size W -> 0 < n -> n + 2 * DSIZE W - 1 < modulus W ->
  n + DSIZE W <= adjust W n.
Proof.
  intros Hword Hn Hlt. unfold adjust.
  destruct (n =? 112) eqn:H2;
    [apply Z.eqb_eq in H2; unfold DSIZE; destruct Hword; lia |].
  destruct (n =? 448) eqn:H1;
    [apply Z.eqb_eq in H1; unfold DSIZE; destruct Hword; lia |].
  unfold wrap, DSIZE, modulus in *.
  destruct (n <=? 2 * W) eqn:Hc; [apply Z.leb_le in Hc | apply Z.leb_gt in Hc];
    destruct Hword as [E | E]; rewrite E in *;
    change (2 ^ (8 * 4)) with 4294967296 in *;
    change (2 ^ (8 * 8)) with 18446744073709551616 in *; lia.
Qed.

Lemma heap_ok_block_where W h bl l x sz a :
  word_size W -> heap_ok W h bl l ->
  In (x, sz, a) (layout (free_listp h + 4 * W) bl) ->
  aligned W x /\ free_listp h + 4 * W <= x /\ x + sz <= mem_brk h /\
  block_size W sz.
Proof.
  intros Hword Hok Hin.
  pose proof Hok as (Af & Hf4 & Hs & Ht & Hb & _).
  pose proof (tagged_positive W Hword _ _ Ht) as Hpos.
  pose proof (proj1 (Forall_forall _ _) Ht _ Hin) as (Hsz & _).
  destruct (layout_bounds _ _ _ _ _ Hpos Hin) as [Hlo Hhi].
  destruct (layout_split _ _ _ _ _ Hin) as (A0 & C0 & Hbl & Hx).
  rewrite Hbl, layout_app in Ht. apply Forall_app in Ht as [HtA _].
  destruct (total_aligned W Hword _ _ _ HtA) as [HA _].
  repeat split; trivial; try apply Hsz; try lia.
  unfold aligned, DSIZE in *. destruct Hword as [E | E]; rewrite E in *; lia.
Qed.

Lemma heap_step_wf W h bl l h' bl' l' P Q :
  word_size W -> heap_wf W h bl l -> heap_ok W h' bl' l' ->
  heap_step W h bl h' bl' P Q -> heap_wf W h' bl' l'.
Proof.
  intros Hword (_ & Hpro & Hco) Hok' Hst.
  split; [exact Hok' |]. split.
  - now apply (heap_step_prologue W h bl h' bl' P Q).
  - destruct Hst as (_ & _ & _ & _ & Hc & _). auto.
Qed.

Lemma init_heap_prologue : prologue_ok 8 init_heap.
Proof. repeat split. Qed.

Lemma init_heap_wf : heap_wf 8 init_heap [(4096, 0)] [65600].
Proof.
  split; [exact init_heap_ok |]. split; [exact init_heap_prologue |].
  cbn [coalesced hd snd]. repeat split; discriminate.
Qed.

Lemma one_block_heap_ok : heap_ok 8 one_block_heap [(80, 1); (4016, 0)] [65680].
Proof.
  unfold heap_ok.
  change (free_listp one_block_heap) with 65568.
  change (mem_brk one_block_heap) with 69696.
  change (mem_max_addr one_block_heap) with 21037056.
  split; [reflexivity |]. split; [vm_compute; discriminate |].
  split; [split; reflexivity |].
  split.
  { repeat constructor; try reflexivity; vm_compute; discriminate. }
  split; [reflexivity |]. split; [reflexivity |].
  split; [vm_compute; discriminate |]. split; [reflexivity |].
  split.
  { split; [repeat split; reflexivity |]. split.
    - repeat constructor; simpl; intuition discriminate.
    - intros x Hx. in_cases Hx; subst x; reflexivity. }
  intros x. split.
  - intros Hx. in_cases Hx. subst x. exists 4016. right. now left.
  - intros (sz & Hx). in_cases Hx; inversion Hx. now left.
Qed.

Lemma one_block_heap_wf :
  heap_wf 8 one_block_heap [(80, 1); (4016, 0)] [65680].
Proof.
  split; [exact one_block_heap_ok |]. split; [repeat split |].
  cbn [coalesced hd snd]. repeat split; discriminate.
Qed.

Lemma two_block_heap_ok :
  heap_ok 8 two_block_heap [(80, 1); (2016, 1); (2000, 0)] [67696].
Proof.
  unfold heap_ok.
  change (free_listp two_block_heap) with 65568.
  change (mem_brk two_block_heap) with 69696.
  change (mem_max_addr two_block_heap) with 21037056.
  split; [reflexivity |]. split; [vm_compute; discriminate |].
  split; [split; reflexivity |].
  split.
  { repeat constructor; try reflexivity; vm_compute; discriminate. }
  split; [reflexivity |]. split; [reflexivity |].
  split; [vm_compute; discriminate |]. split; [reflexivity |].
  split.
  { split; [repeat split; reflexivity |]. split.
    - repeat constructor; simpl; intuition discriminate.
    - intros x Hx. in_cases Hx; subst x; reflexivity. }
  intros x. split.
  - intros Hx. in_cases Hx. subst x. exists 2000. right. right. now left.
  - intros (sz & Hx). in_cases Hx; inversion Hx. now left.
Qed.

Lemma two_block_heap_wf :
  heap_wf 8 two_block_heap [(80, 1); (2016, 1); (2000, 0)] [67696].
Proof.
  split; [exact two_block_heap_ok |]. split; [repeat split |].
  cbn [coalesced hd snd]. repeat split; discriminate.
Qed.

(** X2.  On a region whose break is double-word aligned and that has room
    for the prelude and the first chunk, [mm_init] returns 0 and leaves a
    well-formed heap: the prologue, the sentinel block four words above
    the old break, and one free block of [CHUNKSIZE] bytes, eight words
    above the old break, which is the only node of the free list. *)
Theorem mm_init_well_formed W h :
  word_size W ->
  0 <= mem_brk h -> mem_brk h mod DSIZE W = 0 ->
  mem_brk h + 8 * W + CHUNKSIZE <= mem_max_addr h ->
  mem_max_addr h + 1 < modulus W ->
  snd (mm_init W h) = 0 /\
  heap_wf W (fst (mm_init W h)) [(CHUNKSIZE, 0)] [mem_brk h + 8 * W] /\
  free_listp (fst (mm_init W h)) = mem_brk h + 4 * W /\
  mem_brk (fst (mm_init W h)) = mem_brk h + 8 * W + CHUNKSIZE.
Proof.
  intros Hword H0 Hal Hroom Hmax.
  destruct (mm_init_ok W Hword h H0 Hal Hroom Hmax) as (H1 & H2 & H3 & H4 & _).
  auto.
Qed.

Lemma mm_init_well_formed_witness :
  word_size 8 /\ 0 <= mem_brk fresh_region /\
  mem_brk fresh_region mod DSIZE 8 = 0 /\
  mem_brk fresh_region + 8 * 8 + CHUNKSIZE <= mem_max_addr fresh_region /\
  mem_max_addr fresh_region + 1 < modulus 8 /\
  snd (mm_init 8 fresh_region) = 0 /\
  heap_wf 8 (fst (mm_init 8 fresh_region)) [(CHUNKSIZE, 0)]
    [mem_brk fresh_region + 8 * 8] /\
  free_listp (fst (mm_init 8 fresh_region)) = mem_brk fresh_region + 4 * 8 /\
  mem_brk (fst (mm_init 8 fresh_region)) =
    mem_brk fresh_region + 8 * 8 + CHUNKSIZE.
Proof.
  assert (Hw : word_size 8) by (right; reflexivity).
  assert (H0 : 0 <= mem_brk fresh_region) by (vm_compute; discriminate).
  assert (H1 : mem_brk fresh_region mod DSIZE 8 = 0) by reflexivity.
  assert (H2 : mem_brk fresh_region + 8 * 8 + CHUNKSIZE
               <= mem_max_addr fresh_region) by (vm_compute; discriminate).
  assert (H3 : mem_max_addr fresh_region + 1 < modulus 8) by reflexivity.
  split; [exact Hw |]. split; [exact H0 |]. split; [exact H1 |].
  split; [exact H2 |]. split; [exact H3 |].
  exact (mm_init_well_formed 8 fresh_region Hw H0 H1 H2 H3).
Defined.

(** X3.  [mm_malloc] keeps the heap well-formed, and a pointer it returns
    is double-word aligned and points to an allocated block inside the
    heap whose payload holds the [n] bytes asked for. *)
Theorem mm_malloc_well_formed W h bl l n fuel :
  word_size W -> heap_wf W h bl l ->
  0 < n -> n + 2 * DSIZE W - 1 < modulus W ->
  (length l < fuel)%nat ->
  exists h' r bl' l',
    mm_malloc W fuel h n = Some (h', r) /\
    heap_wf W h' bl' l' /\
    (r <> NULL ->
     exists s, In (r, s, 1) (layout (free_listp h' + 4 * W) bl') /\
               aligned W r /\ n + DSIZE W <= s /\
               free_listp h' + 4 * W <= r /\ r + s <= mem_brk h').
Proof.
  intros Hword Hwf Hn Hlt Hfuel.
  destruct (mm_malloc_ok W Hword h bl l n fuel (proj1 Hwf) Hn Hlt Hfuel)
    as (h' & r & bl' & l' & Hm & Hok' & Hst & Hr & _).
  exists h', r, bl', l'. split; [exact Hm |].
  split; [now apply (heap_step_wf W h bl l h' bl' l' (fun _ => False) (fun x => x = r)) |].
  intros Hne. destruct (Hr Hne) as (s & Hin & Hge & _).
  pose proof Hst as (F & _). rewrite <- F in Hin.
  destruct (heap_ok_block_where W h' bl' l' r s 1 Hword Hok' Hin)
    as (Ha & Hlo & Hhi & _).
  exists s. repeat split; trivial.
  pose proof (adjust_ge W n Hword Hn Hlt). lia.
Qed.

Lemma mm_malloc_well_formed_witness :
  word_size 8 /\ heap_wf 8 init_heap [(4096, 0)] [65600] /\
  0 < 64 /\ 64 + 2 * DSIZE 8 - 1 < modulus 8 /\
  (length [65600%Z] < 2)%nat /\
  exists h' r bl' l',
    mm_malloc 8 2 init_heap 64 = Some (h', r) /\
    heap_wf 8 h' bl' l' /\
    (r <> NULL ->
     exists s, In (r, s, 1) (layout (free_listp h' + 4 * 8) bl') /\
               aligned 8 r /\ 64 + DSIZE 8 <= s /\
               free_listp h' + 4 * 8 <= r /\ r + s <= mem_brk h').
Proof.
  assert (Hw : word_size 8) by (right; reflexivity).
  assert (H0 : 0 < 64) by reflexivity.
  assert (H1 : 64 + 2 * DSIZE 8 - 1 < modulus 8) by reflexivity.
  assert (Hf : (length [65600%Z] < 2)%nat) by (simpl; lia).
  split; [exact Hw |]. split; [exact init_heap_wf |]. split; [exact H0 |].
  split; [exact H1 |]. split; [exact Hf |].
  exact (mm_malloc_well_formed 8 init_heap [(4096, 0)] [65600] 64 2 Hw
           init_heap_wf H0 H1 Hf).
Defined.

(** X4.  [mm_malloc] leaves every block that is allocated alone: it is
    still an allocated block of the same size, every word of its payload
    is unchanged, and the block handed out does not overlap it. *)
Theorem mm_malloc_keeps_live_blocks W h bl l n fuel :
  word_size W -> heap_ok W h bl l ->
  0 < n -> n + 2 * DSIZE W - 1 < modulus W ->
  (length l < fuel)%nat ->
  exists h' r bl' l',
    mm_malloc W fuel h n = Some (h', r) /\
    heap_ok W h' bl' l' /\
    forall x sz, In (x, sz, 1) (layout (free_listp h + 4 * W) bl) ->
      block_kept W h h' bl' x sz /\
      (r <> NULL ->
       forall s, In (r, s, 1) (layout (free_listp h' + 4 * W) bl') ->
                 x + sz <= r \/ r + s <= x).
Proof.
  intros Hword Hok Hn Hlt Hfuel.
  destruct (mm_malloc_ok W Hword h bl l n fuel Hok Hn Hlt Hfuel)
    as (h' & r & bl' & l' & Hm & Hok' & Hst & Hr & _).
  exists h', r, bl', l'. split; [exact Hm |]. split; [exact Hok' |].
  intros x sz Hx.
  destruct Hst as (F & _ & _ & _ & _ & K & _).
  destruct (K x sz Hx (fun f => f)) as [Hx' Hpay].
  split; [split; assumption |].
  intros Hne s Hs. destruct (Hr Hne) as (_ & _ & _ & Hfresh & _).
  pose proof Hok' as (_ & _ & _ & Ht & _).
  pose proof (tagged_positive W Hword _ _ Ht) as Hpos.
  destruct (layout_disjoint _ _ _ _ _ _ _ _ Hpos Hx' Hs) as [Heq | Hd];
    [| exact Hd].
  inversion Heq. subst. now elim (Hfresh r s Hx).
Qed.

Lemma mm_malloc_keeps_live_blocks_witness :
  word_size 8 /\ heap_ok 8 one_block_heap [(80, 1); (4016, 0)] [65680] /\
  0 < 2000 /\ 2000 + 2 * DSIZE 8 - 1 < modulus 8 /\
  (length [65680%Z] < 2)%nat /\
  exists h' r bl' l',
    mm_malloc 8 2 one_block_heap 2000 = Some (h', r) /\
    heap_ok 8 h' bl' l' /\
    forall x sz,
      In (x, sz, 1)
         (layout (free_listp one_block_heap + 4 * 8) [(80, 1); (4016, 0)]) ->
      block_kept 8 one_block_heap h' bl' x sz /\
      (r <> NULL ->
       forall s, In (r, s, 1) (layout (free_listp h' + 4 * 8) bl') ->
                 x + sz <= r \/ r + s <= x).
Proof.
  assert (Hw : word_size 8) by (right; reflexivity).
  assert (H0 : 0 < 2000) by reflexivity.
  assert (H1 : 2000 + 2 * DSIZE 8 - 1 < modulus 8) by reflexivity.
  assert (Hf : (length [65680%Z] < 2)%nat) by (simpl; lia).
  split; [exact Hw |]. split; [exact one_block_heap_ok |]. split; [exact H0 |].
  split; [exact H1 |]. split; [exact Hf |].
  exact (mm_malloc_keeps_live_blocks 8 one_block_heap [(80, 1); (4016, 0)]
           [65680] 2000 2 Hw one_block_heap_ok H0 H1 Hf).
Defined.

(** X5.  [mm_malloc] of a non-zero size returns [NULL] exactly when no
    block of the free list is large enough for the adjusted size and the
    region cannot grow by [MAX(asize, CHUNKSIZE)] bytes. *)
Theorem mm_malloc_null_iff W h bl l n fuel :
  word_size W -> heap_ok W h bl l ->
  0 < n -> n + 2 * DSIZE W - 1 < modulus W ->
  (length l < fuel)%nat ->
  exists h' r,
    mm_malloc W fuel h n = Some (h', r) /\
    (r = NULL <->
     (forall x, In x l -> GET_SIZE W (mem h) (HDRP W x) < adjust W n) /\
     mem_max_addr h < mem_brk h + MAX (adjust W n) CHUNKSIZE).
Proof.
  intros Hword Hok Hn Hlt Hfuel.
  destruct (mm_malloc_ok W Hword h bl l n fuel Hok Hn Hlt Hfuel)
    as (h' & r & bl' & l' & Hm & _ & _ & Hr & Hnull).
  exists h', r. split; [exact Hm |]. split.
  - intros Hz. destruct (Hnull Hz) as (_ & H1 & H2). auto.
  - intros [Hall Hroom]. destruct (Z.eq_dec r NULL) as [Hz | Hne]; [exact Hz |].
    destruct (Hr Hne) as (_ & _ & _ & _ & [(x & Hx & Hge) | Hgrow]).
    + specialize (Hall x Hx). lia.
    + lia.
Qed.

Lemma mm_malloc_null_iff_witness :
  word_size 8 /\ heap_ok 8 init_heap [(4096, 0)] [65600] /\
  0 < 5000 /\ 5000 + 2 * DSIZE 8 - 1 < modulus 8 /\
  (length [65600%Z] < 2)%nat /\
  exists h' r,
    mm_malloc 8 2 init_heap 5000 = Some (h', r) /\
    (r = NULL <->
     (forall x, In x [65600] ->
                GET_SIZE 8 (mem init_heap) (HDRP 8 x) < adjust 8 5000) /\
     mem_max_addr init_heap < mem_brk init_heap + MAX (adjust 8 5000) CHUNKSIZE).
Proof.
  assert (Hw : word_size 8) by (right; reflexivity).
  assert (H0 : 0 < 5000) by reflexivity.
  assert (H1 : 5000 + 2 * DSIZE 8 - 1 < modulus 8) by reflexivity.
  assert (Hf : (length [65600%Z] < 2)%nat) by (simpl; lia).
  split; [exact Hw |]. split; [exact init_heap_ok |]. split; [exact H0 |].
  split; [exact H1 |]. split; [exact Hf |].
  exact (mm_malloc_null_iff 8 init_heap [(4096, 0)] [65600] 5000 2 Hw
           init_heap_ok H0 H1 Hf).
Defined.

(** X6.  [mm_free] of an allocated block keeps the heap well-formed.
    The bytes of the block end up in one free block, which is the first
    node of the free list; the heap covers the same bytes as before. *)
Theorem mm_free_well_formed W h bl l bp size :
  word_size W -> heap_wf W h bl l ->
  In (bp, size, 1) (layout (free_listp h + 4 * W) bl) ->
  exists bl' l' r fsize,
    heap_wf W (mm_free W h bp) bl' (r :: l') /\
    In (r, fsize, 0) (layout (free_listp h + 4 * W) bl') /\
    r <= bp /\ bp + size <= r + fsize /\
    total bl' = total bl.
Proof.
  intros Hword Hwf Hin.
  destruct (mm_free_ok W Hword h bl l bp size (proj1 Hwf) Hin)
    as (bl' & l' & r & fsize & Hok' & Hst & Hr & Hlo & Hhi & Hbrk & _).
  exists bl', l', r, fsize.
  split; [now apply (heap_step_wf W h bl l _ bl' _ (fun x => x = bp)
                       (fun _ => False)) |].
  split; [exact Hr |]. split; [exact Hlo |]. split; [exact Hhi |].
  destruct Hst as (F & _).
  destruct Hok' as (_ & _ & _ & _ & Hb' & _).
  destruct Hwf as ((_ & _ & _ & _ & Hb & _) & _).
  rewrite F in Hb'. lia.
Qed.

Lemma mm_free_well_formed_witness :
  word_size 8 /\ heap_wf 8 one_block_heap [(80, 1); (4016, 0)] [65680] /\
  In (65600, 80, 1)
     (layout (free_listp one_block_heap + 4 * 8) [(80, 1); (4016, 0)]) /\
  exists bl' l' r fsize,
    heap_wf 8 (mm_free 8 one_block_heap 65600) bl' (r :: l') /\
    In (r, fsize, 0) (layout (free_listp one_block_heap + 4 * 8) bl') /\
    r <= 65600 /\ 65600 + 80 <= r + fsize /\
    total bl' = total [(80, 1); (4016, 0)].
Proof.
  assert (Hw : word_size 8) by (right; reflexivity).
  assert (Hin : In (65600, 80, 1)
            (layout (free_listp one_block_heap + 4 * 8) [(80, 1); (4016, 0)]))
    by (left; reflexivity).
  split; [exact Hw |]. split; [exact one_block_heap_wf |]. split; [exact Hin |].
  exact (mm_free_well_formed 8 one_block_heap [(80, 1); (4016, 0)] [65680]
           65600 80 Hw one_block_heap_wf Hin).
Defined.

(** X7.  [mm_free] of an allocated block leaves every other allocated
    block alone: it is still an allocated block of the same size and
    every word of its payload is unchanged. *)
Theorem mm_free_keeps_live_blocks W h bl l bp size :
  word_size W -> heap_ok W h bl l ->
  In (bp, size, 1) (layout (free_listp h + 4 * W) bl) ->
  exists bl' l',
    heap_ok W (mm_free W h bp) bl' l' /\
    forall x sz, In (x, sz, 1) (layout (free_listp h + 4 * W) bl) ->
                 x <> bp -> block_kept W h (mm_free W h bp) bl' x sz.
Proof.
  intros Hword Hok Hin.
  destruct (mm_free_ok W Hword h bl l bp size Hok Hin)
    as (bl' & l' & r & fsize & Hok' & Hst & _).
  exists bl', (r :: l'). split; [exact Hok' |].
  destruct Hst as (_ & _ & _ & _ & _ & K & _). exact K.
Qed.

Lemma mm_free_keeps_live_blocks_witness :
  word_size 8 /\
  heap_ok 8 two_block_heap [(80, 1); (2016, 1); (2000, 0)] [67696] /\
  In (65600, 80, 1)
     (layout (free_listp two_block_heap + 4 * 8)
        [(80, 1); (2016, 1); (2000, 0)]) /\
  exists bl' l',
    heap_ok 8 (mm_free 8 two_block_heap 65600) bl' l' /\
    forall x sz,
      In (x, sz, 1)
         (layout (free_listp two_block_heap + 4 * 8)
            [(80, 1); (2016, 1); (2000, 0)]) ->
      x <> 65600 ->
      block_kept 8 two_block_heap (mm_free 8 two_block_heap 65600) bl' x sz.
Proof.
  assert (Hw : word_size 8) by (right; reflexivity).
  assert (Hin : In (65600, 80, 1)
            (layout (free_listp two_block_heap + 4 * 8)
               [(80, 1); (2016, 1); (2000, 0)]))
    by (left; reflexivity).
  split; [exact Hw |]. split; [exact two_block_heap_ok |]. split; [exact Hin |].
  exact (mm_free_keeps_live_blocks 8 two_block_heap
           [(80, 1); (2016, 1); (2000, 0)] [67696] 65600 80 Hw
           two_block_heap_ok Hin).
Defined.

(** X8.  Freed memory is reused first.  After [mm_free] of an allocated
    block, an [mm_malloc] whose adjusted size fits in that block returns
    the block just freed, or, when the block before it was free and the
    two were merged, that block: the merged block heads the free list and
    first fit stops at it. *)
Theorem malloc_after_free_reuses W h bl l bp size n fuel :
  word_size W -> heap_ok W h bl l ->
  In (bp, size, 1) (layout (free_listp h + 4 * W) bl) ->
  0 < n -> n + 2 * DSIZE W - 1 < modulus W -> adjust W n <= size ->
  exists h' r,
    mm_malloc W (S fuel) (mm_free W h bp) n = Some (h', r) /\
    (r = bp \/
     exists psize, In (r, psize, 0) (layout (free_listp h + 4 * W) bl) /\
                   r + psize = bp).
Proof.
  intros Hword Hok Hin Hn Hlt Hfit.
  destruct (mm_free_ok W Hword h bl l bp size Hok Hin)
    as (bl' & l' & r & fsize & Hok' & Hst & Hr & Hlo & Hhi & _ & Hwhere & _).
  set (hf := mm_free W h bp) in *.
  pose proof Hst as (F & _). rewrite <- F in Hr.
  destruct (heap_ok_block W Hword _ _ _ _ _ Hok' Hr)
    as (_ & Hfs & [Hhd _] & Hrlo & Hrhi & _).
  pose proof Hok' as (_ & Hf4 & _ & _ & _ & _ & Hbm & Hmx & Hfl & _).
  destruct Hfl as (Hd & _). destruct Hd as (Hnx & _).
  assert (Hlt' : fsize + 1 < modulus W).
  { unfold DSIZE in *. destruct Hword; lia. }
  assert (Hsz : GET_SIZE W (mem hf) (HDRP W r) = fsize).
  { apply (GET_SIZE_PACK W Hword) with (a := 0); trivial;
      try apply Hfs; try (now left).
    unfold block_size, DSIZE in Hfs. destruct Hword; lia. }
  assert (Hal : GET_ALLOC (mem hf) (HDRP W r) = 0).
  { apply (GET_ALLOC_PACK W Hword) with (s := fsize); trivial;
      try apply Hfs; now left. }
  exists (set_mem hf (place W (free_listp hf) (mem hf) r (adjust W n))), r.
  split; [| exact Hwhere].
  unfold mm_malloc, find_fit. rewrite Hnx. cbn [find_fit_loop].
  rewrite Hal, Hsz. cbn [Z.eqb].
  assert (H0 : (n <=? 0) = false) by (apply Z.leb_gt; lia).
  assert (H1 : (adjust W n <=? fsize) = true) by (apply Z.leb_le; lia).
  assert (H2 : (r =? NULL) = false).
  { apply Z.eqb_neq. unfold NULL. destruct Hword; lia. }
  now rewrite H0, H1, H2.
Qed.

Lemma malloc_after_free_reuses_witness :
  word_size 8 /\
  heap_ok 8 two_block_heap [(80, 1); (2016, 1); (2000, 0)] [67696] /\
  In (65600, 80, 1)
     (layout (free_listp two_block_heap + 4 * 8)
        [(80, 1); (2016, 1); (2000, 0)]) /\
  0 < 40 /\ 40 + 2 * DSIZE 8 - 1 < modulus 8 /\ adjust 8 40 <= 80 /\
  exists h' r,
    mm_malloc 8 1 (mm_free 8 two_block_heap 65600) 40 = Some (h', r) /\
    (r = 65600 \/
     exists psize,
       In (r, psize, 0)
          (layout (free_listp two_block_heap + 4 * 8)
             [(80, 1); (2016, 1); (2000, 0)]) /\
       r + psize = 65600).
Proof.
  assert (Hw : word_size 8) by (right; reflexivity).
  assert (Hin : In (65600, 80, 1)
            (layout (free_listp two_block_heap + 4 * 8)
               [(80, 1); (2016, 1); (2000, 0)]))
    by (left; reflexivity).
  assert (H0 : 0 < 40) by reflexivity.
  assert (H1 : 40 + 2 * DSIZE 8 - 1 < modulus 8) by reflexivity.
  assert (H2 : adjust 8 40 <= 80) by (vm_compute; discriminate).
  split; [exact Hw |]. split; [exact two_block_heap_ok |]. split; [exact Hin |].
  split; [exact H0 |]. split; [exact H1 |]. split; [exact H2 |].
  exact (malloc_after_free_reuses 8 two_block_heap
           [(80, 1); (2016, 1); (2000, 0)] [67696] 65600 80 40 0 Hw
           two_block_heap_ok Hin H0 H1 H2).
Defined.

(** A block of a list of blocks of positive sizes is determined by the
    bytes before it. *)
Lemma total_nonneg (bl : list (Z * Z)) :
  Forall (fun b => 0 < fst b) bl -> 0 <= total bl.
Proof.
  induction 1 as [| b bl Hb _ IH]; unfold total in *; simpl; lia.
Qed.

Lemma app_total_unique (A1 : list (Z * Z)) : forall A2 b1 b2 C1 C2,
  Forall (fun b => 0 < fst b) (A1 ++ b1 :: C1) ->
  A1 ++ b1 :: C1 = A2 ++ b2 :: C2 -> total A1 = total A2 ->
  A1 = A2 /\ b1 = b2 /\ C1 = C2.
Proof.
  induction A1 as [| a A1 IH]; intros A2 b1 b2 C1 C2 Hpos Heq Ht.
  - destruct A2 as [| a2 A2]; cbn [app] in Heq.
    + injection Heq as -> ->. auto.
    + exfalso. injection Heq as -> ->.
      apply Forall_cons_iff in Hpos as [Hp Hpos].
      apply Forall_app in Hpos as [Hpos _].
      apply total_nonneg in Hpos. unfold total in *. simpl in Ht. lia.
  - destruct A2 as [| a2 A2]; cbn [app] in Heq.
    + exfalso. injection Heq as -> E. cbn [app] in Hpos.
      apply Forall_cons_iff in Hpos as [Hp Hpos].
      apply Forall_app in Hpos as [Hpos _].
      apply total_nonneg in Hpos. unfold total in *. simpl in Ht. lia.
    + injection Heq as -> E. cbn [app] in Hpos.
      apply Forall_cons_iff in Hpos as [Hp Hpos].
      destruct (IH A2 b1 b2 C1 C2 Hpos E) as (-> & -> & ->).
      * unfold total in *. simpl in Ht. lia.
      * auto.
Qed.

Lemma heap_ok_sizes_positive W h bl l :
  word_size W -> heap_ok W h bl l -> Forall (fun b => 0 < fst b) bl.
Proof.
  intros Hword (_ & _ & _ & Ht & _).
  apply (tagged_positive W Hword) in Ht.
  revert Ht. generalize (free_listp h + 4 * W).
  induction bl as [| [s a] bl IH]; intros p Ht; [constructor |].
  cbn [layout] in Ht. apply Forall_cons_iff in Ht as [Hs Ht].
  constructor; [exact Hs | now apply (IH (p + s))].
Qed.

(** X9.  [mm_free] undoes [mm_malloc].  On a well-formed heap with a free
    block large enough for the request, [mm_malloc] followed by [mm_free]
    of the pointer it returned leaves the heap with the blocks it had
    before the two calls, the same blocks on the free list and the same
    break: splitting a block and coalescing the two halves give back the
    block that was split. *)
Theorem mm_free_undoes_mm_malloc W h bl l n fuel :
  word_size W -> heap_wf W h bl l ->
  0 < n -> n + 2 * DSIZE W - 1 < modulus W ->
  (length l < fuel)%nat ->
  (exists x, In x l /\ adjust W n <= GET_SIZE W (mem h) (HDRP W x)) ->
  exists h1 p l',
    mm_malloc W fuel h n = Some (h1, p) /\ p <> NULL /\
    heap_wf W (mm_free W h1 p) bl l' /\
    (forall x, In x l' <-> In x l) /\
    mem_brk (mm_free W h1 p) = mem_brk h.
Proof.
  intros Hword (Hok & Hpro & Hco) Hn Hlt Hfuel Hfit.
  destruct (mm_malloc_fit W Hword h bl l n fuel Hok Hn Hlt Hfuel Hfit)
    as (r & csize & Hrl & Hge & Hrn & Hm).
  destruct (adjust_block_size W Hword n Hn Hlt) as [Has _].
  set (asize := adjust W n) in *.
  destruct (place_ok W Hword h bl l r csize asize Hok Hrl Has Hge)
    as (bl1 & l1 & s & Hok1 & Hst1 & Hin1 & _ & A & C & Hbl & Hr & Hsh).
  set (h1 := set_mem h (place W (free_listp h) (mem h) r asize)) in *.
  change (free_listp h) with (free_listp h1) in Hin1.
  destruct (mm_free_ok W Hword h1 bl1 l1 r s Hok1 Hin1)
    as (bl2 & l2 & r2 & fsize & Hok2 & Hst2 & _ & _ & _ & Hbrk & _ &
        Apre & oldP & oldN & Cpost & Hbl1 & Hbp & Hbl2 & HP & HN & HcP & HcN).
  change (free_listp h1) with (free_listp h) in Hbp.
  pose proof (heap_ok_sizes_positive W h1 bl1 l1 Hword Hok1) as Hpos.
  (* the block before the one split is allocated, and so is the one after *)
  subst bl. pose proof Hco as Hco0.
  apply coalesced_app in Hco as (_ & HcoC & HcoA).
  cbn [hd snd] in HcoA. cbn [coalesced snd] in HcoC. destruct HcoC as [HcoC _].
  assert (HlA : snd (last A (0, 1)) <> 0) by (intros E; now apply (HcoA E)).
  assert (HhC : snd (hd (0, 1) C) <> 0) by now apply HcoC.
  assert (Htot : total A = total (Apre ++ oldP)) by lia.
  assert (Hbl1' : bl1 = (Apre ++ oldP) ++ (s, 1) :: oldN ++ Cpost)
    by (rewrite Hbl1; now rewrite <- app_assoc).
  assert (Hend : forall s' C',
            bl1 = A ++ (s', 1) :: C' ->
            A = Apre /\ oldP = [] /\ s' = s /\ C' = oldN ++ Cpost).
  { intros s' C' E. rewrite E in Hpos.
    destruct (app_total_unique A (Apre ++ oldP) (s', 1) (s, 1) C'
                (oldN ++ Cpost) Hpos) as (EA & Eb & EC);
      [congruence | exact Htot |].
    inversion Eb; subst s'.
    destruct HP as [-> | (ps & ->)].
    - rewrite app_nil_r in EA. auto.
    - exfalso. apply HlA. rewrite EA, last_last. reflexivity. }
  exists h1, r, (r2 :: l2).
  split; [exact Hm |]. split; [exact Hrn |].
  assert (Hsame : bl2 = A ++ (csize, 0) :: C).
  { rewrite Hbl2. destruct Hsh as [E | E].
    - destruct (Hend _ _ E) as (<- & -> & <- & EC).
      destruct HN as [-> | (ns & ->)].
      + exfalso. cbn [app] in EC. apply HcN; trivial. now rewrite <- EC.
      + cbn [app] in EC. inversion EC; subst.
        do 2 f_equal. unfold total. simpl. f_equal. lia.
    - destruct (Hend _ _ E) as (<- & -> & <- & EC).
      destruct HN as [-> | (ns & ->)].
      + cbn [app] in EC. subst Cpost.
        do 2 f_equal. unfold total. simpl. f_equal. lia.
      + exfalso. apply HhC. rewrite EC. reflexivity. }
  rewrite Hsame in Hok2.
  split; [| split; [| exact Hbrk]].
  - split; [exact Hok2 |]. split.
    + eapply heap_step_prologue; [exact Hword | | exact Hst2].
      eapply heap_step_prologue; [exact Hword | exact Hpro | exact Hst1].
    + exact Hco0.
  - pose proof Hok as (_ & _ & _ & _ & _ & _ & _ & _ & _ & Hiff).
    pose proof Hok2 as (_ & _ & _ & _ & _ & _ & _ & _ & _ & Hiff2).
    pose proof Hst2 as (F2 & _). rewrite F2 in Hiff2.
    change (free_listp h1) with (free_listp h) in Hiff2.
    intros x. now rewrite Hiff, Hiff2.
Qed.

Lemma mm_free_undoes_mm_malloc_witness :
  word_size 8 /\ heap_wf 8 init_heap [(4096, 0)] [65600] /\
  0 < 64 /\ 64 + 2 * DSIZE 8 - 1 < modulus 8 /\
  (length [65600%Z] < 2)%nat /\
  (exists x, In x [65600] /\
             adjust 8 64 <= GET_SIZE 8 (mem init_heap) (HDRP 8 x)) /\
  exists h1 p l',
    mm_malloc 8 2 init_heap 64 = Some (h1, p) /\ p <> NULL /\
    heap_wf 8 (mm_free 8 h1 p) [(4096, 0)] l' /\
    (forall x, In x l' <-> In x [65600]) /\
    mem_brk (mm_free 8 h1 p) = mem_brk init_heap.
Proof.
  assert (Hw : word_size 8) by (right; reflexivity).
  assert (H0 : 0 < 64) by reflexivity.
  assert (H1 : 64 + 2 * DSIZE 8 - 1 < modulus 8) by reflexivity.
  assert (Hf : (length [65600%Z] < 2)%nat) by (simpl; lia).
  assert (Hx : exists x, In x [65600] /\
                 adjust 8 64 <= GET_SIZE 8 (mem init_heap) (HDRP 8 x)).
  { exists 65600. split; [now left |]. vm_compute. discriminate. }
  split; [exact Hw |]. split; [exact init_heap_wf |]. split; [exact H0 |].
  split; [exact H1 |]. split; [exact Hf |]. split; [exact Hx |].
  exact (mm_free_undoes_mm_malloc 8 init_heap [(4096, 0)] [65600] 64 2 Hw
           init_heap_wf H0 H1 Hf Hx).
Defined.

Lemma realloc_asize_ge W size :
  word_size W -> 0 <= size -> size + 32 < modulus W ->
  size + DSIZE W <= realloc_asize W size.
Proof.
  intros [-> | ->] H0 Hlt.
  - rewrite realloc_asize_32 by lia.
    pose proof (round_up_least size 8 ltac:(lia)). unfold DSIZE in *. lia.
  - rewrite realloc_asize_64 by lia.
    pose proof (round_up_least size 8 ltac:(lia)). unfold DSIZE in *. lia.
Qed.

(** X10.  The two in-place paths of [mm_realloc].  When the block is
    already as large as the adjusted request, or the block after it is
    free and the two together are, [mm_realloc] returns the pointer it
    was given.  The heap stays well-formed, the block is at least as large
    as before and has room for [size] bytes, every word of its old
    payload is unchanged, every other allocated block is left alone, and
    in the first case nothing in the heap changes at all: a block is
    never shrunk. *)
Theorem mm_realloc_in_place W h bl l ptr oldsize size fuel :
  word_size W -> heap_wf W h bl l ->
  In (ptr, oldsize, 1) (layout (free_listp h + 4 * W) bl) ->
  0 < size -> size + 32 < modulus W ->
  let m := mem h in
  let asize := realloc_asize W size in
  let esize := wrap W (oldsize + GET_SIZE W m (HDRP W (NEXT_BLKP W m ptr))) in
  asize <= oldsize \/
  (GET_ALLOC m (HDRP W (NEXT_BLKP W m ptr)) = 0 /\ asize <= esize) ->
  exists h' bl' l' s,
    mm_realloc W fuel h ptr size = Some (h', ptr) /\
    heap_wf W h' bl' l' /\
    In (ptr, s, 1) (layout (free_listp h' + 4 * W) bl') /\
    oldsize <= s /\ size + DSIZE W <= s /\
    (forall a, ptr <= a < ptr + oldsize - DSIZE W -> mem h' a = mem h a) /\
    (forall x sz, In (x, sz, 1) (layout (free_listp h + 4 * W) bl) ->
                  x <> ptr -> block_kept W h h' bl' x sz) /\
    (asize <= oldsize -> h' = h).
Proof.
  intros Hword Hwf Hin Hs Hlt m asize esize Hpath.
  destruct (mm_realloc_in_place_ok W Hword h bl l ptr oldsize size fuel
              (proj1 Hwf) Hin ltac:(lia) Hpath)
    as (h' & bl' & l' & s & Hr & Hok' & Hst & Hin' & Hge & Has & Hpay & Hsame).
  exists h', bl', l', s. split; [exact Hr |].
  split; [now apply (heap_step_wf W h bl l h' bl' l' (fun x => x = ptr)
                       (fun x => x = ptr)) |].
  pose proof Hst as (F & _ & _ & _ & _ & K & _).
  split; [now rewrite F |]. split; [exact Hge |].
  split.
  { pose proof (realloc_asize_ge W size Hword ltac:(lia) Hlt).
    fold asize in H. lia. }
  split; [exact Hpay |]. split; [exact K | exact Hsame].
Qed.

Lemma mm_realloc_in_place_witness :
  word_size 8 /\ heap_wf 8 one_block_heap [(80, 1); (4016, 0)] [65680] /\
  In (65600, 80, 1)
     (layout (free_listp one_block_heap + 4 * 8) [(80, 1); (4016, 0)]) /\
  0 < 100 /\ 100 + 32 < modulus 8 /\
  (realloc_asize 8 100 <= 80 \/
   (GET_ALLOC (mem one_block_heap)
      (HDRP 8 (NEXT_BLKP 8 (mem one_block_heap) 65600)) = 0 /\
    realloc_asize 8 100 <=
    wrap 8 (80 + GET_SIZE 8 (mem one_block_heap)
                   (HDRP 8 (NEXT_BLKP 8 (mem one_block_heap) 65600))))) /\
  exists h' bl' l' s,
    mm_realloc 8 0 one_block_heap 65600 100 = Some (h', 65600) /\
    heap_wf 8 h' bl' l' /\
    In (65600, s, 1) (layout (free_listp h' + 4 * 8) bl') /\
    80 <= s /\ 100 + DSIZE 8 <= s /\
    (forall a, 65600 <= a < 65600 + 80 - DSIZE 8 ->
               mem h' a = mem one_block_heap a) /\
    (forall x sz,
       In (x, sz, 1)
          (layout (free_listp one_block_heap + 4 * 8) [(80, 1); (4016, 0)]) ->
       x <> 65600 -> block_kept 8 one_block_heap h' bl' x sz) /\
    (realloc_asize 8 100 <= 80 -> h' = one_block_heap).
Proof.
  assert (Hw : word_size 8) by (right; reflexivity).
  assert (Hin : In (65600, 80, 1)
            (layout (free_listp one_block_heap + 4 * 8) [(80, 1); (4016, 0)]))
    by (left; reflexivity).
  assert (H0 : 0 < 100) by reflexivity.
  assert (H1 : 100 + 32 < modulus 8) by reflexivity.
  assert (Hp : realloc_asize 8 100 <= 80 \/
     (GET_ALLOC (mem one_block_heap)
        (HDRP 8 (NEXT_BLKP 8 (mem one_block_heap) 65600)) = 0 /\
      realloc_asize 8 100 <=
      wrap 8 (80 + GET_SIZE 8 (mem one_block_heap)
                     (HDRP 8 (NEXT_BLKP 8 (mem one_block_heap) 65600))))).
  { right. split; [reflexivity | vm_compute; discriminate]. }
  split; [exact Hw |]. split; [exact one_block_heap_wf |]. split; [exact Hin |].
  split; [exact H0 |]. split; [exact H1 |]. split; [exact Hp |].
  exact (mm_realloc_in_place 8 one_block_heap [(80, 1); (4016, 0)] [65680]
           65600 80 100 0 Hw one_block_heap_wf Hin H0 H1 Hp).
Defined.

(** X11.  [mm_realloc] with a size of 0 is [mm_free] and returns [NULL]:
    called on an allocated block it keeps the heap well-formed and leaves
    every other allocated block alone. *)
Theorem mm_realloc_zero_frees W h bl l ptr size fuel :
  word_size W -> heap_wf W h bl l ->
  In (ptr, size, 1) (layout (free_listp h + 4 * W) bl) ->
  exists h' bl' l',
    mm_realloc W fuel h ptr 0 = Some (h', NULL) /\
    h' = mm_free W h ptr /\
    heap_wf W h' bl' l' /\
    forall x sz, In (x, sz, 1) (layout (free_listp h + 4 * W) bl) ->
                 x <> ptr -> block_kept W h h' bl' x sz.
Proof.
  intros Hword Hwf Hin.
  destruct (mm_free_ok W Hword h bl l ptr size (proj1 Hwf) Hin)
    as (bl' & l' & r & fsize & Hok' & Hst & _).
  exists (mm_free W h ptr), bl', (r :: l').
  split; [reflexivity |]. split; [reflexivity |].
  split; [now apply (heap_step_wf W h bl l _ bl' _ (fun x => x = ptr)
                       (fun _ => False)) |].
  destruct Hst as (_ & _ & _ & _ & _ & K & _). exact K.
Qed.

Lemma mm_realloc_zero_frees_witness :
  word_size 8 /\
  heap_wf 8 two_block_heap [(80, 1); (2016, 1); (2000, 0)] [67696] /\
  In (65680, 2016, 1)
     (layout (free_listp two_block_heap + 4 * 8)
        [(80, 1); (2016, 1); (2000, 0)]) /\
  exists h' bl' l',
    mm_realloc 8 0 two_block_heap 65680 0 = Some (h', NULL) /\
    h' = mm_free 8 two_block_heap 65680 /\
    heap_wf 8 h' bl' l' /\
    forall x sz,
      In (x, sz, 1)
         (layout (free_listp two_block_heap + 4 * 8)
            [(80, 1); (2016, 1); (2000, 0)]) ->
      x <> 65680 -> block_kept 8 two_block_heap h' bl' x sz.
Proof.
  assert (Hw : word_size 8) by (right; reflexivity).
  assert (Hin : In (65680, 2016, 1)
            (layout (free_listp two_block_heap + 4 * 8)
               [(80, 1); (2016, 1); (2000, 0)]))
    by (right; left; reflexivity).
  split; [exact Hw |]. split; [exact two_block_heap_wf |]. split; [exact Hin |].
  exact (mm_realloc_zero_frees 8 two_block_heap
           [(80, 1); (2016, 1); (2000, 0)] [67696] 65680 2016 0 Hw
           two_block_heap_wf Hin).
Defined.

Lemma tight_block_heap_ok :
  heap_ok 8 tight_block_heap [(80, 1); (4016, 0)] [65680].
Proof.
  unfold heap_ok.
  change (free_listp tight_block_heap) with 65568.
  change (mem_brk tight_block_heap) with 69696.
  change (mem_max_addr tight_block_heap) with 69696.
  split; [reflexivity |]. split; [vm_compute; discriminate |].
  split; [split; reflexivity |].
  split.
  { repeat constructor; try reflexivity; vm_compute; discriminate. }
  split; [reflexivity |]. split; [reflexivity |].
  split; [vm_compute; discriminate |]. split; [reflexivity |].
  split.
  { split; [repeat split; reflexivity |]. split.
    - repeat constructor; simpl; intuition discriminate.
    - intros x Hx. in_cases Hx; subst x; reflexivity. }
  intros x. split.
  - intros Hx. in_cases Hx. subst x. exists 4016. right. now left.
  - intros (sz & Hx). in_cases Hx; inversion Hx. now left.
Qed.

(** X12.  Running out of memory in the copy path of [mm_realloc].  When
    the block can neither stay nor grow in place, no free block fits and
    the region cannot be extended, the [mm_malloc] that [mm_realloc] calls
    returns [NULL] and leaves the heap as it was; [mm_realloc] does not
    test that result and goes on to [place(NULL, asize)], which loads the
    header at [NULL - WSIZE]: the call has no result.  It does not return
    [NULL], as its header comment says it does when the allocation
    fails. *)
Theorem mm_realloc_out_of_memory W h bl l ptr oldsize size fuel :
  word_size W -> heap_ok W h bl l ->
  In (ptr, oldsize, 1) (layout (free_listp h + 4 * W) bl) ->
  size <> 0 ->
  let m := mem h in
  let asize := realloc_asize W size in
  let esize := wrap W (oldsize + GET_SIZE W m (HDRP W (NEXT_BLKP W m ptr))) in
  oldsize < asize ->
  (GET_ALLOC m (HDRP W (NEXT_BLKP W m ptr)) <> 0 \/ esize < asize) ->
  0 < asize -> asize + 2 * DSIZE W - 1 < modulus W ->
  (forall x, In x l -> GET_SIZE W m (HDRP W x) < adjust W asize) ->
  mem_max_addr h < mem_brk h + MAX (adjust W asize) CHUNKSIZE ->
  (length l < fuel)%nat ->
  mm_malloc W fuel h asize = Some (h, NULL) /\
  mm_realloc W fuel h ptr size = None.
Proof.
  intros Hword Hok Hin Hs m asize esize Hgrow Hstay Ha0 Haw Hnofit Hnoroom Hfuel.
  pose proof Hok as (Af & Hf4 & _ & Ht & Hb & _ & Hbm & Hmx & _).
  pose proof (tagged_positive W Hword _ _ Ht) as Hpos.
  pose proof (proj1 (Forall_forall _ _) Ht _ Hin) as (Hsz & _ & Hh & _).
  destruct (layout_bounds _ _ _ _ _ Hpos Hin) as [Hlo Hhi].
  assert (S0 : GET_SIZE W m (HDRP W ptr) = oldsize).
  { apply (GET_SIZE_PACK W Hword) with (a := 1); trivial;
      try apply Hsz; try (now right);
      unfold block_size, DSIZE, modulus in *;
      destruct Hword as [E | E]; rewrite E in *; lia. }
  destruct (mm_malloc_ok W Hword h bl l asize fuel Hok Ha0 Haw Hfuel)
    as (h1 & r & bl1 & l1 & Hm & _ & _ & Hr & Hnull).
  assert (Hz : r = NULL).
  { destruct (Z.eq_dec r NULL) as [Hz | Hne]; [exact Hz |].
    destruct (Hr Hne) as (_ & _ & _ & _ & [(x & Hx & Hge) | Hroom]).
    - specialize (Hnofit x Hx). fold m in Hge. lia.
    - lia. }
  subst r. destruct (Hnull eq_refl) as (-> & _).
  split; [exact Hm |].
  unfold mm_realloc. fold asize m.
  apply Z.eqb_neq in Hs. rewrite Hs.
  assert (Hp : (ptr =? NULL) = false).
  { apply Z.eqb_neq. unfold NULL. destruct Hword; lia. }
  rewrite Hp, S0.
  assert (Hc1 : (asize <=? oldsize) = false) by (apply Z.leb_gt; lia).
  rewrite Hc1. fold esize.
  assert (Hc2 : (GET_ALLOC m (HDRP W (NEXT_BLKP W m ptr)) =? 0)
                && (esize >=? asize) = false).
  { apply andb_false_iff. destruct Hstay as [Hn | Hlt].
    - left. now apply Z.eqb_neq.
    - right. rewrite Z.geb_leb. apply Z.leb_gt. lia. }
  rewrite Hc2, Hm. reflexivity.
Qed.

Lemma mm_realloc_out_of_memory_witness :
  word_size 8 /\ heap_ok 8 tight_block_heap [(80, 1); (4016, 0)] [65680] /\
  In (65600, 80, 1)
     (layout (free_listp tight_block_heap + 4 * 8) [(80, 1); (4016, 0)]) /\
  5000 <> 0 /\ 80 < realloc_asize 8 5000 /\
  (GET_ALLOC (mem tight_block_heap)
     (HDRP 8 (NEXT_BLKP 8 (mem tight_block_heap) 65600)) <> 0 \/
   wrap 8 (80 + GET_SIZE 8 (mem tight_block_heap)
                  (HDRP 8 (NEXT_BLKP 8 (mem tight_block_heap) 65600)))
   < realloc_asize 8 5000) /\
  0 < realloc_asize 8 5000 /\
  realloc_asize 8 5000 + 2 * DSIZE 8 - 1 < modulus 8 /\
  (forall x, In x [65680] ->
             GET_SIZE 8 (mem tight_block_heap) (HDRP 8 x)
             < adjust 8 (realloc_asize 8 5000)) /\
  mem_max_addr tight_block_heap
  < mem_brk tight_block_heap + MAX (adjust 8 (realloc_asize 8 5000)) CHUNKSIZE /\
  (length [65680%Z] < 2)%nat /\
  mm_malloc 8 2 tight_block_heap (realloc_asize 8 5000)
  = Some (tight_block_heap, NULL) /\
  mm_realloc 8 2 tight_block_heap 65600 5000 = None.
Proof.
  assert (Hw : word_size 8) by (right; reflexivity).
  assert (Hin : In (65600, 80, 1)
            (layout (free_listp tight_block_heap + 4 * 8)
               [(80, 1); (4016, 0)])) by (left; reflexivity).
  assert (H0 : 5000 <> 0) by discriminate.
  assert (H1 : 80 < realloc_asize 8 5000) by reflexivity.
  assert (H2 : GET_ALLOC (mem tight_block_heap)
                 (HDRP 8 (NEXT_BLKP 8 (mem tight_block_heap) 65600)) <> 0 \/
               wrap 8 (80 + GET_SIZE 8 (mem tight_block_heap)
                              (HDRP 8 (NEXT_BLKP 8 (mem tight_block_heap)
                                         65600)))
               < realloc_asize 8 5000) by (right; reflexivity).
  assert (H3 : 0 < realloc_asize 8 5000) by reflexivity.
  assert (H4 : realloc_asize 8 5000 + 2 * DSIZE 8 - 1 < modulus 8)
    by reflexivity.
  assert (H5 : forall x, In x [65680] ->
                 GET_SIZE 8 (mem tight_block_heap) (HDRP 8 x)
                 < adjust 8 (realloc_asize 8 5000)).
  { intros x Hx. in_cases Hx. subst x. reflexivity. }
  assert (H6 : mem_max_addr tight_block_heap
               < mem_brk tight_block_heap
                 + MAX (adjust 8 (realloc_asize 8 5000)) CHUNKSIZE)
    by reflexivity.
  assert (Hf : (length [65680%Z] < 2)%nat) by (simpl; lia).
  split; [exact Hw |]. split; [exact tight_block_heap_ok |].
  split; [exact Hin |]. split; [exact H0 |]. split; [exact H1 |].
  split; [exact H2 |]. split; [exact H3 |]. split; [exact H4 |].
  split; [exact H5 |]. split; [exact H6 |]. split; [exact Hf |].
  exact (mm_realloc_out_of_memory 8 tight_block_heap [(80, 1); (4016, 0)]
           [65680] 65600 80 5000 2 Hw tight_block_heap_ok Hin H0 H1 H2 H3 H4
           H5 H6 Hf).
Defined.

Lemma extend_bytes_round W words :
  word_size W -> 0 <= words -> (words + 1) * W < modulus W ->
  extend_bytes W words = round_up (words * W) (DSIZE W).
Proof.
  intros Hword H0 Hlt. unfold extend_bytes, round_up, wrap, DSIZE, modulus in *.
  destruct Hword as [-> | ->];
    change (2 ^ (8 * 4)) with 4294967296 in *;
    change (2 ^ (8 * 8)) with 18446744073709551616 in *;
    (destruct (words mod 2 =? 0) eqn:He;
     [apply Z.eqb_eq in He | apply Z.eqb_neq in He];
     rewrite Z.mod_small by lia; lia).
Qed.

(** X13.  [extend_heap] rounds the word count up to an even number of
    words and moves the break by that many bytes.  When the region has
    room, the new bytes become a free block at the end of the heap, merged
    with the block before them when that one is free; the block returned
    ends at the new break and heads the free list, the heap stays
    well-formed, and every allocated block is left alone. *)
Theorem extend_heap_appends W h bl l words :
  word_size W -> heap_wf W h bl l ->
  3 <= words -> (words + 1) * W < modulus W ->
  mem_brk h + extend_bytes W words <= mem_max_addr h ->
  let size := extend_bytes W words in
  let h' := fst (extend_heap W h words) in
  let r := snd (extend_heap W h words) in
  size = round_up (words * W) (DSIZE W) /\
  exists bl' l' csize,
    heap_wf W h' bl' (r :: l') /\
    mem_brk h' = mem_brk h + size /\
    In (r, csize, 0) (layout (free_listp h' + 4 * W) bl') /\
    r + csize = mem_brk h' /\
    ((r = mem_brk h /\ csize = size /\ bl' = bl ++ [(size, 0)]) \/
     (exists bl0 psize,
        bl = bl0 ++ [(psize, 0)] /\ r = mem_brk h - psize /\
        csize = psize + size /\ bl' = bl0 ++ [(csize, 0)])) /\
    forall x sz, In (x, sz, 1) (layout (free_listp h + 4 * W) bl) ->
                 block_kept W h h' bl' x sz.
Proof.
  intros Hword Hwf H3 Hlt Hroom size h' r.
  assert (Hround : size = round_up (words * W) (DSIZE W))
    by (apply extend_bytes_round; trivial; lia).
  split; [exact Hround |].
  assert (Hbs : block_size W size).
  { rewrite Hround. unfold round_up, block_size, DSIZE.
    destruct Hword as [-> | ->]; lia. }
  assert (Hsb : mem_sbrk h size =
                Some (mkHeap (mem h) (heap_listp h) (free_listp h)
                        (mem_brk h + size) (mem_max_addr h), mem_brk h)).
  { unfold mem_sbrk.
    assert (Hc : (0 <=? size) && (mem_brk h + size <=? mem_max_addr h) = true).
    { apply andb_true_intro. split; apply Z.leb_le; [| exact Hroom].
      unfold block_size, DSIZE in Hbs. destruct Hword; lia. }
    now rewrite Hc. }
  destruct (extend_heap_ok W Hword h bl l words _ _ (proj1 Hwf) Hbs Hsb)
    as (bl' & l' & csize & Hok' & Hst & Hin & _ & _ & Hbrk & Hend & Hshape).
  fold h' r size in Hok', Hst, Hin, Hbrk, Hend, Hshape.
  pose proof Hst as (F & _ & _ & _ & _ & K & _).
  assert (Hwf' : heap_wf W h' bl' l')
    by (now apply (heap_step_wf W h bl l h' bl' l' (fun _ => False)
                 (fun _ => False))).
  destruct Hshape as [(Hbl & Hl & Hr & _) | (bl0 & psize & Hbl0 & Hbl & Hl & Hr)].
  - exists bl', l, csize. rewrite <- Hl.
    split; [exact Hwf' |]. split; [exact Hbrk |].
    split; [now rewrite F |]. split; [exact Hend |].
    split; [| intros x sz Hx; exact (K x sz Hx (fun f => f))].
    left. repeat split; trivial. lia.
  - exists bl', (remove Z.eq_dec (mem_brk h - psize) l), csize. rewrite <- Hl.
    split; [exact Hwf' |]. split; [exact Hbrk |].
    split; [now rewrite F |]. split; [exact Hend |].
    split; [| intros x sz Hx; exact (K x sz Hx (fun f => f))].
    right. exists bl0, psize.
    assert (Hc : csize = psize + size) by lia.
    repeat split; trivial. now rewrite Hc.
Qed.

Lemma extend_heap_appends_witness :
  word_size 8 /\ heap_wf 8 init_heap [(4096, 0)] [65600] /\
  3 <= 512 /\ (512 + 1) * 8 < modulus 8 /\
  mem_brk init_heap + extend_bytes 8 512 <= mem_max_addr init_heap /\
  extend_bytes 8 512 = round_up (512 * 8) (DSIZE 8) /\
  exists bl' l' csize,
    heap_wf 8 (fst (extend_heap 8 init_heap 512)) bl'
      (snd (extend_heap 8 init_heap 512) :: l') /\
    mem_brk (fst (extend_heap 8 init_heap 512)) =
      mem_brk init_heap + extend_bytes 8 512 /\
    In (snd (extend_heap 8 init_heap 512), csize, 0)
       (layout (free_listp (fst (extend_heap 8 init_heap 512)) + 4 * 8) bl') /\
    snd (extend_heap 8 init_heap 512) + csize =
      mem_brk (fst (extend_heap 8 init_heap 512)) /\
    ((snd (extend_heap 8 init_heap 512) = mem_brk init_heap /\
      csize = extend_bytes 8 512 /\
      bl' = [(4096, 0)] ++ [(extend_bytes 8 512, 0)]) \/
     (exists bl0 psize,
        [(4096, 0)] = bl0 ++ [(psize, 0)] /\
        snd (extend_heap 8 init_heap 512) = mem_brk init_heap - psize /\
        csize = psize + extend_bytes 8 512 /\ bl' = bl0 ++ [(csize, 0)])) /\
    forall x sz,
      In (x, sz, 1) (layout (free_listp init_heap + 4 * 8) [(4096, 0)]) ->
      block_kept 8 init_heap (fst (extend_heap 8 init_heap 512)) bl' x sz.
Proof.
  assert (Hw : word_size 8) by (right; reflexivity).
  assert (H0 : 3 <= 512) by (vm_compute; discriminate).
  assert (H1 : (512 + 1) * 8 < modulus 8) by reflexivity.
  assert (H2 : mem_brk init_heap + extend_bytes 8 512
               <= mem_max_addr init_heap) by (vm_compute; discriminate).
  split; [exact Hw |]. split; [exact init_heap_wf |]. split; [exact H0 |].
  split; [exact H1 |]. split; [exact H2 |].
  exact (extend_heap_appends 8 init_heap [(4096, 0)] [65600] 512 Hw
           init_heap_wf H0 H1 H2).
Defined.

(** X14.  [remove_free] undoes [add_free].  Adding an aligned block that
    is not on a well-linked free list and removing it again gives back the
    same list, and every word of memory except the two link words of the
    block itself is as it was. *)
Theorem remove_free_undoes_add_free W m flp l bp :
  word_size W ->
  free_list W m flp l -> ~ In bp (flp :: l) -> aligned W bp ->
  let m' := remove_free W (add_free W flp m bp) bp in
  free_list W m' flp l /\
  forall a, a <> bp -> a <> bp + W -> m' a = m a.
Proof.
  intros Hword Hfl Hnin Ab m'.
  pose proof Hfl as (Hd & ND & Hal).
  assert (Af : aligned W flp) by (apply Hal; now left).
  destruct (dll_first W _ _ _ _ Hd) as [Hn Hp].
  assert (Ih : In (hd flp l) (flp :: l)) by (destruct l; simpl; auto).
  assert (Ah := Hal _ Ih).
  assert (Hne : bp <> flp /\ bp <> hd flp l).
  { split; intros Heq; apply Hnin; rewrite Heq; [now left | exact Ih]. }
  set (nx := hd flp l) in *.
  unfold next_of, prev_of, GET in Hn, Hp.
  assert (Hsep : bp <> flp + W /\ bp + W <> flp /\ bp + W <> nx /\
                 flp + W <> nx /\ flp + W <> bp + W /\ bp + W <> bp).
  { destruct Hne as [N1 N2]. unfold aligned, DSIZE in *.
    destruct Hword as [E | E]; rewrite E in *; lia. }
  destruct Hsep as (S1 & S2 & S3 & S4 & S5 & S6). destruct Hne as [N1 N2].
  assert (Hadd : add_free W flp m bp =
                 upd (upd (upd (upd m nx bp) (bp + W) nx) bp flp) (flp + W) bp).
  { unfold add_free, set_prev, set_next, next_of, PUT, GET.
    rewrite Hn. fold nx.
    rewrite (upd_other m nx bp (flp + W)) by exact S4. now rewrite Hn. }
  assert (Hframe : forall a, a <> bp -> a <> bp + W -> m' a = m a).
  { intros a H1 H2. subst m'. rewrite Hadd.
    unfold remove_free, set_prev, set_next, next_of, prev_of, PUT, GET.
    set (m4 := upd (upd (upd (upd m nx bp) (bp + W) nx) bp flp) (flp + W) bp).
    assert (V1 : m4 (bp + W) = nx).
    { unfold m4. rewrite upd_other by congruence.
      rewrite upd_other by exact S6. apply upd_same. }
    assert (V2 : m4 bp = flp).
    { unfold m4. rewrite upd_other by exact S1. apply upd_same. }
    rewrite V1, V2.
    rewrite (upd_other m4 nx flp bp) by exact N2. rewrite V2.
    rewrite (upd_other m4 nx flp (bp + W)) by exact S3. rewrite V1.
    destruct (Z.eq_dec a (flp + W)) as [-> | Ha1]; [now rewrite upd_same |].
    rewrite upd_other by exact Ha1.
    destruct (Z.eq_dec a nx) as [-> | Ha2]; [now rewrite upd_same |].
    rewrite upd_other by exact Ha2.
    unfold m4. now rewrite !upd_other by assumption. }
  split; [| exact Hframe].
  split; [| split; trivial].
  assert (Hal' : forall x, In x (flp :: l) -> x <> bp /\ x + W <> bp /\
                                              x <> bp + W).
  { intros x Hx. assert (Ax := Hal _ Hx).
    assert (x <> bp) by (intros ->; now apply Hnin).
    unfold aligned, DSIZE in *. destruct Hword as [E | E]; rewrite E in *; lia. }
  apply dll_frame with (m := m); trivial.
  - intros x Hx. destruct (Hal' x Hx) as (H1 & H2 & H3).
    apply Hframe; [exact H2 | lia].
  - intros x Hx.
    assert (Hx' : In x (flp :: l)).
    { rewrite in_app_iff in Hx. simpl in *. tauto. }
    destruct (Hal' x Hx') as (H1 & H2 & H3). now apply Hframe.
Qed.

Lemma remove_free_undoes_add_free_witness :
  word_size 8 /\ free_list 8 (mem init_heap) 65568 [65600] /\
  ~ In 66000 [65568; 65600] /\ aligned 8 66000 /\
  free_list 8 (remove_free 8 (add_free 8 65568 (mem init_heap) 66000) 66000)
    65568 [65600] /\
  forall a, a <> 66000 -> a <> 66000 + 8 ->
    remove_free 8 (add_free 8 65568 (mem init_heap) 66000) 66000 a =
    mem init_heap a.
Proof.
  assert (Hw : word_size 8) by (right; reflexivity).
  assert (Hn : ~ In 66000 [65568; 65600]).
  { intros H. in_cases H; discriminate. }
  assert (Ha : aligned 8 66000) by reflexivity.
  split; [exact Hw |]. split; [exact init_heap_free_list |].
  split; [exact Hn |]. split; [exact Ha |].
  exact (remove_free_undoes_add_free 8 (mem init_heap) 65568 [65600] 66000
           Hw init_heap_free_list Hn Ha).
Defined.

(** ** Any sequence of calls *)

Lemma layout_length bl : forall p, length (layout p bl) = length bl.
Proof.
  induction bl as [| [sz a] bl IH]; intros p; simpl; [reflexivity |].
  now rewrite IH.
Qed.

(** The free list is never longer than the region allows: every block
    takes at least four words. *)
Lemma heap_ok_list_length W h bl l :
  word_size W -> heap_ok W h bl l ->
  (length l <= Z.to_nat (mem_max_addr h / (4 * W)))%nat.
Proof.
  intros Hword Hok.
  pose proof Hok as (Af & Hf4 & Hs & Ht & Hb & He & Hbm & Hmx & Hfl & Hiff).
  assert (H1 : (length l <= length bl)%nat).
  { rewrite <- (layout_length bl (free_listp h + 4 * W)).
    rewrite <- (length_map (fun b : Z * Z * Z => fst (fst b))).
    apply NoDup_incl_length.
    - destruct Hfl as (_ & ND & _). now apply NoDup_cons_iff in ND.
    - intros x Hx. apply Hiff in Hx as (sz & Hx).
      apply in_map_iff. now exists (x, sz, 0). }
  assert (H2 : 4 * W * Z.of_nat (length bl) <= total bl).
  { clear - Ht Hword. revert Ht. generalize (free_listp h + 4 * W).
    induction bl as [| [sz a] bl IH]; intros p Ht.
    - unfold total. simpl. lia.
    - cbn [layout] in Ht. apply Forall_cons_iff in Ht as [(Hs & _) Ht].
      apply IH in Ht. change (total ((sz, a) :: bl)) with (sz + total bl).
      cbn [length]. unfold block_size, DSIZE in Hs.
      destruct Hword as [E | E]; rewrite E in *; lia. }
  assert (H3 : Z.of_nat (length bl) <= mem_max_addr h / (4 * W)).
  { apply Z.div_le_lower_bound; destruct Hword as [E | E]; rewrite E in *; lia. }
  lia.
Qed.

Lemma NoDup_remove_elt (x : Z) l :
  NoDup l -> NoDup (remove Z.eq_dec x l).
Proof.
  induction 1 as [| y l Hy ND IH]; cbn [remove]; [constructor |].
  destruct (Z.eq_dec x y); [exact IH |].
  constructor; [| exact IH]. intros Hin. apply in_remove in Hin. tauto.
Qed.

Lemma run_calls_inv W fuel : forall cs h bl l live,
  word_size W -> heap_wf W h bl l ->
  (forall p, In p live <->
             exists sz, In (p, sz, 1) (layout (free_listp h + 4 * W) bl)) ->
  NoDup live ->
  Forall (call_ok W) cs ->
  (Z.to_nat (mem_max_addr h / (4 * W)) < fuel)%nat ->
  exists h' live' bl' l',
    run_calls W fuel h live cs = Some (h', live') /\
    heap_wf W h' bl' l' /\
    (forall p, In p live' <->
               exists sz, In (p, sz, 1) (layout (free_listp h' + 4 * W) bl')) /\
    NoDup live'.
Proof.
  induction cs as [| c cs IH]; intros h bl l live Hword Hwf Hlive ND Hcs Hfuel.
  - exists h, live, bl, l. auto.
  - apply Forall_cons_iff in Hcs as [Hc Hcs].
    pose proof (heap_ok_list_length W h bl l Hword (proj1 Hwf)) as Hlen.
    destruct c as [n | p]; cbn [run_calls].
    + destruct Hc as [Hn0 Hnw].
      destruct (Z.eq_dec n 0) as [-> | Hnz].
      { (* a request of 0 bytes *)
        unfold mm_malloc. cbn [Z.leb Z.compare Z.eqb NULL].
        now apply IH with (bl := bl) (l := l). }
      destruct (mm_malloc_ok W Hword h bl l n fuel (proj1 Hwf) ltac:(lia)
                  Hnw ltac:(lia))
        as (h' & r & bl' & l' & Hm & Hok' & Hst & Hr & _).
      rewrite Hm.
      pose proof Hst as (F & _ & M & _ & _ & K & N).
      pose proof Hok' as (_ & Hf4' & _).
      assert (Hpos : forall x sz,
                In (x, sz, 1) (layout (free_listp h' + 4 * W) bl') ->
                x <> NULL).
      { intros x sz Hx.
        destruct (heap_ok_block_where W h' bl' l' x sz 1 Hword Hok' Hx)
          as (_ & Hlo & _). unfold NULL. destruct Hword; lia. }
      apply IH with (bl := bl') (l := l'); trivial.
      * now apply (heap_step_wf W h bl l h' bl' l' (fun _ => False)
                     (fun x => x = r)).
      * intros p. split.
        -- intros Hp.
           assert (Hcase : (r <> NULL /\ p = r) \/ In p live).
           { destruct (r =? NULL) eqn:Hz; [now right |].
             apply Z.eqb_neq in Hz. destruct Hp as [<- | Hp]; auto. }
           destruct Hcase as [[Hne ->] | Hp'].
           ++ destruct (Hr Hne) as (s & Hs & _). exists s. now rewrite F.
           ++ apply Hlive in Hp' as (sz & Hp').
              exists sz. now apply (K p sz Hp' (fun f => f)).
        -- intros (sz & Hp). destruct (N p sz Hp) as [-> | Hold].
           ++ apply Hpos in Hp. apply Z.eqb_neq in Hp. rewrite Hp. now left.
           ++ assert (In p live) by (apply Hlive; now exists sz).
              destruct (r =? NULL); [assumption | now right].
      * destruct (r =? NULL) eqn:Hz; [exact ND |].
        apply Z.eqb_neq in Hz. constructor; [| exact ND].
        intros Hin. apply Hlive in Hin as (sz & Hin).
        destruct (Hr Hz) as (_ & _ & _ & Hfresh & _).
        now apply (Hfresh r sz Hin).
      * now rewrite M.
    + destruct (in_dec Z.eq_dec p live) as [Hp | Hp];
        [| now apply IH with (bl := bl) (l := l)].
      apply Hlive in Hp as (size & Hp).
      destruct (mm_free_ok W Hword h bl l p size (proj1 Hwf) Hp)
        as (bl' & l' & r & fsize & Hok' & Hst & Hrin & Hlo & Hhi & _).
      pose proof Hst as (F & _ & M & _ & _ & K & N).
      pose proof (proj1 Hwf) as (_ & _ & _ & Ht & _).
      pose proof (proj1 (Forall_forall _ _) Ht _ Hp) as ((_ & Hsz) & _).
      apply IH with (bl := bl') (l := r :: l'); trivial.
      * now apply (heap_step_wf W h bl l _ bl' _ (fun x => x = p)
                     (fun _ => False)).
      * intros q. split.
        -- intros Hq. apply in_remove in Hq as [Hq Hne].
           apply Hlive in Hq as (sz & Hq). exists sz.
           now apply (K q sz Hq).
        -- intros (sz & Hq). destruct (N q sz Hq) as [[] | Hold].
           apply in_in_remove; [| apply Hlive; now exists sz].
           intros ->. rewrite F in Hq.
           pose proof Hok' as (_ & _ & _ & Ht' & _).
           pose proof (tagged_positive W Hword _ _ Ht') as Hpos'.
           rewrite F in Hpos'.
           pose proof (proj1 (Forall_forall _ _) Hpos' _ Hq) as Hq0.
           destruct (layout_disjoint _ _ _ _ _ _ _ _ Hpos' Hq Hrin)
             as [Heq | Hd]; [inversion Heq |].
           simpl in Hq0. unfold DSIZE in Hsz. destruct Hword; lia.
      * now apply NoDup_remove_elt.
      * now rewrite M.
Qed.

(** X15.  Any sequence of calls.  Starting from [mm_init] on a suitable
    region, a client that calls [mm_malloc] with sizes whose rounding does
    not wrap, and [mm_free] on pointers it holds, can go on for ever:
    every call returns (the loop of [find_fit] needs no more steps than
    the region has room for blocks of four words), the heap is well-formed
    after every call, and the pointers the client holds are exactly the
    allocated blocks of the heap, each held once. *)
Theorem run_calls_well_formed W fuel h0 cs :
  word_size W ->
  0 <= mem_brk h0 -> mem_brk h0 mod DSIZE W = 0 ->
  mem_brk h0 + 8 * W + CHUNKSIZE <= mem_max_addr h0 ->
  mem_max_addr h0 + 1 < modulus W ->
  Forall (call_ok W) cs ->
  (Z.to_nat (mem_max_addr h0 / (4 * W)) < fuel)%nat ->
  exists h live bl l,
    run_calls W fuel (fst (mm_init W h0)) [] cs = Some (h, live) /\
    heap_wf W h bl l /\
    (forall p, In p live <->
               exists sz, In (p, sz, 1) (layout (free_listp h + 4 * W) bl)) /\
    NoDup live.
Proof.
  intros Hword H0 Hal Hroom Hmax Hcs Hfuel.
  destruct (mm_init_ok W Hword h0 H0 Hal Hroom Hmax)
    as (_ & Hwf & Hflp & _ & Hm).
  apply run_calls_inv with (bl := [(CHUNKSIZE, 0)]) (l := [mem_brk h0 + 8 * W]);
    trivial.
  - intros p. split; [intros [] |].
    intros (sz & [Heq | []]). inversion Heq.
  - constructor.
  - now rewrite Hm.
Qed.

Lemma run_calls_well_formed_witness :
  word_size 8 /\ 0 <= mem_brk fresh_region /\
  mem_brk fresh_region mod DSIZE 8 = 0 /\
  mem_brk fresh_region + 8 * 8 + CHUNKSIZE <= mem_max_addr fresh_region /\
  mem_max_addr fresh_region + 1 < modulus 8 /\
  Forall (call_ok 8) [Malloc 64; Malloc 2000; Free 65600; Malloc 40] /\
  (Z.to_nat (mem_max_addr fresh_region / (4 * 8)) < Z.to_nat 700000)%nat /\
  exists h live bl l,
    run_calls 8 (Z.to_nat 700000) (fst (mm_init 8 fresh_region)) []
      [Malloc 64; Malloc 2000; Free 65600; Malloc 40] = Some (h, live) /\
    heap_wf 8 h bl l /\
    (forall p, In p live <->
               exists sz, In (p, sz, 1) (layout (free_listp h + 4 * 8) bl)) /\
    NoDup live.
Proof.
  assert (Hw : word_size 8) by (right; reflexivity).
  assert (H0 : 0 <= mem_brk fresh_region) by (vm_compute; discriminate).
  assert (H1 : mem_brk fresh_region mod DSIZE 8 = 0) by reflexivity.
  assert (H2 : mem_brk fresh_region + 8 * 8 + CHUNKSIZE
               <= mem_max_addr fresh_region) by (vm_compute; discriminate).
  assert (H3 : mem_max_addr fresh_region + 1 < modulus 8) by reflexivity.
  assert (H4 : Forall (call_ok 8)
                 [Malloc 64; Malloc 2000; Free 65600; Malloc 40]).
  { repeat constructor; vm_compute; discriminate. }
  assert (H5 : (Z.to_nat (mem_max_addr fresh_region / (4 * 8))
                < Z.to_nat 700000)%nat).
  { apply Z2Nat.inj_lt; vm_compute; congruence. }
  split; [exact Hw |]. split; [exact H0 |]. split; [exact H1 |].
  split; [exact H2 |]. split; [exact H3 |]. split; [exact H4 |].
  split; [exact H5 |].
  exact (run_calls_well_formed 8 (Z.to_nat 700000) fresh_region
           [Malloc 64; Malloc 2000; Free 65600; Malloc 40]
           Hw H0 H1 H2 H3 H4 H5).
Defined.

(** ** The consistency checker *)

Lemma GET_SIZE_nonneg W m p : word_size W -> 0 <= GET_SIZE W m p.
Proof.
  intros Hword. unfold GET_SIZE. apply Z.land_nonneg. right.
  unfold wrap. apply Z.mod_pos_bound. unfold modulus.
  apply Z.pow_pos_nonneg; destruct Hword; lia.
Qed.

Lemma heap_walk_entries W m : forall fuel bp,
  Forall (fun b => snd (fst b) = GET_SIZE W m (HDRP W (fst (fst b))))
         (heap_walk W fuel m bp).
Proof.
  induction fuel as [| fuel IH]; intros bp; cbn [heap_walk]; [constructor |].
  destruct (GET_SIZE W m (HDRP W bp) >? 0); constructor; auto.
Qed.

Lemma flat_map_nil {A B : Type} (f : A -> list B) (l : list A) :
  flat_map f l = [] <-> Forall (fun x => f x = []) l.
Proof.
  induction l as [| x l IH]; cbn [flat_map].
  - split; auto.
  - split.
    + intros H. apply app_eq_nil in H as [H1 H2]. constructor; tauto.
    + intros H. inversion H; subst. rewrite H2. now apply IH.
Qed.

(** X16.  What a quiet [checkheap(false)] amounts to, on any memory: the
    walk from [heap_listp] reaches a header of size 0, the first header is
    that of the prologue (one double word, allocated), every block on the
    way is double-word aligned with a header equal to its footer, and the
    header the walk stops at has its allocated bit set.  Nothing else is
    looked at: neither the free list nor the payloads. *)
Theorem checkheap_quiet_iff W fuel h :
  word_size W ->
  let m := mem h in
  let blocks := heap_walk W fuel m (heap_listp h) in
  let stop := heap_listp h + total (sizes_of blocks) in
  checkheap W fuel false h = Some [] <->
  (length blocks < fuel)%nat /\
  GET_SIZE W m (HDRP W (heap_listp h)) = DSIZE W /\
  GET_ALLOC m (HDRP W (heap_listp h)) = 1 /\
  Forall (fun b => let '(bp, sz, _) := b in
            bp mod DSIZE W = 0 /\ m (HDRP W bp) = m (bp + sz - DSIZE W))
         blocks /\
  GET_SIZE W m (HDRP W stop) = 0 /\ GET_ALLOC m (HDRP W stop) = 1.
Proof.
  intros Hword m blocks.
  assert (Hck : Forall (fun b => checkblock W m (fst (fst b)) = []) blocks <->
                Forall (fun b => let '(bp, sz, _) := b in
                          bp mod DSIZE W = 0 /\
                          m (HDRP W bp) = m (bp + sz - DSIZE W)) blocks).
  { pose proof (heap_walk_entries W m fuel (heap_listp h)) as He.
    fold blocks in He. clearbody blocks.
    induction He as [| b bs Hb He IH].
    - split; constructor.
    - destruct b as [[bp sz] a]. cbn [fst snd] in Hb.
      rewrite !Forall_cons_iff, IH. cbn [fst].
      rewrite checkblock_nil. unfold FTRP. rewrite <- Hb. tauto. }
  intros stop. unfold checkheap, checkheap_with. fold m.
  rewrite checkheap_loop_walk. fold blocks. fold stop.
  destruct (length blocks <? fuel)%nat eqn:Hlen.
  - apply Nat.ltb_lt in Hlen. cbn [bind app].
    pose proof (heap_walk_stops W m fuel (heap_listp h) Hlen) as Hstop.
    fold blocks in Hstop. fold stop in Hstop.
    assert (Hs0 : GET_SIZE W m (HDRP W stop) = 0).
    { pose proof (GET_SIZE_nonneg W m (HDRP W stop) Hword).
      rewrite Z.gtb_ltb in Hstop. apply Z.ltb_ge in Hstop. lia. }
    rewrite Hs0. cbn [Z.eqb negb orb].
    destruct (GET_ALLOC_bit m (HDRP W (heap_listp h))) as [Ha | Ha];
      destruct (GET_ALLOC_bit m (HDRP W stop)) as [Hb | Hb];
      rewrite Ha, Hb; cbn [Z.eqb negb orb].
    1-3: rewrite ?orb_true_r;
      (split; [intros H; injection H as H;
               apply (f_equal (@length report)) in H;
               simpl in H; rewrite ?length_app in H; simpl in H; lia
             | intros (_ & _ & H1 & _ & _ & H2); discriminate || lia ]).
    destruct (Z.eqb_spec (GET_SIZE W m (HDRP W (heap_listp h))) (DSIZE W))
      as [Hd | Hd]; cbn [negb app].
    + split.
      * intros H. injection H as H. apply app_eq_nil in H as [H1 H2].
        rewrite app_nil_r in H2. apply flat_map_nil in H2.
        repeat split; trivial. now apply Hck.
      * intros (_ & _ & _ & Hall & _). apply Hck in Hall.
        assert (Hhd : checkblock W m (heap_listp h) = []).
        { unfold blocks in Hall. destruct fuel as [| fuel]; [lia |].
          cbn [heap_walk] in Hall. rewrite Hd in Hall.
          assert (Hg : (DSIZE W >? 0) = true)
            by (apply Z.gtb_lt; unfold DSIZE; destruct Hword; lia).
          rewrite Hg in Hall. now inversion Hall. }
        rewrite Hhd, app_nil_r. cbn [app].
        apply flat_map_nil in Hall. now rewrite Hall.
    + split; [discriminate | tauto].
  - apply Nat.ltb_ge in Hlen. cbn [bind].
    split; [discriminate | intros [H _]; lia].
Qed.

Lemma checkheap_quiet_iff_witness :
  word_size 8 /\
  (checkheap 8 walk_fuel false init_heap = Some [] <->
   (length (heap_walk 8 walk_fuel (mem init_heap) (heap_listp init_heap))
    < walk_fuel)%nat /\
   GET_SIZE 8 (mem init_heap) (HDRP 8 (heap_listp init_heap)) = DSIZE 8 /\
   GET_ALLOC (mem init_heap) (HDRP 8 (heap_listp init_heap)) = 1 /\
   Forall (fun b => let '(bp, sz, _) := b in
             bp mod DSIZE 8 = 0 /\
             mem init_heap (HDRP 8 bp) = mem init_heap (bp + sz - DSIZE 8))
          (heap_walk 8 walk_fuel (mem init_heap) (heap_listp init_heap)) /\
   GET_SIZE 8 (mem init_heap)
     (HDRP 8 (heap_listp init_heap +
              total (sizes_of (heap_walk 8 walk_fuel (mem init_heap)
                                 (heap_listp init_heap))))) = 0 /\
   GET_ALLOC (mem init_heap)
     (HDRP 8 (heap_listp init_heap +
              total (sizes_of (heap_walk 8 walk_fuel (mem init_heap)
                                 (heap_listp init_heap))))) = 1).
Proof.
  split; [right; reflexivity |].
  apply (checkheap_quiet_iff 8 walk_fuel init_heap). right. reflexivity.
Defined.

(** X17.  [checkheap(false)] prints nothing on a well-formed heap. *)
Theorem checkheap_quiet_on_heap_ok W h bl l fuel :
  word_size W -> heap_ok W h bl l -> prologue_ok W h ->
  (length bl + 2 < fuel)%nat ->
  checkheap W fuel false h = Some [].
Proof.
  intros Hword Hok Hpro Hfuel. unfold checkheap.
  now apply checkheap_with_quiet with (bl := bl) (l := l).
Qed.

Lemma checkheap_quiet_on_heap_ok_witness :
  word_size 8 /\ heap_ok 8 init_heap [(4096, 0)] [65600] /\
  prologue_ok 8 init_heap /\ (length [(4096, 0)%Z] + 2 < 4)%nat /\
  checkheap 8 4 false init_heap = Some [].
Proof.
  assert (Hw : word_size 8) by (right; reflexivity).
  assert (Hf : (length [(4096, 0)%Z] + 2 < 4)%nat) by (simpl; lia).
  split; [exact Hw |]. split; [exact init_heap_ok |].
  split; [exact init_heap_prologue |]. split; [exact Hf |].
  exact (checkheap_quiet_on_heap_ok 8 init_heap [(4096, 0)] [65600] 4 Hw
           init_heap_ok init_heap_prologue Hf).
Defined.

(** X18.  [checkheap(true)] on a well-formed heap prints the heap line,
    one line for the prologue, one for the sentinel block and one for
    every block of the layout in address order, each with the header
    fields equal to the footer fields, and then the end-of-heap line for
    the break; the nested [checkheap(false)] of every [printblock] adds
    nothing. *)
Theorem checkheap_verbose_lists_blocks W h bl l fuel :
  word_size W -> heap_ok W h bl l -> prologue_ok W h ->
  (length bl + 2 < fuel)%nat ->
  checkheap W fuel true h =
  Some (HeapLine (heap_listp h)
        :: map block_line
             ((heap_listp h, DSIZE W, 1)
              :: (free_listp h, 4 * W, 1)
              :: layout (free_listp h + 4 * W) bl)
        ++ [EndOfHeap (mem_brk h)]).
Proof.
  intros Hword Hok Hpro Hfuel.
  pose proof Hok as (Af & Hf4 & Hs & Ht & Hb & He & Hbm & Hmx & Hfl & Hiff).
  pose proof Hpro as (Hhl & Hph & Hpf).
  pose proof (tagged_positive W Hword _ _ Ht) as Hpos.
  unfold checkheap, checkheap_with.
  rewrite (checkheap_loop_heap W Hword (printblock W fuel h) true
             (fun b => [block_line b]) h bl l fuel Hok Hpro); trivial.
  - cbn [bind]. rewrite (printblock_end W Hword h bl l fuel Hok Hpro Hfuel).
    cbn [bind].
    rewrite (GET_SIZE_PACK W Hword) with (s := DSIZE W) (a := 1); trivial;
      try (now right); try (unfold DSIZE, modulus; destruct Hword as [E | E];
                            rewrite E in *; lia).
    rewrite (GET_ALLOC_PACK W Hword) with (s := DSIZE W) (a := 1); trivial;
      try (now right); try (unfold DSIZE; destruct Hword as [E | E];
                            rewrite E in *; lia).
    rewrite (GET_SIZE_PACK W Hword) with (s := 0) (a := 1); trivial;
      try (now right); try (unfold DSIZE, modulus; destruct Hword as [E | E];
                            rewrite E in *; lia).
    rewrite (GET_ALLOC_PACK W Hword) with (s := 0) (a := 1); trivial;
      try (now right); try (unfold DSIZE; destruct Hword as [E | E];
                            rewrite E in *; lia).
    rewrite !Z.eqb_refl. cbn [negb orb Z.eqb].
    rewrite (checkblock_tagged W Hword) with (sz := DSIZE W) (a := 1);
      try (now right); try (unfold aligned, DSIZE, modulus in *;
                            destruct Hword as [E | E]; rewrite E in *; lia).
    + assert (Hfm : forall L : list (Z * Z * Z),
                flat_map (fun b => [block_line b]) L = map block_line L).
      { induction L as [| b L IH]; [reflexivity |].
        cbn [flat_map map app]. now rewrite IH. }
      rewrite Hfm, app_nil_r. reflexivity.
    + split; [exact Hph |].
      replace (heap_listp h + DSIZE W - DSIZE W) with (heap_listp h) by lia.
      exact Hpf.
  - intros _ [[x sz] a] Hin. cbn [fst].
    assert (Hblk : 0 < sz /\ sz mod DSIZE W = 0 /\ sz + 1 < modulus W /\
                   bit a /\ block_at W (mem h) x sz a).
    { destruct Hin as [Heq | Hin].
      - inversion Heq; subst x sz a.
        repeat split; try (now right); trivial;
          try (unfold DSIZE, modulus; destruct Hword as [E | E];
               rewrite E in *; lia).
        replace (heap_listp h + DSIZE W - DSIZE W) with (heap_listp h) by lia.
        exact Hpf.
      - cbn [layout] in Hin. destruct Hin as [Heq | Hin].
        + inversion Heq; subst x sz a.
          repeat split; try (now right); try apply Hs;
            try (unfold DSIZE, modulus; destruct Hword as [E | E];
                 rewrite E in *; lia).
        + pose proof (proj1 (Forall_forall _ _) Ht _ Hin) as (Hsz & Ha & Hblk).
          apply (layout_bounds _ _ _ _ _ Hpos) in Hin.
          repeat split; trivial; try apply Hblk; try apply Hsz;
            try (unfold block_size, DSIZE, modulus in *;
                 destruct Hword as [E | E]; rewrite E in *; lia). }
    destruct Hblk as (H0 & Hm & Hlt & Ha & Hblk).
    now apply (printblock_block W Hword h bl l fuel x sz a).
Qed.

Lemma checkheap_verbose_lists_blocks_witness :
  word_size 8 /\ heap_ok 8 init_heap [(4096, 0)] [65600] /\
  prologue_ok 8 init_heap /\ (length [(4096, 0)%Z] + 2 < 4)%nat /\
  checkheap 8 4 true init_heap =
  Some (HeapLine (heap_listp init_heap)
        :: map block_line
             ((heap_listp init_heap, DSIZE 8, 1)
              :: (free_listp init_heap, 4 * 8, 1)
              :: layout (free_listp init_heap + 4 * 8) [(4096, 0)])
        ++ [EndOfHeap (mem_brk init_heap)]).
Proof.
  assert (Hw : word_size 8) by (right; reflexivity).
  assert (Hf : (length [(4096, 0)%Z] + 2 < 4)%nat) by (simpl; lia).
  split; [exact Hw |]. split; [exact init_heap_ok |].
  split; [exact init_heap_prologue |]. split; [exact Hf |].
  exact (checkheap_verbose_lists_blocks 8 init_heap [(4096, 0)] [65600] 4 Hw
           init_heap_ok init_heap_prologue Hf).
Defined.

Lemma check_freeblocks_free_loop_dll W m flp l : forall p fuel,
  word_size W ->
  dll W m p l flp -> aligned W p ->
  (forall x, In x l -> aligned W x /\ x <> flp) ->
  (length l < fuel)%nat ->
  check_freeblocks_free_loop W fuel m flp (next_of W m p) = Some [].
Proof.
  induction l as [| x l IH]; intros p fuel Hword Hd Al Hall Hfuel;
    (destruct fuel as [| fuel]; [simpl in Hfuel; lia |]).
  - destruct Hd as [Hn _]. rewrite Hn. cbn [check_freeblocks_free_loop].
    now rewrite Z.eqb_refl.
  - destruct Hd as (Hn & Hp & Hd). rewrite Hn.
    destruct (Hall x (or_introl eq_refl)) as [Ax Hne].
    cbn [check_freeblocks_free_loop].
    assert (Hc : (flp =? x) = false) by (apply Z.eqb_neq; congruence).
    rewrite Hc.
    assert (Ha : GET_ALLOC m x = 0).
    { unfold GET_ALLOC. rewrite land_one. unfold prev_of in Hp. rewrite Hp.
      unfold aligned, DSIZE in Al. destruct Hword as [E | E];
        rewrite E in Al; lia. }
    rewrite Ha. cbn [Z.eqb negb].
    rewrite (IH x fuel); trivial.
    + intros y Hy. apply Hall. now right.
    + simpl in Hfuel. lia.
Qed.

(** X19.  [check_freeblocks_free] tests the word its list pointer points
    to, which is the node's [prev] link, not the block's header.  On every
    well-linked free list it therefore walks the whole list and reports
    nothing, whatever the headers of the listed blocks say. *)
Theorem check_freeblocks_free_never_reports W h l fuel :
  word_size W ->
  free_list W (mem h) (free_listp h) l ->
  (length l < fuel)%nat ->
  check_freeblocks_free W fuel h = Some [].
Proof.
  intros Hword (Hd & ND & Hal) Hfuel. unfold check_freeblocks_free.
  apply check_freeblocks_free_loop_dll with (l := l); trivial.
  - apply Hal. now left.
  - intros x Hx. split; [apply Hal; now right |].
    apply NoDup_cons_iff in ND as [Hn _]. congruence.
Qed.

Lemma marked_heap_free_list :
  free_list 8 (mem marked_heap) (free_listp marked_heap) [65600].
Proof.
  apply (free_list_put 8 (mem init_heap) 65568 [65600]).
  - exact init_heap_free_list.
  - intros (x & Hx & Ha). unfold HDRP in Ha.
    destruct Hx as [<- | [<- | []]]; lia.
Qed.

Lemma check_freeblocks_free_never_reports_witness :
  word_size 8 /\
  free_list 8 (mem marked_heap) (free_listp marked_heap) [65600] /\
  (length [65600%Z] < 2)%nat /\
  GET_ALLOC (mem marked_heap) (HDRP 8 65600) = 1 /\
  check_freeblocks_free 8 2 marked_heap = Some [].
Proof.
  assert (Hw : word_size 8) by (right; reflexivity).
  assert (Hf : (length [65600%Z] < 2)%nat) by (simpl; lia).
  split; [exact Hw |]. split; [exact marked_heap_free_list |].
  split; [exact Hf |]. split; [reflexivity |].
  exact (check_freeblocks_free_never_reports 8 marked_heap [65600] 2 Hw
           marked_heap_free_list Hf).
Defined.

Lemma check_contiguous_loop_stuck W h bl l :
  word_size W -> heap_ok W h bl l -> prologue_ok W h ->
  forall fuel current next,
    (next = free_listp h \/
     exists A C, bl = A ++ C /\ next = free_listp h + 4 * W + total A) ->
    check_contiguous_loop W fuel (mem h) (heap_listp h) current next = None.
Proof.
  intros Hword Hok (Hhl & Hph & Hpf).
  pose proof Hok as (Af & Hf4 & Hs & Ht & Hb & He & Hbm & Hmx & Hfl & Hiff).
  pose proof (tagged_positive W Hword _ _ Ht) as Hpos.
  destruct (total_aligned W Hword _ _ _ Ht) as [_ Ht0].
  induction fuel as [| fuel IH]; intros current next Hnext; [reflexivity |].
  cbn [check_contiguous_loop].
  assert (Hlow : heap_listp h < free_listp h)
    by (unfold DSIZE in Hhl; destruct Hword; lia).
  assert (Hstep : heap_listp h <> next /\
            (NEXT_BLKP W (mem h) next = free_listp h \/
             exists A C, bl = A ++ C /\
               NEXT_BLKP W (mem h) next = free_listp h + 4 * W + total A)).
  { destruct Hnext as [-> | (A & C & Hbl & ->)].
    - split; [lia |]. right. exists [], bl. split; [reflexivity |].
      unfold NEXT_BLKP. fold (HDRP W (free_listp h)).
      rewrite (GET_SIZE_PACK W Hword) with (s := 4 * W) (a := 1);
        try apply Hs; try (now right);
        try (unfold DSIZE, modulus in *; destruct Hword as [E | E];
             rewrite E in *; lia).
      change (total []) with 0. lia.
    - assert (HA : 0 <= total A).
      { rewrite Hbl, layout_app in Ht. apply Forall_app in Ht as [HtA _].
        now destruct (total_aligned W Hword _ _ _ HtA). }
      split; [destruct Hword; lia |]. right.
      destruct C as [| [sz a] C].
      + exists A, []. split; [exact Hbl |].
        rewrite app_nil_r in Hbl. subst A.
        unfold NEXT_BLKP. fold (HDRP W (free_listp h + 4 * W + total bl)).
        rewrite <- Hb.
        rewrite (GET_SIZE_PACK W Hword) with (s := 0) (a := 1); trivial;
          try (now right); try lia;
          try (unfold DSIZE, modulus in *; destruct Hword as [E | E];
               rewrite E in *; lia).
      + exists (A ++ [(sz, a)]), C. split; [now rewrite <- app_assoc |].
        assert (Hin : In (free_listp h + 4 * W + total A, sz, a)
                         (layout (free_listp h + 4 * W) bl)).
        { rewrite Hbl, layout_app, in_app_iff. right. now left. }
        pose proof (proj1 (Forall_forall _ _) Ht _ Hin) as (Hsz & Ha & Hh & _).
        apply (layout_bounds _ _ _ _ _ Hpos) in Hin.
        unfold NEXT_BLKP. fold (HDRP W (free_listp h + 4 * W + total A)).
        rewrite (GET_SIZE_PACK W Hword) with (s := sz) (a := a); trivial;
          try apply Hsz;
          try (unfold block_size, DSIZE, modulus in *;
               destruct Hword as [E | E]; rewrite E in *; lia).
        rewrite total_app. change (total [(sz, a)]) with (sz + 0). lia. }
  destruct Hstep as [Hne Hnx]. apply Z.eqb_neq in Hne. rewrite Hne.
  now rewrite (IH next _ Hnx).
Qed.

(** X20.  [check_contiguous] never returns on a well-formed heap: its
    loop runs until [NEXT_BLKP] leads back to [heap_listp], but the blocks
    only lead upwards to the epilogue, whose size is 0, and there
    [NEXT_BLKP] stays.  No amount of fuel lets it finish. *)
Theorem check_contiguous_never_returns W h bl l fuel :
  word_size W -> heap_ok W h bl l -> prologue_ok W h ->
  check_contiguous W fuel h = None.
Proof.
  intros Hword Hok Hpro. unfold check_contiguous.
  apply (check_contiguous_loop_stuck W h bl l Hword Hok Hpro).
  left. destruct Hpro as (Hhl & Hph & Hpf).
  pose proof Hok as (Af & Hf4 & _).
  unfold NEXT_BLKP. fold (HDRP W (heap_listp h)).
  rewrite (GET_SIZE_PACK W Hword) with (s := DSIZE W) (a := 1); trivial;
    try (now right);
    try (unfold DSIZE, modulus in *; destruct Hword as [E | E];
         rewrite E in *; lia).
Qed.

Lemma check_contiguous_never_returns_witness :
  word_size 8 /\ heap_ok 8 init_heap [(4096, 0)] [65600] /\
  prologue_ok 8 init_heap /\
  check_contiguous 8 100 init_heap = None.
Proof.
  assert (Hw : word_size 8) by (right; reflexivity).
  split; [exact Hw |]. split; [exact init_heap_ok |].
  split; [exact init_heap_prologue |].
  exact (check_contiguous_never_returns 8 init_heap [(4096, 0)] [65600] 100
           Hw init_heap_ok init_heap_prologue).
Defined.

(** X21.  The loops of [check_remove] and [check_add] run while
    [start != current] with both set to [heap_listp], so they end at once
    and the heap is never looked at: [check_remove] reports nothing and
    [check_add] reports its error for every heap and every block pointer,
    also for one that [add_free] has just put on the list. *)
Theorem check_add_always_reports W fuel h bp :
  check_add W (S fuel) h bp = Some [NotAdded] /\
  check_remove W (S fuel) h bp = Some [] /\
  check_add W (S fuel)
    (set_mem h (add_free W (free_listp h) (mem h) bp)) bp = Some [NotAdded].
Proof.
  unfold check_add, check_remove. cbn [check_switch_loop set_mem heap_listp].
  now rewrite Z.eqb_refl.
Qed.
